(** * sjtu::vector (src/vector.hpp): a shallow embedding and its properties

    The container is a class template over an element type [T]; its methods
    mutate the object they are called on and a raw buffer obtained from the
    global allocation function.  The embedding keeps that shape:

    - [size_t] values are integers in [0, 2^64) with the wrap-around of the
      arithmetic written out ([wrap]);
    - a machine state holds the free store (raw buffers of slots, each slot
      either raw or holding a live [T]), the [vector] objects, addressed by
      their [this] pointer, and the trace of allocation and element
      operations performed so far;
    - methods are computations in a state monad whose outcomes are a normal
      return, a C++ exception, undefined behaviour, or non-termination.

    Two things are taken from the language rather than from the file:
    [::operator new] returns a fresh non-null pointer for every size, zero
    included, or throws [std::bad_alloc]; and [::operator delete] accepts the
    null pointer.  A [const T &] argument is passed as the value it refers
    to, which is right for every caller whose argument is not an element of
    the sequence being changed. *)

From stdpp Require Import base numbers option list gmap.

Local Open Scope Z_scope.

Module sjtu.

(** ** Machine integers and exceptions *)

Definition PTRDIFF_MAX : Z := 2 ^ 63 - 1.

(** Arithmetic on [size_t] is modulo 2^64. *)
Definition wrap (x : Z) : Z := x `mod` 2 ^ 64.
Arguments wrap : simpl never.

(** The exceptions of exceptions.hpp that vector.hpp throws, [std::bad_alloc]
    of the global allocation function, and whatever a copy of [T] throws. *)
Inductive exn :=
  | index_out_of_bound
  | invalid_iterator
  | container_is_empty
  | bad_alloc
  | elem_exn.

(** The three data members of [vector<T>]; [data_ = 0] is [nullptr]. *)
Record vector := Vector { data_ : Z; sz_ : Z; cap_ : Z }.

(** [iterator] and [const_iterator]: the owner's address and an index. *)
Record iterator := Iterator { owner : Z; idx : Z }.

(** [operator==] of the iterators. *)
Definition iterator_eqb (a b : iterator) : bool :=
  (owner a =? owner b) && (idx a =? idx b).

Inductive outcome (A : Type) :=
  | Ret (a : A)
  | Throw (e : exn)
  | Undef
  | Diverge.
Arguments Ret {A} a.
Arguments Throw {A} e.
Arguments Undef {A}.
Arguments Diverge {A}.

(** An outcome without its result. *)
Definition void {A} (o : outcome A) : outcome unit :=
  match o with
  | Ret _ => Ret tt
  | Throw e => Throw e
  | Undef => Undef
  | Diverge => Diverge
  end.

Definition finished {A} (o : outcome A) : bool :=
  match o with Ret _ | Throw _ => true | _ => false end.

(** ** Iterator arithmetic

    [iterator] and [const_iterator] have the same two members and the same
    operators, and a [const_iterator] made from an [iterator] copies both
    members, so the one record serves for both.  [int] is 32 bits wide;
    [static_cast<int>] of a [size_t] keeps its low 32 bits, read in two's
    complement. *)

Definition is_int (n : Z) : bool := (- 2 ^ 31 <=? n) && (n <? 2 ^ 31).

Definition to_int (x : Z) : Z := (x + 2 ^ 31) `mod` 2 ^ 32 - 2 ^ 31.

(** [operator+(const int &n)]: [iterator(owner, idx + n)], the [int] converted
    to [size_t] and the sum taken modulo 2^64. *)
Definition it_add (it : iterator) (n : Z) : iterator :=
  Iterator (owner it) (wrap (idx it + n)).

(** [operator-(const int &n)]. *)
Definition it_sub (it : iterator) (n : Z) : iterator :=
  Iterator (owner it) (wrap (idx it - n)).

(** [operator-(const iterator &rhs)]: the subtraction is one of [int]s, whose
    overflow is undefined. *)
Definition it_diff (a b : iterator) : outcome Z :=
  if negb (owner a =? owner b) then Throw invalid_iterator
  else
    let d := to_int (idx a) - to_int (idx b) in
    if is_int d then Ret d else Undef.

(** [operator+=] and [operator-=]: the new value of [*this]. *)
Definition it_add_assign (it : iterator) (n : Z) : iterator :=
  Iterator (owner it) (wrap (idx it + n)).
Definition it_sub_assign (it : iterator) (n : Z) : iterator :=
  Iterator (owner it) (wrap (idx it - n)).

(** [operator++()] and [operator--()]: the new value of [*this]. *)
Definition it_pre_inc (it : iterator) : iterator :=
  Iterator (owner it) (wrap (idx it + 1)).
Definition it_pre_dec (it : iterator) : iterator :=
  Iterator (owner it) (wrap (idx it - 1)).

(** [operator++(int)] and [operator--(int)]: the result, which is the old
    value, and the new value of [*this]. *)
Definition it_post_inc (it : iterator) : iterator * iterator :=
  let tmp := it in (tmp, it_pre_inc it).
Definition it_post_dec (it : iterator) : iterator * iterator :=
  let tmp := it in (tmp, it_pre_dec it).

(** [operator!=]. *)
Definition iterator_neqb (a b : iterator) : bool := negb (iterator_eqb a b).

Section Vector.

(** The element type: its size in bytes, and which copies throw.  A copy
    that does not throw yields a value equal to its source. *)
Context {T : Type}.
Variable sizeof_T : Z.
Variable copy_throws : T → bool.
Variable assign_throws : T → T → bool.

(** ** Machine state *)

Inductive event :=
  | EvNew (p bytes : Z)
  | EvDelete (p : Z)
  | EvConstruct (p i : Z) (v : T)
  | EvAssign (p i : Z) (v : T)
  | EvDestroy (p i : Z).

Record state := State {
  heap : gmap Z (list (option T));
  avail : Z;
  objs : gmap Z vector;
  trace : list event
}.

Definition M (A : Type) : Type := state → outcome A * state.

Definition ret {A} (a : A) : M A := λ st, (Ret a, st).
Definition throw {A} (e : exn) : M A := λ st, (Throw e, st).
Definition diverge {A} : M A := λ st, (Diverge, st).

Definition bind {A B} (m : M A) (k : A → M B) : M B := λ st,
  match m st with
  | (Ret a, st') => k a st'
  | (Throw e, st') => (Throw e, st')
  | (Undef, st') => (Undef, st')
  | (Diverge, st') => (Diverge, st')
  end.

Notation "'let!' x ':=' m 'in' k" := (bind m (λ x, k))
  (at level 10, x pattern, m at level 100, k at level 200).
Notation "m ';;' k" := (bind m (λ _, k))
  (at level 100, k at level 200, right associativity).

Definition try_catch {A} (m : M A) (handler : exn → M A) : M A := λ st,
  match m st with
  | (Throw e, st') => handler e st'
  | r => r
  end.

(** A [for] loop over the indices [ixs], in that order.  The loop counter is
    declared outside the loop, so when the body throws the handler of an
    enclosing [try] still sees it: the loop yields the index at which the
    body threw together with the exception. *)
Fixpoint try_for (ixs : list Z) (body : Z → M unit) : M (option (Z * exn)) :=
  match ixs with
  | [] => ret None
  | i :: ixs' => λ st,
      match body i st with
      | (Ret _, st') => try_for ixs' body st'
      | (Throw e, st') => (Ret (Some (i, e)), st')
      | (Undef, st') => (Undef, st')
      | (Diverge, st') => (Diverge, st')
      end
  end.

(** The same loop outside a [try]: the exception propagates. *)
Fixpoint for_ (ixs : list Z) (body : Z → M unit) : M unit :=
  match ixs with
  | [] => ret tt
  | i :: ixs' => body i ;; for_ ixs' body
  end.

(** ** The free store *)

Definition max_key {V} (h : gmap Z V) : Z := foldr Z.max 0 (map_to_list h).*1.

(** The address handed out next: above every block in use, never null. *)
Definition fresh_ptr {V} (h : gmap Z V) : Z := 1 + max_key h.

(** [::operator new(bytes)]: storage for [bytes / sizeof(T)] slots at a fresh
    non-null address, also for a request of zero bytes; [std::bad_alloc] when
    the request exceeds what is left or the largest object size. *)
Definition operator_new (bytes : Z) : M Z := λ st,
  if (bytes <=? avail st) && (bytes <=? PTRDIFF_MAX) then
    let p := fresh_ptr (heap st) in
    (Ret p,
     State (<[p := replicate (Z.to_nat (bytes / sizeof_T)) None]> (heap st))
           (avail st - bytes) (objs st) (trace st ++ [EvNew p bytes]))
  else (Throw bad_alloc, st).

(** [::operator delete(p)]: nothing for a null pointer. *)
Definition operator_delete (p : Z) : M unit := λ st,
  if p =? 0 then (Ret tt, st) else
  match heap st !! p with
  | Some blk =>
      (Ret tt,
       State (delete p (heap st)) (avail st + Z.of_nat (length blk) * sizeof_T)
             (objs st) (trace st ++ [EvDelete p]))
  | None => (Undef, st)
  end.

Definition slot (blk : list (option T)) (i : Z) : option (option T) :=
  if 0 <=? i then blk !! Z.to_nat i else None.

Definition store (p i : Z) (x : option T) (e : event) : M unit := λ st,
  match heap st !! p with
  | Some blk =>
      (Ret tt,
       State (<[p := <[Z.to_nat i := x]> blk]> (heap st)) (avail st) (objs st)
             (trace st ++ [e]))
  | None => (Undef, st)
  end.

(** Reading [p[i]]: the slot must exist and hold a live element. *)
Definition load (p i : Z) : M T := λ st,
  match heap st !! p with
  | Some blk =>
      match slot blk i with
      | Some (Some v) => (Ret v, st)
      | _ => (Undef, st)
      end
  | None => (Undef, st)
  end.

(** [new (p + i) T(src)]: placement copy construction into slot [i]. *)
Definition construct_at (p i : Z) (src : T) : M unit := λ st,
  match heap st !! p with
  | Some blk =>
      match slot blk i with
      | Some _ =>
          if copy_throws src then (Throw elem_exn, st)
          else store p i (Some src) (EvConstruct p i src) st
      | None => (Undef, st)
      end
  | None => (Undef, st)
  end.

(** [p[i] = src]: copy assignment to the live element of slot [i]. *)
Definition assign_at (p i : Z) (src : T) : M unit := λ st,
  match heap st !! p with
  | Some blk =>
      match slot blk i with
      | Some (Some old) =>
          if assign_throws old src then (Throw elem_exn, st)
          else store p i (Some src) (EvAssign p i src) st
      | _ => (Undef, st)
      end
  | None => (Undef, st)
  end.

(** [p[i].~T()]: the slot becomes raw again. *)
Definition destroy_at (p i : Z) : M unit := λ st,
  match heap st !! p with
  | Some blk =>
      match slot blk i with
      | Some (Some _) => store p i None (EvDestroy p i) st
      | _ => (Undef, st)
      end
  | None => (Undef, st)
  end.

(** ** Access to the members of [*this] *)

Definition get_vec (this : Z) : M vector := λ st,
  match objs st !! this with
  | Some v => (Ret v, st)
  | None => (Undef, st)
  end.

Definition put_vec (this : Z) (v : vector) : M unit := λ st,
  match objs st !! this with
  | Some _ => (Ret tt, State (heap st) (avail st) (<[this := v]> (objs st)) (trace st))
  | None => (Undef, st)
  end.

Definition get_data (this : Z) : M Z := let! v := get_vec this in ret (data_ v).
Definition get_sz (this : Z) : M Z := let! v := get_vec this in ret (sz_ v).
Definition get_cap (this : Z) : M Z := let! v := get_vec this in ret (cap_ v).

Definition set_data (this p : Z) : M unit :=
  let! v := get_vec this in put_vec this (Vector p (sz_ v) (cap_ v)).
Definition set_sz (this n : Z) : M unit :=
  let! v := get_vec this in put_vec this (Vector (data_ v) n (cap_ v)).
Definition set_cap (this n : Z) : M unit :=
  let! v := get_vec this in put_vec this (Vector (data_ v) (sz_ v) n).

(** Storage for a [vector] object with its default member initialisers
    ([data_ = nullptr], [sz_ = 0], [cap_ = 0]), and its release. *)
Definition alloc_obj : M Z := λ st,
  let this := fresh_ptr (objs st) in
  (Ret this, State (heap st) (avail st) (<[this := Vector 0 0 0]> (objs st)) (trace st)).

Definition dealloc_obj (this : Z) : M unit := λ st,
  match objs st !! this with
  | Some _ => (Ret tt, State (heap st) (avail st) (delete this (objs st)) (trace st))
  | None => (Undef, st)
  end.

(** ** The private members

    A member of [*this] is read where the source first needs it; a value
    read is used again only while no step in between has assigned to that
    member. *)

(** [raw_alloc(n)]: [(T * )::operator new(n * sizeof(T))]. *)
Definition raw_alloc (n : Z) : M Z := operator_new (wrap (n * sizeof_T)).

Definition raw_free (p : Z) : M unit := operator_delete p.

(** [while (ncap < need) ncap <<= 1;] works on a local variable only.  After
    64 shifts every 64-bit value is 0, so a loop that has not stopped by then
    never does: [None] stands for that. *)
Fixpoint grow (fuel : nat) (ncap need : Z) : option Z :=
  if ncap <? need then
    match fuel with
    | O => None
    | S fuel' => grow fuel' (wrap (ncap ≪ 1)) need
    end
  else Some ncap.

(** [size_t ncap = cap_ ? cap_ : 1; while (ncap < need) ncap <<= 1;] *)
Definition new_capacity (cap need : Z) : option Z :=
  grow 64 (if cap =? 0 then 1 else cap) need.

Definition ensure_capacity (this need : Z) : M unit :=
  let! cap := get_cap this in
  if need <=? cap then ret tt else
  let! ncap := match new_capacity cap need with
                | Some ncap => ret ncap
                | None => diverge
                end in
  let! nd := raw_alloc ncap in
  let! sz := get_sz this in
  let! d := get_data this in
  let! r := try_for (seqZ 0 sz) (λ i, let! x := load d i in construct_at nd i x) in
  match r with
  | Some (i, e) =>
      for_ (seqZ 0 i) (λ j, destroy_at nd j) ;;
      raw_free nd ;;
      throw e
  | None =>
      for_ (seqZ 0 sz) (λ j, destroy_at d j) ;;
      raw_free d ;;
      set_data this nd ;;
      set_cap this ncap
  end.

(** ** Construction, destruction, assignment *)

(** [vector() = default]. *)
Definition default_ctor (this : Z) : M unit :=
  set_data this 0 ;; set_sz this 0 ;; set_cap this 0.

(** [vector(const vector &other)]. *)
Definition copy_ctor (this other : Z) : M unit :=
  set_data this 0 ;; set_sz this 0 ;; set_cap this 0 ;;
  let! osz := get_sz other in
  if osz =? 0 then ret tt else
  let! d := raw_alloc osz in
  set_data this d ;;
  set_cap this osz ;;
  let! od := get_data other in
  let! r := try_for (seqZ 0 osz) (λ i, let! x := load od i in construct_at d i x) in
  match r with
  | Some (i, e) =>
      for_ (seqZ 0 i) (λ j, destroy_at d j) ;;
      raw_free d ;;
      set_data this 0 ;;
      set_cap this 0 ;;
      throw e
  | None => set_sz this osz
  end.

Definition clear (this : Z) : M unit :=
  let! sz := get_sz this in
  let! d := get_data this in
  for_ (seqZ 0 sz) (λ i, destroy_at d i) ;;
  set_sz this 0.

(** [~vector()]. *)
Definition dtor (this : Z) : M unit :=
  clear this ;;
  (let! d := get_data this in if d =? 0 then ret tt else raw_free d) ;;
  set_data this 0 ;;
  set_cap this 0.

(** A declaration [vector v;]. *)
Definition new_vector : M Z :=
  let! this := alloc_obj in default_ctor this ;; ret this.

(** A declaration [vector v(other);]: when the constructor throws, the
    object never comes to exist and its storage is given back. *)
Definition new_vector_copy (other : Z) : M Z :=
  let! this := alloc_obj in
  try_catch (copy_ctor this other ;; ret this)
            (λ e, dealloc_obj this ;; throw e).

(** The end of the scope of a declared vector. *)
Definition delete_vector (this : Z) : M unit :=
  dtor this ;; dealloc_obj this.

Definition swap (this rhs : Z) : M unit :=
  let! td := get_data this in
  (let! rd := get_data rhs in set_data this rd) ;;
  set_data rhs td ;;
  let! ts := get_sz this in
  (let! rs := get_sz rhs in set_sz this rs) ;;
  set_sz rhs ts ;;
  let! tc := get_cap this in
  (let! rc := get_cap rhs in set_cap this rc) ;;
  set_cap rhs tc.

(** [operator=]; the result is the address of [*this]. *)
Definition assign (this other : Z) : M Z :=
  if this =? other then ret this else
  let! tmp := new_vector_copy other in
  swap this tmp ;;
  delete_vector tmp ;;
  ret this.

(** ** Observers *)

Definition at_ (this pos : Z) : M T :=
  let! sz := get_sz this in
  if sz <=? pos then throw index_out_of_bound else
  let! d := get_data this in load d pos.

(** [operator[]]: checked like [at]. *)
Definition subscript (this pos : Z) : M T :=
  let! sz := get_sz this in
  if sz <=? pos then throw index_out_of_bound else
  let! d := get_data this in load d pos.

Definition front (this : Z) : M T :=
  let! sz := get_sz this in
  if sz =? 0 then throw container_is_empty else
  let! d := get_data this in load d 0.

Definition back (this : Z) : M T :=
  let! sz := get_sz this in
  if sz =? 0 then throw container_is_empty else
  let! d := get_data this in load d (wrap (sz - 1)).

Definition begin_ (this : Z) : M iterator := ret (Iterator this 0).
Definition end_ (this : Z) : M iterator :=
  let! sz := get_sz this in ret (Iterator this sz).

Definition empty (this : Z) : M bool := let! sz := get_sz this in ret (sz =? 0).
Definition size (this : Z) : M Z := get_sz this.

(** [iterator::operator*]. *)
Definition deref (it : iterator) : M T :=
  if owner it =? 0 then throw invalid_iterator else
  let! sz := get_sz (owner it) in
  if sz <=? idx it then throw invalid_iterator else
  let! d := get_data (owner it) in load d (idx it).

(** ** Modifiers *)

(** [insert(const size_t &ind, const T &value)]. *)
Definition insert_idx (this ind : Z) (value : T) : M iterator :=
  let! sz := get_sz this in
  if sz <? ind then throw index_out_of_bound else
  ensure_capacity this (wrap (sz + 1)) ;;
  let! sz := get_sz this in
  let! d := get_data this in
  if ind =? sz then
    construct_at d sz value ;;
    set_sz this (wrap (sz + 1)) ;;
    ret (Iterator this ind)
  else
    (let! x := load d (wrap (sz - 1)) in construct_at d sz x) ;;
    for_ (reverse (seqZ (ind + 1) (wrap (sz - 1) - ind))) (λ i,
      let! x := load d (wrap (i - 1)) in assign_at d i x) ;;
    assign_at d ind value ;;
    set_sz this (wrap (sz + 1)) ;;
    ret (Iterator this ind).

(** [insert(iterator pos, const T &value)]. *)
Definition insert_it (this : Z) (pos : iterator) (value : T) : M iterator :=
  if negb (owner pos =? this) then throw invalid_iterator else
  insert_idx this (idx pos) value.

(** [erase(iterator pos)]. *)
Definition erase_it (this : Z) (pos : iterator) : M iterator :=
  if negb (owner pos =? this) then throw invalid_iterator else
  let! sz := get_sz this in
  if sz <=? idx pos then throw invalid_iterator else
  let ind := idx pos in
  let! d := get_data this in
  if ind =? wrap (sz - 1) then
    destroy_at d (wrap (sz - 1)) ;;
    set_sz this (wrap (sz - 1)) ;;
    end_ this
  else
    for_ (seqZ ind (sz - 1 - ind)) (λ i,
      let! x := load d (wrap (i + 1)) in assign_at d i x) ;;
    destroy_at d (wrap (sz - 1)) ;;
    set_sz this (wrap (sz - 1)) ;;
    ret (Iterator this ind).

(** [erase(const size_t &ind)]. *)
Definition erase_idx (this ind : Z) : M iterator :=
  let! sz := get_sz this in
  if sz <=? ind then throw index_out_of_bound else
  erase_it this (Iterator this ind).

Definition push_back (this : Z) (value : T) : M unit :=
  let! sz := get_sz this in
  ensure_capacity this (wrap (sz + 1)) ;;
  let! sz := get_sz this in
  let! d := get_data this in
  construct_at d sz value ;;
  set_sz this (wrap (sz + 1)).

Definition pop_back (this : Z) : M unit :=
  let! sz := get_sz this in
  if sz =? 0 then throw container_is_empty else
  set_sz this (wrap (sz - 1)) ;;
  let! sz := get_sz this in
  let! d := get_data this in
  destroy_at d sz.

(** ** Vocabulary of the specifications *)

(** The elements that a loop of copy constructions over [l] gets through
    before the first copy that throws. *)
Fixpoint copy_prefix (l : list T) : list T :=
  match l with
  | [] => []
  | x :: l' => if copy_throws x then [] else x :: copy_prefix l'
  end.

(** The object at [this] is a sequence with the elements [l] in the first
    slots of the buffer at [p] and the slots [rest] behind them; the null
    buffer has no slots. *)
Definition holds (st : state) (this p : Z) (l : list T) (rest : list (option T)) : Prop :=
  objs st !! this
    = Some (Vector p (Z.of_nat (length l)) (Z.of_nat (length l + length rest))) ∧
  Z.of_nat (length l + length rest) * sizeof_T ≤ PTRDIFF_MAX ∧
  if decide (p = 0) then l = [] ∧ rest = []
  else (0 < length l + length rest)%nat ∧ heap st !! p = Some ((Some <$> l) ++ rest).

(** The elements of the sequence at [this], read off its first [sz_] slots. *)
Definition contents (st : state) (this : Z) : option (list T) :=
  v ← objs st !! this;
  if decide (data_ v = 0) then Some []
  else blk ← heap st !! data_ v; mapM id (take (Z.to_nat (sz_ v)) blk).

(** The free store and the trace after [raw_free p]. *)
Definition released (p : Z) (h : gmap Z (list (option T))) : gmap Z (list (option T)) :=
  if decide (p = 0) then h else delete p h.

Definition release_events (p : Z) : list event :=
  if decide (p = 0) then [] else [EvDelete p].

(** Growth by one element: the capacity doubles, from 0 it becomes 1. *)
Definition double_cap (cap : Z) : Z := if decide (cap = 0) then 1 else 2 * cap.

(** The trace of a reallocation that moves [l] from buffer [p] to [nd]. *)
Definition grow_events (p nd : Z) (l : list T) (ncap : Z) : list event :=
  [EvNew nd (ncap * sizeof_T)]
  ++ zip_with (EvConstruct nd) (seqZ 0 (Z.of_nat (length l))) l
  ++ (EvDestroy p <$> seqZ 0 (Z.of_nat (length l)))
  ++ release_events p.

(** The trace of a reallocation given up when a copy throws. *)
Definition failed_grow_events (nd : Z) (l : list T) (ncap : Z) : list event :=
  [EvNew nd (ncap * sizeof_T)]
  ++ zip_with (EvConstruct nd) (seqZ 0 (Z.of_nat (length (copy_prefix l))))
              (copy_prefix l)
  ++ (EvDestroy nd <$> seqZ 0 (Z.of_nat (length (copy_prefix l))))
  ++ [EvDelete nd].

(** What a copy construction from a sequence [l] adds to the free store
    [h]: nothing for an empty source, else a fresh buffer of exactly
    [length l] slots. *)
Definition copy_data (h : gmap Z (list (option T))) (l : list T) : Z :=
  match l with [] => 0 | _ => fresh_ptr h end.

Definition copy_heap (h : gmap Z (list (option T))) (l : list T) :
    gmap Z (list (option T)) :=
  match l with [] => h | _ => <[fresh_ptr h := Some <$> l]> h end.

Definition copy_events (h : gmap Z (list (option T))) (l : list T) : list event :=
  match l with
  | [] => []
  | _ => [EvNew (fresh_ptr h) (Z.of_nat (length l) * sizeof_T)]
         ++ zip_with (EvConstruct (fresh_ptr h)) (seqZ 0 (Z.of_nat (length l))) l
  end.




(** Every exception that [m] can throw satisfies [P]. *)
Definition only_throws {A} (P : exn → Prop) (m : M A) : Prop :=
  ∀ st e st', m st = (Throw e, st') → P e.

(** ** Programs over several sequences *)

(** The public operations; [OpNew] and [OpCopy] declare a new sequence. *)
Inductive op :=
  | OpNew
  | OpCopy (other : Z)
  | OpAssign (this other : Z)
  | OpSwap (this rhs : Z)
  | OpPushBack (this : Z) (value : T)
  | OpPopBack (this : Z)
  | OpInsert (this ind : Z) (value : T)
  | OpInsertIt (this : Z) (pos : iterator) (value : T)
  | OpErase (this ind : Z)
  | OpEraseIt (this : Z) (pos : iterator)
  | OpClear (this : Z).

Definition perform (c : op) (st : state) : outcome unit * state :=
  match c with
  | OpNew => let r := new_vector st in (void r.1, r.2)
  | OpCopy other => let r := new_vector_copy other st in (void r.1, r.2)
  | OpAssign this other => let r := assign this other st in (void r.1, r.2)
  | OpSwap this rhs => swap this rhs st
  | OpPushBack this value => push_back this value st
  | OpPopBack this => pop_back this st
  | OpInsert this ind value => let r := insert_idx this ind value st in (void r.1, r.2)
  | OpInsertIt this pos value => let r := insert_it this pos value st in (void r.1, r.2)
  | OpErase this ind => let r := erase_idx this ind st in (void r.1, r.2)
  | OpEraseIt this pos => let r := erase_it this pos st in (void r.1, r.2)
  | OpClear this => clear this st
  end.

Definition is_copy (c : op) : bool :=
  match c with OpCopy _ | OpAssign _ _ => true | _ => false end.

(** The sequences an operation is called on or reads. *)
Definition targets (c : op) : list Z :=
  match c with
  | OpNew => []
  | OpCopy other => [other]
  | OpAssign this other => [this; other]
  | OpSwap this rhs => [this; rhs]
  | OpPushBack this _ | OpPopBack this | OpInsert this _ _ | OpInsertIt this _ _
  | OpErase this _ | OpEraseIt this _ | OpClear this => [this]
  end.

(** Index arguments and the index of an iterator are [size_t] values. *)
Definition is_size_t (x : Z) : bool := (0 <=? x) && (x <? 2 ^ 64).

Definition well_typed (c : op) : bool :=
  match c with
  | OpInsert _ ind _ | OpErase _ ind => is_size_t ind
  | OpInsertIt _ pos _ | OpEraseIt _ pos => is_size_t (idx pos)
  | _ => true
  end.

(** The machine states reached from one without any sequence by operations
    that satisfy [allowed], are called on existing sequences, and either
    return or throw. *)
Inductive reachable (allowed : op → bool) : state → Prop :=
  | reachable_init a : reachable allowed (State ∅ a ∅ [])
  | reachable_step st c r st' :
      reachable allowed st → allowed c = true → well_typed c = true →
      Forall (λ x, is_Some (objs st !! x)) (targets c) →
      perform c st = (r, st') → finished r = true →
      reachable allowed st'.

(** Every sequence is well formed and no two sequences share a buffer. *)
Definition consistent (st : state) : Prop :=
  (∀ this v, objs st !! this = Some v → ∃ l rest, holds st this (data_ v) l rest) ∧
  (∀ a b va vb, a ≠ b → objs st !! a = Some va → objs st !! b = Some vb →
                data_ va ≠ 0 → data_ va ≠ data_ vb).

Definition pow2_or_zero (c : Z) : Prop := c = 0 ∨ ∃ k : nat, c = 2 ^ Z.of_nat k.

(** Which slots of a buffer hold a live element. *)
Definition live (x : option T) : bool :=
  match x with Some _ => true | None => false end.
Definition shape (blk : list (option T)) : list bool := live <$> blk.

(** An operation on the sequence [this] changes that object and its buffer
    only; the buffer stays or is a fresh one; [R] relates the capacities. *)
Definition modifies (R : Z → Z → Prop) (st st' : state) (this : Z) : Prop :=
  ∃ v v' l' rest',
    objs st !! this = Some v ∧
    objs st' = <[this := v']> (objs st) ∧
    holds st' this (data_ v') l' rest' ∧
    (∀ q, q ≠ data_ v → q ≠ data_ v' → heap st' !! q = heap st !! q) ∧
    (data_ v' = data_ v ∨ heap st !! data_ v' = None ∨ data_ v' = 0) ∧
    R (cap_ v) (cap_ v').

Definition grows (c c' : Z) : Prop := c' = c ∨ c' = double_cap c.

(** The sequence that an operation on one sequence is called on. *)
Definition single (c : op) : option Z :=
  match c with
  | OpPushBack this _ | OpPopBack this | OpInsert this _ _ | OpInsertIt this _ _
  | OpErase this _ | OpEraseIt this _ | OpClear this => Some this
  | _ => None
  end.

Definition all_pow2 (st : state) : Prop :=
  ∀ this v, objs st !! this = Some v → pow2_or_zero (cap_ v).

(** A computation that reads and writes elements only: it leaves the objects
    as they are and neither allocates nor releases a block. *)
Definition stores_only {A} (m : M A) : Prop :=
  ∀ st o st', m st = (o, st') →
    objs st' = objs st ∧ ∀ q, is_Some (heap st' !! q) ↔ is_Some (heap st !! q).

(** A computation that leaves slot [n] of the block at [p] as it is. *)
Definition keeps_slot (p : Z) (n : nat) {A} (m : M A) : Prop :=
  ∀ st o st' y, m st = (o, st') →
    (∃ blk, heap st !! p = Some blk ∧ blk !! n = Some y) →
    ∃ blk', heap st' !! p = Some blk' ∧ blk' !! n = Some y.

(** The buffer of the sequence [x], if there is such a sequence. *)
Definition buffer_of (st : state) (x : Z) : option Z := data_ <$> objs st !! x.

(** Two states with the same blocks and the same buffer for every sequence. *)
Definition same_bufs (st st' : state) : Prop :=
  (∀ q, is_Some (heap st' !! q) ↔ is_Some (heap st !! q)) ∧
  (∀ x, buffer_of st' x = buffer_of st x).

Definition keeps_bufs {A} (m : M A) : Prop :=
  ∀ st o st', m st = (o, st') → same_bufs st st'.

(** What an operation on the sequence [this] may do to the blocks: every
    block afterwards is the buffer of [this] or was there before, and the old
    buffer of [this] is there only if it still is its buffer. *)
Definition footprint (this : Z) (st st' : state) : Prop :=
  (∀ x, x ≠ this → buffer_of st' x = buffer_of st x) ∧
  (∀ q, is_Some (heap st' !! q) →
        (buffer_of st' this = Some q ∧ q ≠ 0) ∨
        (is_Some (heap st !! q) ∧
         (buffer_of st this = Some q → q ≠ 0 → buffer_of st' this = Some q))).

(** Every block of the free store is the buffer of a sequence. *)
Definition owned (st : state) : Prop :=
  ∀ q, is_Some (heap st !! q) → q ≠ 0 ∧ ∃ x, buffer_of st x = Some q.

(** A caller's loop [for (const T &x : xs) v.push_back(x);]. *)
Fixpoint push_all (this : Z) (xs : list T) : M unit :=
  match xs with
  | [] => ret tt
  | x :: xs' => push_back this x ;; push_all this xs'
  end.

(** A capacity [cap] that is the least power of two not below the size [n],
    or 0 for no element. *)
Definition tight (n cap : Z) : Prop :=
  (n = 0 ∧ cap = 0) ∨ (∃ k : nat, cap = 2 ^ Z.of_nat k ∧ n ≤ cap < 2 * n).

(** * Properties *)

(** ** Integers, fresh addresses *)

Lemma wrap_small x : 0 ≤ x < 2 ^ 64 → wrap x = x.
Proof. intros. unfold wrap. by apply Z.mod_small. Qed.

Lemma wrap_range x : 0 ≤ wrap x < 2 ^ 64.
Proof. unfold wrap. apply Z.mod_pos_bound. lia. Qed.

Lemma foldr_max_ge (l : list Z) k : k ∈ l → k ≤ foldr Z.max 0 l.
Proof.
  induction l as [|x l IH]; intros Hin.
  - by apply elem_of_nil in Hin.
  - apply elem_of_cons in Hin as [->|Hin]; simpl; [lia|].
    specialize (IH Hin). lia.
Qed.

Lemma foldr_max_nonneg (l : list Z) : 0 ≤ foldr Z.max 0 l.
Proof. induction l; simpl; lia. Qed.

Lemma max_key_ge {V} (h : gmap Z V) k : is_Some (h !! k) → k ≤ max_key h.
Proof.
  intros [v Hv]. apply foldr_max_ge.
  apply list_elem_of_fmap. exists (k, v). split; [done|].
  by apply elem_of_map_to_list.
Qed.

Lemma fresh_ptr_fresh {V} (h : gmap Z V) : h !! fresh_ptr h = None.
Proof.
  destruct (h !! fresh_ptr h) eqn:E; [|done].
  assert (fresh_ptr h ≤ max_key h) by (apply max_key_ge; eauto).
  unfold fresh_ptr in *. lia.
Qed.

Lemma fresh_ptr_pos {V} (h : gmap Z V) : 0 < fresh_ptr h.
Proof. unfold fresh_ptr, max_key. pose proof (foldr_max_nonneg (map_to_list h).*1). lia. Qed.

(** Lists of slots are compared after mapping [Some] over every segment and
    reassociating to the right. *)
Ltac list_simp :=
  repeat (progress (rewrite ?fmap_app, ?fmap_cons, ?fmap_nil, <- ?app_assoc; cbn [app])).

Lemma insert_middle {A} (pre : list A) x y post (n : nat) :
  n = length pre → <[n := x]> (pre ++ y :: post) = pre ++ x :: post.
Proof.
  intros ->. replace (length pre) with (length pre + 0)%nat at 1 by lia.
  by rewrite insert_app_r.
Qed.

(** ** The monad *)

Lemma bind_Ret {A B} (m : M A) (k : A → M B) st a st' :
  m st = (Ret a, st') → bind m k st = k a st'.
Proof. unfold bind. by intros ->. Qed.

Lemma bind_Throw {A B} (m : M A) (k : A → M B) st e st' :
  m st = (Throw e, st') → bind m k st = (Throw e, st').
Proof. unfold bind. by intros ->. Qed.

Lemma bind_inv {A B} (m : M A) (k : A → M B) st o st' :
  bind m k st = (o, st') → finished o = true →
  (∃ a st1, m st = (Ret a, st1) ∧ k a st1 = (o, st')) ∨
  (∃ e, m st = (Throw e, st') ∧ o = Throw e).
Proof.
  unfold bind. destruct (m st) as [[a|e| |] st1]; intros H Hf.
  - left. eauto.
  - right. exists e. by inversion H.
  - inversion H; subst. done.
  - inversion H; subst. done.
Qed.

Lemma for_app (xs ys : list Z) (body : Z → M unit) st :
  for_ (xs ++ ys) body st = (for_ xs body ;; for_ ys body) st.
Proof.
  revert st. induction xs as [|x xs IH]; intros st; simpl; [done|].
  unfold bind. destruct (body x st) as [[[]|e| |] st1]; done.
Qed.

(** ** Members of [*this] *)

Section members.
Variables (h : gmap Z (list (option T))) (a : Z) (o : gmap Z vector) (tr : list event).
Variables (this : Z) (v : vector).
Hypothesis Hthis : o !! this = Some v.

Lemma get_vec_eq : get_vec this (State h a o tr) = (Ret v, State h a o tr).
Proof. unfold get_vec. simpl. by rewrite Hthis. Qed.

Lemma get_data_eq : get_data this (State h a o tr) = (Ret (data_ v), State h a o tr).
Proof. unfold get_data. by rewrite (bind_Ret _ _ _ _ _ get_vec_eq). Qed.

Lemma get_sz_eq : get_sz this (State h a o tr) = (Ret (sz_ v), State h a o tr).
Proof. unfold get_sz. by rewrite (bind_Ret _ _ _ _ _ get_vec_eq). Qed.

Lemma get_cap_eq : get_cap this (State h a o tr) = (Ret (cap_ v), State h a o tr).
Proof. unfold get_cap. by rewrite (bind_Ret _ _ _ _ _ get_vec_eq). Qed.

Lemma put_vec_eq w :
  put_vec this w (State h a o tr) = (Ret tt, State h a (<[this := w]> o) tr).
Proof. unfold put_vec. simpl. by rewrite Hthis. Qed.

Lemma set_data_eq p :
  set_data this p (State h a o tr)
  = (Ret tt, State h a (<[this := Vector p (sz_ v) (cap_ v)]> o) tr).
Proof. unfold set_data. rewrite (bind_Ret _ _ _ _ _ get_vec_eq). apply put_vec_eq. Qed.

Lemma set_sz_eq n :
  set_sz this n (State h a o tr)
  = (Ret tt, State h a (<[this := Vector (data_ v) n (cap_ v)]> o) tr).
Proof. unfold set_sz. rewrite (bind_Ret _ _ _ _ _ get_vec_eq). apply put_vec_eq. Qed.

Lemma set_cap_eq n :
  set_cap this n (State h a o tr)
  = (Ret tt, State h a (<[this := Vector (data_ v) (sz_ v) n]> o) tr).
Proof. unfold set_cap. rewrite (bind_Ret _ _ _ _ _ get_vec_eq). apply put_vec_eq. Qed.

End members.

(** ** Slots of a buffer *)

Section slots.
Variables (h : gmap Z (list (option T))) (a : Z) (o : gmap Z vector) (tr : list event).
Variables (p : Z) (blk : list (option T)).
Hypothesis Hp : h !! p = Some blk.

Lemma slot_nat (n : nat) : slot blk (Z.of_nat n) = blk !! n.
Proof. unfold slot. rewrite Nat2Z.id. destruct (Z.leb_spec 0 (Z.of_nat n)); [done|lia]. Qed.

Lemma load_eq (n : nat) x :
  blk !! n = Some (Some x) →
  load p (Z.of_nat n) (State h a o tr) = (Ret x, State h a o tr).
Proof. intros Hx. unfold load. simpl. by rewrite Hp, slot_nat, Hx. Qed.

Lemma construct_at_eq (n : nat) x :
  (n < length blk)%nat → copy_throws x = false →
  construct_at p (Z.of_nat n) x (State h a o tr)
  = (Ret tt, State (<[p := <[n := Some x]> blk]> h) a o
                   (tr ++ [EvConstruct p (Z.of_nat n) x])).
Proof.
  intros Hn Hx. unfold construct_at. simpl. rewrite Hp, slot_nat.
  destruct (lookup_lt_is_Some_2 blk n Hn) as [y ->].
  rewrite Hx. unfold store. simpl. by rewrite Hp, Nat2Z.id.
Qed.

Lemma construct_at_throw (n : nat) x :
  (n < length blk)%nat → copy_throws x = true →
  construct_at p (Z.of_nat n) x (State h a o tr) = (Throw elem_exn, State h a o tr).
Proof.
  intros Hn Hx. unfold construct_at. simpl. rewrite Hp, slot_nat.
  destruct (lookup_lt_is_Some_2 blk n Hn) as [y ->]. by rewrite Hx.
Qed.


Lemma destroy_at_eq (n : nat) old :
  blk !! n = Some (Some old) →
  destroy_at p (Z.of_nat n) (State h a o tr)
  = (Ret tt, State (<[p := <[n := None]> blk]> h) a o
                   (tr ++ [EvDestroy p (Z.of_nat n)])).
Proof.
  intros Hn. unfold destroy_at. simpl. rewrite Hp, slot_nat, Hn.
  unfold store. simpl. by rewrite Hp, Nat2Z.id.
Qed.


End slots.

(** ** Loops over the slots of a buffer *)

Lemma copy_prefix_length l : (length (copy_prefix l) ≤ length l)%nat.
Proof. induction l as [|x l IH]; simpl; [lia|]. destruct (copy_throws x); simpl; lia. Qed.

Lemma copy_prefix_all l :
  (∀ x, x ∈ l → copy_throws x = false) → copy_prefix l = l.
Proof.
  induction l as [|x l IH]; intros H; simpl; [done|].
  rewrite (H x) by left. f_equal. apply IH. intros y Hy. apply H. by right.
Qed.

Lemma copy_prefix_throws l :
  (length (copy_prefix l) < length l)%nat →
  ∃ x, l !! length (copy_prefix l) = Some x ∧ copy_throws x = true.
Proof.
  induction l as [|x l IH]; simpl; [lia|].
  destruct (copy_throws x) eqn:E; simpl; [eauto|].
  intros H. apply IH. lia.
Qed.

Lemma copy_prefix_prefix l : copy_prefix l = take (length (copy_prefix l)) l.
Proof.
  induction l as [|x l IH]; simpl; [done|].
  destruct (copy_throws x); simpl; [done|]. by f_equal.
Qed.

(** The loop of the [try] blocks: copy-construct [src[i]] into [dst[i]]. *)
Lemma copy_loop_eq (src dst : Z) (l : list T) :
  ∀ (off : nat) spre spost dpre drest h a o tr,
  src ≠ dst → length spre = off → length dpre = off →
  (length l ≤ length drest)%nat →
  h !! src = Some (spre ++ (Some <$> l) ++ spost) →
  h !! dst = Some (dpre ++ drest) →
  try_for (seqZ (Z.of_nat off) (Z.of_nat (length l)))
          (λ i, let! x := load src i in construct_at dst i x) (State h a o tr)
  = (Ret (if decide (length (copy_prefix l) = length l) then None
          else Some (Z.of_nat (off + length (copy_prefix l)), elem_exn)),
     State (<[dst := dpre ++ (Some <$> copy_prefix l)
                          ++ drop (length (copy_prefix l)) drest]> h) a o
           (tr ++ zip_with (EvConstruct dst)
                    (seqZ (Z.of_nat off) (Z.of_nat (length (copy_prefix l))))
                    (copy_prefix l))).
Proof.
  induction l as [|x l IH]; intros off spre spost dpre drest h a o tr Hne Hs Hd Hlen Hsrc Hdst.
  - simpl. unfold ret. by rewrite drop_0, insert_id, app_nil_r.
  - destruct drest as [|y drest]; [simpl in Hlen; lia|].
    rewrite seqZ_cons by (simpl; lia).
    change (length (x :: l)) with (S (length l)).
    replace (Z.pred (Z.of_nat (S (length l)))) with (Z.of_nat (length l)) by lia.
    replace (Z.succ (Z.of_nat off)) with (Z.of_nat (S off)) by lia.
    assert (Hx : (spre ++ (Some <$> x :: l) ++ spost) !! off = Some (Some x)).
    { rewrite fmap_cons. simpl. by apply list_lookup_middle. }
    cbn [try_for].
    rewrite (bind_Ret _ _ _ _ _ (load_eq h a o tr src _ Hsrc off x Hx)).
    assert (Hoff : (off < length (dpre ++ y :: drest))%nat)
      by (rewrite length_app; simpl; lia).
    simpl copy_prefix. destruct (copy_throws x) eqn:Ex.
    + rewrite (construct_at_throw h a o tr dst _ Hdst off x Hoff Ex).
      simpl. by rewrite insert_id, app_nil_r, Nat.add_0_r.
    + rewrite (construct_at_eq h a o tr dst _ Hdst off x Hoff Ex).
      replace (<[off:=Some x]> (dpre ++ y :: drest))
        with ((dpre ++ [Some x]) ++ drest).
      2:{ rewrite <- Hd. replace (length dpre) with (length dpre + 0)%nat at 1 by lia.
          rewrite insert_app_r. simpl. by rewrite <- app_assoc. }
      erewrite (IH (S off) (spre ++ [Some x]) spost (dpre ++ [Some x]) drest); cycle 1.
      * done.
      * rewrite length_app. simpl. lia.
      * rewrite length_app. simpl. lia.
      * simpl in Hlen. lia.
      * rewrite lookup_insert_ne by done. rewrite Hsrc.
        rewrite fmap_cons, <- app_assoc. done.
      * by rewrite lookup_insert_eq.
      * rewrite insert_insert_eq. simpl length.
        rewrite (seqZ_cons _ (Z.of_nat (S _))) by lia.
        replace (Z.pred (Z.of_nat (S (length (copy_prefix l)))))
          with (Z.of_nat (length (copy_prefix l))) by lia.
        replace (Z.succ (Z.of_nat off)) with (Z.of_nat (S off)) by lia.
        simpl. rewrite <- !app_assoc. simpl.
        replace (off + S (length (copy_prefix l)))%nat
          with (S (off + length (copy_prefix l))) by lia.
        destruct (decide (length (copy_prefix l) = length l));
          [rewrite decide_True by lia | rewrite decide_False by lia]; done.
Qed.

(** Destroying the elements of a range of slots in ascending order. *)
Lemma destroy_loop_eq (p : Z) (l : list T) :
  ∀ (off : nat) pre post h a o tr,
  length pre = off →
  h !! p = Some (pre ++ (Some <$> l) ++ post) →
  for_ (seqZ (Z.of_nat off) (Z.of_nat (length l))) (λ j, destroy_at p j) (State h a o tr)
  = (Ret tt,
     State (<[p := pre ++ replicate (length l) None ++ post]> h) a o
           (tr ++ (EvDestroy p <$> seqZ (Z.of_nat off) (Z.of_nat (length l))))).
Proof.
  induction l as [|x l IH]; intros off pre post h a o tr Hpre Hp.
  - simpl. unfold ret. by rewrite insert_id, app_nil_r.
  - rewrite seqZ_cons by (simpl; lia).
    change (length (x :: l)) with (S (length l)).
    replace (Z.pred (Z.of_nat (S (length l)))) with (Z.of_nat (length l)) by lia.
    replace (Z.succ (Z.of_nat off)) with (Z.of_nat (S off)) by lia.
    assert (Hx : (pre ++ (Some <$> x :: l) ++ post) !! off = Some (Some x)).
    { rewrite fmap_cons. simpl. by apply list_lookup_middle. }
    cbn [for_].
    rewrite (bind_Ret _ _ _ _ _ (destroy_at_eq h a o tr p _ Hp off x Hx)).
    replace (<[off:=None]> (pre ++ (Some <$> x :: l) ++ post))
      with ((pre ++ [None]) ++ (Some <$> l) ++ post).
    2:{ rewrite <- Hpre. replace (length pre) with (length pre + 0)%nat at 1 by lia.
        rewrite insert_app_r. simpl. by rewrite <- app_assoc. }
    erewrite (IH (S off) (pre ++ [None]) post); cycle 1.
    + rewrite length_app. simpl. lia.
    + by rewrite lookup_insert_eq.
    + rewrite insert_insert_eq. simpl. by rewrite <- !app_assoc.
Qed.

(** ** The allocation functions *)

Lemma operator_new_eq h a o tr bytes :
  bytes ≤ a → bytes ≤ PTRDIFF_MAX →
  operator_new bytes (State h a o tr)
  = (Ret (fresh_ptr h),
     State (<[fresh_ptr h := replicate (Z.to_nat (bytes / sizeof_T)) None]> h)
           (a - bytes) o (tr ++ [EvNew (fresh_ptr h) bytes])).
Proof.
  intros H1 H2. unfold operator_new. simpl.
  destruct (Z.leb_spec bytes a); [|lia].
  destruct (Z.leb_spec bytes PTRDIFF_MAX); [|lia]. done.
Qed.

Lemma operator_new_fail h a o tr bytes :
  ¬ (bytes ≤ a ∧ bytes ≤ PTRDIFF_MAX) →
  operator_new bytes (State h a o tr) = (Throw bad_alloc, State h a o tr).
Proof.
  intros H. unfold operator_new. simpl.
  destruct (Z.leb_spec bytes a); [|done].
  destruct (Z.leb_spec bytes PTRDIFF_MAX); [lia|done].
Qed.

Lemma operator_delete_eq h a o tr p blk :
  p ≠ 0 → h !! p = Some blk →
  operator_delete p (State h a o tr)
  = (Ret tt, State (delete p h) (a + Z.of_nat (length blk) * sizeof_T) o
                   (tr ++ [EvDelete p])).
Proof.
  intros Hp Hb. unfold operator_delete. simpl.
  destruct (Z.eqb_spec p 0); [done|]. by rewrite Hb.
Qed.

Lemma operator_delete_null st : operator_delete 0 st = (Ret tt, st).
Proof. done. Qed.

(** ** The growth policy *)

Lemma grow_doubles fuel : ∀ c need,
  1 ≤ c → need ≤ 2 ^ 63 → need ≤ c * 2 ^ Z.of_nat fuel →
  ∃ k : nat, grow fuel c need = Some (c * 2 ^ Z.of_nat k) ∧
             need ≤ c * 2 ^ Z.of_nat k ∧
             ∀ j : nat, (j < k)%nat → c * 2 ^ Z.of_nat j < need.
Proof.
  induction fuel as [|fuel IH]; intros c need Hc Hneed Hfuel.
  - exists 0%nat. simpl in *. destruct (Z.ltb_spec c need); [lia|].
    split; [f_equal; lia|]. split; [lia|]. intros j Hj. lia.
  - simpl. destruct (Z.ltb_spec c need) as [Hlt|Hge].
    + rewrite Z.shiftl_mul_pow2 by lia. rewrite wrap_small by lia.
      destruct (IH (c * 2 ^ 1) need) as (k & Hk & Hk1 & Hk2); [lia|lia| |].
      { rewrite Nat2Z.inj_succ, Z.pow_succ_r in Hfuel by lia. lia. }
      exists (S k). rewrite Nat2Z.inj_succ, Z.pow_succ_r by lia.
      replace (c * (2 * 2 ^ Z.of_nat k)) with (c * 2 ^ 1 * 2 ^ Z.of_nat k) by lia.
      split; [done|]. split; [done|].
      intros [|j] Hj; [simpl; lia|].
      rewrite Nat2Z.inj_succ, Z.pow_succ_r by lia.
      specialize (Hk2 j). lia.
    + exists 0%nat. split; [f_equal; simpl; lia|]. split; [simpl; lia|].
      intros j Hj. lia.
Qed.

(** The new capacity is [max(1, cap)] doubled until it reaches [need]. *)
Lemma new_capacity_doubles cap need :
  0 ≤ cap → need ≤ 2 ^ 63 →
  ∃ k : nat, new_capacity cap need = Some (Z.max 1 cap * 2 ^ Z.of_nat k) ∧
             need ≤ Z.max 1 cap * 2 ^ Z.of_nat k ∧
             ∀ j : nat, (j < k)%nat → Z.max 1 cap * 2 ^ Z.of_nat j < need.
Proof.
  intros Hcap Hneed. unfold new_capacity.
  replace (if cap =? 0 then 1 else cap) with (Z.max 1 cap)
    by (destruct (Z.eqb_spec cap 0); lia).
  apply grow_doubles; [lia|done|].
  assert (2 ^ 63 ≤ 2 ^ Z.of_nat 64) by (by vm_compute).
  nia.
Qed.

(** Growth by one element: the capacity doubles, from 0 it becomes 1. *)
Lemma new_capacity_succ cap :
  0 ≤ cap < 2 ^ 63 →
  new_capacity cap (cap + 1) = Some (if decide (cap = 0) then 1 else 2 * cap).
Proof.
  intros Hcap. unfold new_capacity.
  destruct (Z.eqb_spec cap 0) as [->|Hne]; [done|].
  rewrite decide_False by done.
  change 64%nat with (S 63). cbn [grow].
  destruct (Z.ltb_spec cap (cap + 1)); [|lia].
  rewrite Z.shiftl_mul_pow2 by lia. rewrite wrap_small by lia.
  destruct (Z.ltb_spec (cap * 2 ^ 1) (cap + 1)); [lia|]. f_equal. lia.
Qed.

Lemma grow_zero fuel need : 0 < need → grow fuel 0 need = None.
Proof.
  intros Hneed. induction fuel as [|fuel IH]; simpl.
  - by destruct (Z.ltb_spec 0 need); [|lia].
  - destruct (Z.ltb_spec 0 need); [|lia]. exact IH.
Qed.

Lemma grow_stuck fuel : ∀ (j : nat) c need more,
  (j + fuel = 64)%nat → 0 ≤ c < 2 ^ 64 → (2 ^ Z.of_nat j | c) →
  grow fuel c need = None → grow (fuel + more) c need = None.
Proof.
  induction fuel as [|fuel IH]; intros j c need more Hj Hc Hdiv Hgrow.
  - assert (j = 64%nat) as -> by lia.
    destruct Hdiv as [q Hq].
    assert (c = 0) as ->.
    { change (2 ^ Z.of_nat 64) with (2 ^ 64) in Hq. nia. }
    simpl in Hgrow. destruct (Z.ltb_spec 0 need); [|done].
    by apply grow_zero.
  - simpl in *. destruct (Z.ltb_spec c need); [|done].
    apply (IH (S j)); [lia| | |done].
    + apply Z.mod_pos_bound. lia.
    + unfold wrap. rewrite Z.shiftl_mul_pow2 by lia.
      destruct Hdiv as [q Hq].
      rewrite Z.mod_eq by lia.
      apply Z.divide_sub_r.
      * exists q. rewrite Nat2Z.inj_succ, Z.pow_succ_r by lia. lia.
      * apply Z.divide_mul_l.
        exists (2 ^ (64 - Z.of_nat (S j))).
        rewrite <- Z.pow_add_r by lia. f_equal. lia.
Qed.

(** The bound of 64 iterations loses nothing: a loop that has not stopped
    after 64 shifts does not stop after any number of further ones. *)
Lemma new_capacity_diverges cap need more :
  0 ≤ cap < 2 ^ 64 → new_capacity cap need = None →
  grow (64 + more) (if cap =? 0 then 1 else cap) need = None.
Proof.
  intros Hcap Hnone. apply (grow_stuck 64 0); [done| | |done].
  - destruct (Z.eqb_spec cap 0); lia.
  - apply Z.divide_1_l.
Qed.

(** ** [ensure_capacity] *)

Tactic Notation "exec" open_constr(H) :=
  let E := fresh "E" in
  pose proof H as E; unfold bind in E; erewrite E; clear E; cbv beta iota.

Lemma ensure_capacity_enough st this v need :
  objs st !! this = Some v → need ≤ cap_ v →
  ensure_capacity this need st = (Ret tt, st).
Proof.
  destruct st as [h a o tr]. simpl. intros Hv Hneed.
  unfold ensure_capacity, bind. exec (get_cap_eq h a o tr this v Hv).
  by destruct (Z.leb_spec need (cap_ v)); [|lia].
Qed.

Section grow.
Hypothesis sizeof_T_pos : 1 ≤ sizeof_T.
Variables (h : gmap Z (list (option T))) (a : Z) (o : gmap Z vector) (tr : list event).
Variables (this p : Z) (l : list T) (rest : list (option T)).
Variables (need ncap : Z).
Hypothesis Hholds : holds (State h a o tr) this p l rest.
Hypothesis Hneed : Z.of_nat (length l + length rest) < need ≤ ncap.
Hypothesis Hncap : new_capacity (Z.of_nat (length l + length rest)) need = Some ncap.
Hypothesis Hbytes : ncap * sizeof_T < 2 ^ 64.

Lemma ensure_capacity_bad_alloc :
  ¬ (ncap * sizeof_T ≤ a ∧ ncap * sizeof_T ≤ PTRDIFF_MAX) →
  ensure_capacity this need (State h a o tr) = (Throw bad_alloc, State h a o tr).
Proof.
  intros Hno. destruct Hholds as (Hv & _ & _).
  unfold ensure_capacity, bind. exec (get_cap_eq h a o tr this _ Hv).
  cbn [cap_ sz_ data_]. destruct (Z.leb_spec need (Z.of_nat (length l + length rest))); [lia|].
  rewrite Hncap. unfold ret, raw_alloc. rewrite wrap_small by nia.
  by rewrite operator_new_fail.
Qed.

Let nd := fresh_ptr h.

(** When a copy throws: what has been constructed in the new buffer is
    destroyed, the new buffer is released, and nothing else has changed. *)
Lemma ensure_capacity_copy_throws :
  ncap * sizeof_T ≤ a → ncap * sizeof_T ≤ PTRDIFF_MAX →
  length (copy_prefix l) ≠ length l →
  ensure_capacity this need (State h a o tr)
  = (Throw elem_exn,
     State h a o
       (tr ++ [EvNew nd (ncap * sizeof_T)]
           ++ zip_with (EvConstruct nd) (seqZ 0 (Z.of_nat (length (copy_prefix l))))
                       (copy_prefix l)
           ++ (EvDestroy nd <$> seqZ 0 (Z.of_nat (length (copy_prefix l))))
           ++ [EvDelete nd])).
Proof.
  intros Ha Hmax Hthrow. destruct Hholds as (Hv & Hcap & Hbuf).
  assert (Hfresh : h !! nd = None) by apply fresh_ptr_fresh.
  assert (Hnd : nd ≠ 0) by (pose proof (fresh_ptr_pos h); unfold nd; lia).
  destruct (decide (p = 0)) as [->|Hp].
  { destruct Hbuf as [-> _]. done. }
  destruct Hbuf as [Hpos Hblk]. simpl in Hblk.
  unfold ensure_capacity, bind. exec (get_cap_eq h a o tr this _ Hv).
  cbn [cap_ sz_ data_]. destruct (Z.leb_spec need (Z.of_nat (length l + length rest))); [lia|].
  rewrite Hncap. unfold ret, raw_alloc. rewrite wrap_small by nia.
  rewrite operator_new_eq by done. fold nd.
  rewrite Z.div_mul by lia.
  exec (get_sz_eq _ _ o _ this _ Hv). exec (get_data_eq _ _ o _ this _ Hv).
  cbn [cap_ sz_ data_].
  exec (copy_loop_eq p nd l 0 [] rest [] (replicate (Z.to_nat ncap) None)).
  2:{ intros ->. congruence. }
  2,3: done.
  2:{ rewrite length_replicate. lia. }
  2:{ rewrite lookup_insert_ne by congruence. done. }
  2:{ by rewrite lookup_insert_eq. }
  rewrite decide_False by done. simpl app.
  rewrite insert_insert_eq.
  exec (destroy_loop_eq nd (copy_prefix l) 0 []
          (drop (length (copy_prefix l)) (replicate (Z.to_nat ncap) None))).
  2: done.
  2:{ by rewrite lookup_insert_eq. }
  rewrite insert_insert_eq. unfold raw_free.
  erewrite operator_delete_eq; [|done|by rewrite lookup_insert_eq].
  unfold throw. rewrite delete_insert_eq, delete_id by done.
  f_equal. f_equal.
  - simpl. rewrite length_app, !length_replicate, length_drop, length_replicate.
    pose proof (copy_prefix_length l). lia.
  - rewrite <- !app_assoc. done.
Qed.

(** When no copy throws: the elements are copied in index order, the old
    elements destroyed in index order, the old buffer released, the new one
    adopted with the new capacity. *)
Lemma ensure_capacity_grow :
  ncap * sizeof_T ≤ a → ncap * sizeof_T ≤ PTRDIFF_MAX →
  copy_prefix l = l →
  ensure_capacity this need (State h a o tr)
  = (Ret tt,
     State (released p (<[nd := (Some <$> l)
                               ++ replicate (Z.to_nat ncap - length l) None]> h))
           (a - ncap * sizeof_T + Z.of_nat (length l + length rest) * sizeof_T)
           (<[this := Vector nd (Z.of_nat (length l)) ncap]> o)
           (tr ++ [EvNew nd (ncap * sizeof_T)]
               ++ zip_with (EvConstruct nd) (seqZ 0 (Z.of_nat (length l))) l
               ++ (EvDestroy p <$> seqZ 0 (Z.of_nat (length l)))
               ++ release_events p)).
Proof.
  intros Ha Hmax Hall. destruct Hholds as (Hv & Hcap & Hbuf).
  assert (Hfresh : h !! nd = None) by apply fresh_ptr_fresh.
  assert (Hnd : nd ≠ 0) by (pose proof (fresh_ptr_pos h); unfold nd; lia).
  unfold ensure_capacity, bind. exec (get_cap_eq h a o tr this _ Hv).
  cbn [cap_ sz_ data_]. destruct (Z.leb_spec need (Z.of_nat (length l + length rest))); [lia|].
  rewrite Hncap. unfold ret, raw_alloc. rewrite wrap_small by nia.
  rewrite operator_new_eq by done. fold nd.
  rewrite Z.div_mul by lia.
  exec (get_sz_eq _ _ o _ this _ Hv). exec (get_data_eq _ _ o _ this _ Hv).
  cbn [cap_ sz_ data_]. unfold released, release_events.
  destruct (decide (p = 0)) as [->|Hp].
  - destruct Hbuf as [-> ->]. simpl. simpl in Hv.
    exec (set_data_eq _ _ o _ this _ Hv).
    erewrite set_cap_eq by (by rewrite lookup_insert_eq).
    rewrite insert_insert_eq, Nat.sub_0_r. simpl.
    do 2 f_equal. lia.
  - destruct Hbuf as [Hpos Hblk]. simpl in Hblk.
    exec (copy_loop_eq p nd l 0 [] rest [] (replicate (Z.to_nat ncap) None)).
    2:{ intros ->. congruence. }
    2,3: done.
    2:{ rewrite length_replicate. lia. }
    2:{ rewrite lookup_insert_ne by congruence. done. }
    2:{ by rewrite lookup_insert_eq. }
    rewrite Hall, decide_True by done. simpl app.
    rewrite insert_insert_eq, drop_replicate.
    exec (destroy_loop_eq p l 0 [] rest).
    2: done.
    2:{ rewrite lookup_insert_ne by congruence. done. }
    unfold raw_free.
    erewrite operator_delete_eq; [|done|by rewrite lookup_insert_eq].
    exec (set_data_eq _ _ o _ this _ Hv).
    erewrite set_cap_eq by (by rewrite lookup_insert_eq).
    rewrite insert_insert_eq, delete_insert_eq. simpl.
    rewrite length_app, length_replicate.
    do 2 f_equal. rewrite <- !app_assoc. done.
Qed.

End grow.

(** ** The shifts of [erase] and [insert], for assignments that do not throw *)



Section shifts.
Hypothesis assign_nothrow : ∀ old src, assign_throws old src = false.



End shifts.

(** ** [insert], [push_back], [erase] when no element operation throws *)

Lemma holds_cap_bound st this p l rest :
  1 ≤ sizeof_T → holds st this p l rest →
  Z.of_nat (length l + length rest) ≤ PTRDIFF_MAX.
Proof. intros Hs (_ & Hcap & _). nia. Qed.

(** The elements of [holds] are the ones read off the buffer. *)
Lemma holds_contents st this p l rest :
  holds st this p l rest → contents st this = Some l.
Proof.
  intros (Hv & _ & Hbuf). unfold contents. rewrite Hv. simpl.
  destruct (decide (p = 0)) as [Hp|Hp].
  - by destruct Hbuf as [-> _].
  - destruct Hbuf as [_ ->]. simpl.
    rewrite Nat2Z.id, take_app_length' by (by rewrite length_fmap).
    apply mapM_Some. apply Forall2_fmap_l. by apply Forall_Forall2_diag, Forall_true.
Qed.

Section nothrow.
Hypothesis sizeof_T_pos : 1 ≤ sizeof_T.
Hypothesis copy_nothrow : ∀ x, copy_throws x = false.
Hypothesis assign_nothrow : ∀ old src, assign_throws old src = false.


End nothrow.

(** ** [ensure_capacity(sz_ + 1)], all cases *)

Section grow_by_one.
Hypothesis sizeof_T_range : 1 ≤ sizeof_T < 2 ^ 64.
Variables (h : gmap Z (list (option T))) (a : Z) (o : gmap Z vector) (tr : list event).
Variables (this p : Z) (l : list T) (rest : list (option T)).
Hypothesis Hholds : holds (State h a o tr) this p l rest.

Let need := wrap (Z.of_nat (length l) + 1).
Let ncap := double_cap (Z.of_nat (length l)).
Let nd := fresh_ptr h.

Lemma holds_sz_bound : Z.of_nat (length l + length rest) < 2 ^ 63.
Proof.
  destruct Hholds as (_ & Hcap & _). unfold PTRDIFF_MAX in Hcap. nia.
Qed.

Lemma need_eq : need = Z.of_nat (length l) + 1.
Proof. pose proof holds_sz_bound. unfold need. rewrite wrap_small; lia. Qed.

Lemma ensure_capacity_room :
  rest ≠ [] →
  ensure_capacity this need (State h a o tr) = (Ret tt, State h a o tr).
Proof.
  intros Hrest. destruct Hholds as (Hv & _).
  eapply ensure_capacity_enough; [exact Hv|]. rewrite need_eq. simpl.
  destruct rest; [done|]. simpl. lia.
Qed.

Lemma full_new_capacity :
  rest = [] →
  new_capacity (Z.of_nat (length l + length rest)) need = Some ncap ∧
  Z.of_nat (length l + length rest) < need ≤ ncap ∧ ncap * sizeof_T < 2 ^ 64.
Proof.
  pose proof holds_sz_bound as Hb. pose proof need_eq as Hneq.
  pose proof Hholds as (_ & Hcap & _). unfold PTRDIFF_MAX in Hcap.
  intros Hrest. rewrite Hrest in *.
  simpl length in *. rewrite Nat.add_0_r in *.
  rewrite Hneq. unfold ncap, double_cap.
  rewrite new_capacity_succ by lia.
  destruct (decide (Z.of_nat (length l) = 0)) as [->|]; (split; [done|]; lia).
Qed.

Lemma ensure_capacity_full_bad_alloc :
  rest = [] → ¬ (ncap * sizeof_T ≤ a ∧ ncap * sizeof_T ≤ PTRDIFF_MAX) →
  ensure_capacity this need (State h a o tr) = (Throw bad_alloc, State h a o tr).
Proof.
  intros Hrest Hno. destruct (full_new_capacity Hrest) as (Hn & Hneed & Hb).
  eapply ensure_capacity_bad_alloc; [lia|exact Hholds|exact Hneed|exact Hn|exact Hb|exact Hno].
Qed.

Lemma ensure_capacity_full_copy_throws :
  rest = [] → ncap * sizeof_T ≤ a → ncap * sizeof_T ≤ PTRDIFF_MAX →
  copy_prefix l ≠ l →
  ensure_capacity this need (State h a o tr)
  = (Throw elem_exn, State h a o (tr ++ failed_grow_events nd l ncap)).
Proof.
  intros Hrest Ha Hmax Hthrow. destruct (full_new_capacity Hrest) as (Hn & Hneed & Hb).
  erewrite (ensure_capacity_copy_throws (proj1 sizeof_T_range) _ _ _ _ _ _ _ _ _ _
              Hholds Hneed Hn Hb Ha Hmax); [done|].
  intros Hlen. apply Hthrow. rewrite copy_prefix_prefix, Hlen. apply firstn_all.
Qed.

Lemma ensure_capacity_full_grow :
  rest = [] → ncap * sizeof_T ≤ a → ncap * sizeof_T ≤ PTRDIFF_MAX →
  copy_prefix l = l →
  let st1 := State (released p (<[nd := (Some <$> l)
                                   ++ replicate (Z.to_nat ncap - length l) None]> h))
                   (a - ncap * sizeof_T + Z.of_nat (length l) * sizeof_T)
                   (<[this := Vector nd (Z.of_nat (length l)) ncap]> o)
                   (tr ++ grow_events p nd l ncap) in
  ensure_capacity this need (State h a o tr) = (Ret tt, st1) ∧
  holds st1 this nd l (None :: replicate (Z.to_nat ncap - length l - 1) None).
Proof.
  intros Hrest Ha Hmax Hall st1. destruct (full_new_capacity Hrest) as (Hn & Hneed & Hb).
  split.
  - unfold st1.
    erewrite (ensure_capacity_grow (proj1 sizeof_T_range) _ _ _ _ _ _ _ _ _ _
                Hholds Hneed Hn Hb Ha Hmax Hall).
    rewrite Hrest. simpl. by rewrite Nat.add_0_r.
  - pose proof need_eq as Hneq. pose proof Hholds as (_ & _ & Hbuf).
    rewrite Hrest in *. simpl in Hneed. rewrite Hneq in Hneed.
    assert (Hnd : nd ≠ 0) by (pose proof (fresh_ptr_pos h); unfold nd; lia).
    assert (Hfresh : h !! nd = None) by apply fresh_ptr_fresh.
    assert (Hrep : replicate (Z.to_nat ncap - length l) (@None T)
                   = None :: replicate (Z.to_nat ncap - length l - 1) None).
    { replace (Z.to_nat ncap - length l)%nat
        with (S (Z.to_nat ncap - length l - 1)) at 1 by lia. done. }
    unfold holds, st1. simpl. rewrite length_replicate.
    replace (Z.of_nat (length l + S (Z.to_nat ncap - length l - 1))) with ncap by lia.
    split; [by rewrite lookup_insert_eq|]. split; [done|].
    rewrite decide_False by done. split; [lia|].
    rewrite <- Hrep. unfold released.
    destruct (decide (p = 0)); [by rewrite lookup_insert_eq|].
    rewrite lookup_delete_ne, lookup_insert_eq; [done|].
    intros Heq. destruct Hbuf as [_ Hp]. simpl in Hp.
    rewrite Heq in Hp. congruence.
Qed.

End grow_by_one.

(** ** [insert(ind, value)] *)


Lemma insert_idx_out_of_bound st this v0 ind value :
  objs st !! this = Some v0 → sz_ v0 < ind →
  insert_idx this ind value st = (Throw index_out_of_bound, st).
Proof.
  destruct st as [h a o tr]. simpl. intros Hv Hind.
  unfold insert_idx, bind. exec (get_sz_eq h a o tr this _ Hv).
  by destruct (Z.ltb_spec (sz_ v0) ind); [|lia].
Qed.

Lemma length_inserted (l : list T) (n : nat) value :
  (n ≤ length l)%nat → length (take n l ++ value :: drop n l) = S (length l).
Proof. intros Hn. rewrite length_app, length_take. simpl. rewrite length_drop. lia. Qed.

Lemma holds_inserted h1 a1 o1 tr1 this p1 l r0 rest1 (n : nat) value tr2 :
  holds (State h1 a1 o1 tr1) this p1 l (r0 :: rest1) → (n ≤ length l)%nat →
  holds (State (<[p1 := (Some <$> take n l ++ value :: drop n l) ++ rest1]> h1) a1
               (<[this := Vector p1 (Z.of_nat (S (length l)))
                                 (Z.of_nat (length l + S (length rest1)))]> o1) tr2)
        this p1 (take n l ++ value :: drop n l) rest1.
Proof.
  intros (Hv & Hcap & Hbuf) Hn. unfold holds. simpl in *.
  rewrite length_inserted by done.
  replace (S (length l) + length rest1)%nat with (length l + S (length rest1))%nat by lia.
  split; [by rewrite lookup_insert_eq|]. split; [done|].
  destruct (decide (p1 = 0)); [by destruct Hbuf|].
  split; [lia|]. by rewrite lookup_insert_eq.
Qed.

Section insert.
Hypothesis sizeof_T_range : 1 ≤ sizeof_T < 2 ^ 64.
Hypothesis copy_nothrow : ∀ x, copy_throws x = false.
Hypothesis assign_nothrow : ∀ old src, assign_throws old src = false.

Lemma copy_prefix_nothrow l : copy_prefix l = l.
Proof. apply copy_prefix_all. auto. Qed.



End insert.

(** ** [erase(ind)] *)







Lemma copy_prefix_first_throw l : ∀ (i : nat) x,
  l !! i = Some x → copy_throws x = true →
  (∀ y, y ∈ take i l → copy_throws y = false) →
  copy_prefix l = take i l.
Proof.
  induction l as [|z l IH]; intros i x Hx Hthrow Hbefore; [done|].
  destruct i as [|i]; simpl in *.
  - inversion Hx; subst. by rewrite Hthrow.
  - rewrite (Hbefore z) by left. f_equal.
    apply (IH i x); [done|done|]. intros y Hy. apply Hbefore. by right.
Qed.

(** C3: for every sequence needing capacity [need > cap], the new capacity
    is [max(1, cap)] doubled until it is [>= need], and the elements are
    copy-constructed into the fresh buffer in index order; if the [i]-th copy
    fails, slots [0, i) of the new buffer are destroyed, the new buffer is
    released, the failure is rethrown, and the buffer, size and capacity of
    the sequence are exactly as before the call. *)
Theorem C3_ensure_capacity st this p l rest need :
  1 ≤ sizeof_T →
  holds st this p l rest →
  Z.of_nat (length l + length rest) < need ≤ 2 ^ 63 →
  ∃ (k : nat) (ncap : Z),
    new_capacity (Z.of_nat (length l + length rest)) need = Some ncap ∧
    ncap = Z.max 1 (Z.of_nat (length l + length rest)) * 2 ^ Z.of_nat k ∧
    need ≤ ncap ∧
    (∀ j : nat, (j < k)%nat →
       Z.max 1 (Z.of_nat (length l + length rest)) * 2 ^ Z.of_nat j < need) ∧
    (ncap * sizeof_T ≤ Z.min (avail st) PTRDIFF_MAX →
     let nd := fresh_ptr (heap st) in
     (copy_prefix l = l →
      ∃ st', ensure_capacity this need st = (Ret tt, st') ∧
             objs st' !! this = Some (Vector nd (Z.of_nat (length l)) ncap) ∧
             trace st' = trace st ++ grow_events p nd l ncap) ∧
     (∀ (i : nat) x,
        l !! i = Some x → copy_throws x = true →
        (∀ y, y ∈ take i l → copy_throws y = false) →
        let st' := State (heap st) (avail st) (objs st)
                     (trace st ++ [EvNew nd (ncap * sizeof_T)]
                        ++ zip_with (EvConstruct nd) (seqZ 0 (Z.of_nat i)) (take i l)
                        ++ (EvDestroy nd <$> seqZ 0 (Z.of_nat i))
                        ++ [EvDelete nd]) in
        ensure_capacity this need st = (Throw elem_exn, st') ∧
        holds st' this p l rest)).
Proof.
  intros Hsize Hholds Hneed.
  destruct (new_capacity_doubles (Z.of_nat (length l + length rest)) need)
    as (k & Hk & Hge & Hmin); [lia|lia|].
  exists k, (Z.max 1 (Z.of_nat (length l + length rest)) * 2 ^ Z.of_nat k).
  split; [done|]. split; [done|]. split; [done|]. split; [done|].
  set (ncap := Z.max 1 (Z.of_nat (length l + length rest)) * 2 ^ Z.of_nat k) in *.
  destruct st as [h a o tr]. simpl. intros Hmem.
  assert (Hb : ncap * sizeof_T < 2 ^ 64) by (unfold PTRDIFF_MAX in Hmem; lia).
  assert (Hn : Z.of_nat (length l + length rest) < need ≤ ncap) by lia.
  split.
  - intros Hall. eexists. split.
    + eapply ensure_capacity_grow; try done; lia.
    + simpl. split; [by rewrite lookup_insert_eq|done].
  - intros i x Hx Hthrow Hbefore.
    pose proof (copy_prefix_first_throw l i x Hx Hthrow Hbefore) as Hcp.
    assert (Hi : (i < length l)%nat) by (by eapply lookup_lt_Some).
    split.
    + erewrite ensure_capacity_copy_throws; try done; try lia.
      * rewrite Hcp, length_take. by replace (i `min` length l)%nat with i by lia.
      * rewrite Hcp, length_take. lia.
    + destruct Hholds as (Hv & Hcap & Hbuf). done.
Qed.

(** C9: for every sequence and every iterator whose owner is this sequence
    but whose index is strictly greater than [sz], [insert] through that
    iterator fails with [index_out_of_bound] (not [invalid_iterator]) and
    leaves the sequence unchanged: the owner check passes and the call is
    delegated to the index-based [insert]. *)
Theorem C9_insert_it_past_end st this v0 pos value :
  objs st !! this = Some v0 →
  owner pos = this →
  sz_ v0 < idx pos →
  insert_it this pos value st = insert_idx this (idx pos) value st ∧
  insert_it this pos value st = (Throw index_out_of_bound, st).
Proof.
  intros Hv Hown Hidx. unfold insert_it. rewrite Hown, Z.eqb_refl. simpl.
  split; [done|]. by eapply insert_idx_out_of_bound.
Qed.

Lemma assign_self st this : assign this this st = (Ret this, st).
Proof. unfold assign. by rewrite Z.eqb_refl. Qed.

(** C10: for every sequence [v], the self-assignment [v = v] is a no-op: no
    element is copied or destroyed (the trace does not grow), and the buffer,
    the size, the capacity and every element are unchanged. *)
Theorem C10_self_assign st this :
  assign this this st = (Ret this, st).
Proof. unfold assign. by rewrite Z.eqb_refl. Qed.


(** ** Which exceptions can be thrown *)

Section only_throws.
Variable P : exn → Prop.

Lemma ot_ret {A} (a : A) : only_throws P (ret a).
Proof. by intros st e st' [=]. Qed.

Lemma ot_diverge {A} : only_throws P (@diverge A).
Proof. by intros st e st' [=]. Qed.

Lemma ot_throw {A} e : P e → only_throws P (@throw A e).
Proof. intros He st e' st' [=]; by subst. Qed.

Lemma ot_bind_post {A B} (Q : A → Prop) (m : M A) (k : A → M B) :
  only_throws P m →
  (∀ st a st', m st = (Ret a, st') → Q a) →
  (∀ a, Q a → only_throws P (k a)) →
  only_throws P (bind m k).
Proof.
  intros Hm HQ Hk st e st'. unfold bind.
  destruct (m st) as [[a|e1| |] st1] eqn:E; intros [=]; subst.
  - eapply Hk; [by eapply HQ|done].
  - by eapply Hm.
Qed.

Lemma ot_bind {A B} (m : M A) (k : A → M B) :
  only_throws P m → (∀ a, only_throws P (k a)) → only_throws P (bind m k).
Proof. intros Hm Hk. apply (ot_bind_post (λ _, True)); auto. Qed.

Lemma ot_for ixs body :
  (∀ i, only_throws P (body i)) → only_throws P (for_ ixs body).
Proof.
  intros Hb. induction ixs as [|i ixs IH]; simpl; [apply ot_ret|].
  apply ot_bind; auto.
Qed.

Lemma ot_try_for ixs body : only_throws P (try_for ixs body).
Proof.
  induction ixs as [|i ixs IH]; intros st e st'; simpl; [by intros [=]|].
  destruct (body i st) as [[[]|e1| |] st1]; try by intros [=].
  apply IH.
Qed.

Lemma try_for_caught ixs body :
  (∀ i, only_throws P (body i)) →
  ∀ st i e st', try_for ixs body st = (Ret (Some (i, e)), st') → P e.
Proof.
  intros Hb. induction ixs as [|j ixs IH]; intros st i e st'; simpl; [by intros [=]|].
  destruct (body j st) as [[[]|e1| |] st1] eqn:E; try by intros [=].
  - apply IH.
  - intros [=]; subst. by eapply Hb.
Qed.

Lemma ot_get_vec this : only_throws P (get_vec this).
Proof. intros st e st'. unfold get_vec. by destruct (objs st !! this). Qed.

Lemma ot_put_vec this v : only_throws P (put_vec this v).
Proof. intros st e st'. unfold put_vec. by destruct (objs st !! this). Qed.

Lemma ot_get_data this : only_throws P (get_data this).
Proof. apply ot_bind; [apply ot_get_vec|intros; apply ot_ret]. Qed.
Lemma ot_get_sz this : only_throws P (get_sz this).
Proof. apply ot_bind; [apply ot_get_vec|intros; apply ot_ret]. Qed.
Lemma ot_get_cap this : only_throws P (get_cap this).
Proof. apply ot_bind; [apply ot_get_vec|intros; apply ot_ret]. Qed.
Lemma ot_set_data this p : only_throws P (set_data this p).
Proof. apply ot_bind; [apply ot_get_vec|intros; apply ot_put_vec]. Qed.
Lemma ot_set_sz this n : only_throws P (set_sz this n).
Proof. apply ot_bind; [apply ot_get_vec|intros; apply ot_put_vec]. Qed.
Lemma ot_set_cap this n : only_throws P (set_cap this n).
Proof. apply ot_bind; [apply ot_get_vec|intros; apply ot_put_vec]. Qed.

Lemma ot_store p i x ev : only_throws P (store p i x ev).
Proof. intros st e st'. unfold store. by destruct (heap st !! p). Qed.

Lemma ot_load p i : only_throws P (load p i).
Proof.
  intros st e st'. unfold load.
  destruct (heap st !! p) as [blk|]; [|done]. by destruct (slot blk i) as [[|]|].
Qed.

Lemma ot_destroy_at p i : only_throws P (destroy_at p i).
Proof.
  intros st e st'. unfold destroy_at.
  destruct (heap st !! p) as [blk|]; [|done].
  destruct (slot blk i) as [[|]|]; try done. apply ot_store.
Qed.

Lemma ot_operator_delete p : only_throws P (operator_delete p).
Proof.
  intros st e st'. unfold operator_delete.
  destruct (p =? 0); [done|]. by destruct (heap st !! p).
Qed.

Lemma ot_construct_at p i x : P elem_exn → only_throws P (construct_at p i x).
Proof.
  intros HP st e st'. unfold construct_at.
  destruct (heap st !! p) as [blk|]; [|done].
  destruct (slot blk i) as [|]; [|done].
  destruct (copy_throws x); [by intros [=]; subst|apply ot_store].
Qed.

Lemma ot_assign_at p i x : P elem_exn → only_throws P (assign_at p i x).
Proof.
  intros HP st e st'. unfold assign_at.
  destruct (heap st !! p) as [blk|]; [|done].
  destruct (slot blk i) as [[old|]|]; try done.
  destruct (assign_throws old x); [by intros [=]; subst|apply ot_store].
Qed.

Lemma ot_operator_new bytes : P bad_alloc → only_throws P (operator_new bytes).
Proof.
  intros HP st e st'. unfold operator_new.
  destruct (_ && _); [done|]. by intros [=]; subst.
Qed.

Hypothesis P_bad_alloc : P bad_alloc.
Hypothesis P_elem_exn : P elem_exn.

Lemma ot_ensure_capacity this need : only_throws P (ensure_capacity this need).
Proof.
  unfold ensure_capacity.
  apply ot_bind; [apply ot_get_cap|intros cap].
  destruct (need <=? cap); [apply ot_ret|].
  apply ot_bind; [destruct (new_capacity cap need); [apply ot_ret|apply ot_diverge]|].
  intros ncap. apply ot_bind; [by apply ot_operator_new|intros nd].
  apply ot_bind; [apply ot_get_sz|intros sz].
  apply ot_bind; [apply ot_get_data|intros d].
  assert (Hbody : ∀ i, only_throws P (let! x := load d i in construct_at nd i x)).
  { intros i. apply ot_bind; [apply ot_load|intros; by apply ot_construct_at]. }
  apply (ot_bind_post (λ r, match r with Some (_, e) => P e | None => True end)).
  - apply ot_try_for.
  - intros st [[i e]|] st' Hr; [|done].
    eapply try_for_caught; [exact Hbody|exact Hr].
  - intros [[i e]|] Hr.
    + apply ot_bind; [apply ot_for; intros; apply ot_destroy_at|intros _].
      apply ot_bind; [apply ot_operator_delete|intros _]. by apply ot_throw.
    + apply ot_bind; [apply ot_for; intros; apply ot_destroy_at|intros _].
      apply ot_bind; [apply ot_operator_delete|intros _].
      apply ot_bind; [apply ot_set_data|intros _]. apply ot_set_cap.
Qed.

Hypothesis P_index_out_of_bound : P index_out_of_bound.

Lemma ot_insert_idx this ind value : only_throws P (insert_idx this ind value).
Proof.
  unfold insert_idx.
  apply ot_bind; [apply ot_get_sz|intros sz].
  destruct (sz <? ind); [by apply ot_throw|].
  apply ot_bind; [apply ot_ensure_capacity|intros _].
  apply ot_bind; [apply ot_get_sz|intros sz'].
  apply ot_bind; [apply ot_get_data|intros d].
  destruct (ind =? sz').
  - apply ot_bind; [by apply ot_construct_at|intros _].
    apply ot_bind; [apply ot_set_sz|intros _]. apply ot_ret.
  - apply ot_bind.
    { apply ot_bind; [apply ot_load|intros; by apply ot_construct_at]. }
    intros _. apply ot_bind.
    { apply ot_for. intros i.
      apply ot_bind; [apply ot_load|intros; by apply ot_assign_at]. }
    intros _. apply ot_bind; [by apply ot_assign_at|intros _].
    apply ot_bind; [apply ot_set_sz|intros _]. apply ot_ret.
Qed.

End only_throws.



(** ** [push_back] and [insert] at the end *)

Lemma insert_end_push_back_after st this v0 value o1 st1 :
  objs st !! this = Some v0 →
  ensure_capacity this (wrap (sz_ v0 + 1)) st = (o1, st1) →
  (o1 = Ret tt → ∃ v1, objs st1 !! this = Some v1 ∧ sz_ v1 = sz_ v0) →
  void (insert_idx this (sz_ v0) value st).1 = (push_back this value st).1 ∧
  (insert_idx this (sz_ v0) value st).2 = (push_back this value st).2.
Proof.
  intros Hv Hens Hsz. destruct st as [h a o tr]. simpl in Hv.
  unfold insert_idx, push_back, bind. exec (get_sz_eq h a o tr this _ Hv).
  destruct (Z.ltb_spec (sz_ v0) (sz_ v0)); [lia|].
  rewrite Hens. destruct o1 as [[]|e| |]; try done.
  destruct (Hsz eq_refl) as (v1 & Hv1 & Hsz1). destruct st1 as [h1 a1 o1 tr1].
  simpl in Hv1.
  exec (get_sz_eq h1 a1 o1 tr1 this _ Hv1). exec (get_data_eq h1 a1 o1 tr1 this _ Hv1).
  rewrite Hsz1, Z.eqb_refl.
  destruct (construct_at (data_ v1) (sz_ v0) value _) as [[[]|e| |] st2]; try done.
  by destruct (set_sz this (wrap (sz_ v0 + 1)) st2) as [[[]|e| |] st3].
Qed.

Lemma insert_end_push_back st this p l rest value :
  1 ≤ sizeof_T < 2 ^ 64 →
  holds st this p l rest →
  size this st = (Ret (Z.of_nat (length l)), st) ∧
  void (insert_idx this (Z.of_nat (length l)) value st).1 = (push_back this value st).1 ∧
  (insert_idx this (Z.of_nat (length l)) value st).2 = (push_back this value st).2.
Proof.
  intros Hsize Hholds. pose proof Hholds as (Hv & _).
  destruct st as [h a o tr]. simpl in Hv.
  split; [unfold size; by rewrite (get_sz_eq h a o tr this _ Hv)|].
  set (v0 := Vector p (Z.of_nat (length l)) (Z.of_nat (length l + length rest))) in *.
  change (Z.of_nat (length l)) with (sz_ v0).
  destruct rest as [|r0 rest1].
  - set (ncap := double_cap (Z.of_nat (length l))).
    destruct (decide (ncap * sizeof_T ≤ a ∧ ncap * sizeof_T ≤ PTRDIFF_MAX))
      as [[Ha Hmax]|Hno].
    + destruct (decide (length (copy_prefix l) = length l)) as [Hall|Hthrow].
      * assert (Hcp : copy_prefix l = l)
          by (rewrite copy_prefix_prefix, Hall; apply firstn_all).
        destruct (ensure_capacity_full_grow Hsize _ _ _ _ _ _ _ _ Hholds
                    eq_refl Ha Hmax Hcp) as [Hens (Hv1 & _)].
        eapply (insert_end_push_back_after (State h a o tr) this v0 value _ _ Hv Hens).
        intros _. eexists. split; [exact Hv1|done].
      * assert (Hcp : copy_prefix l ≠ l) by (intros Hcp; by rewrite Hcp in Hthrow).
        pose proof (ensure_capacity_full_copy_throws Hsize _ _ _ _ _ _ _ _ Hholds
                      eq_refl Ha Hmax Hcp) as Hens.
        by eapply (insert_end_push_back_after (State h a o tr) this v0 value _ _ Hv Hens).
    + pose proof (ensure_capacity_full_bad_alloc Hsize _ _ _ _ _ _ _ _ Hholds
                    eq_refl Hno) as Hens.
      by eapply (insert_end_push_back_after (State h a o tr) this v0 value _ _ Hv Hens).
  - pose proof (ensure_capacity_room Hsize _ _ _ _ _ _ _ _ Hholds ltac:(done)) as Hens.
    eapply (insert_end_push_back_after (State h a o tr) this v0 value _ _ Hv Hens).
    intros _. eexists. split; [exact Hv|done].
Qed.

(** C7: for every sequence and every value [v], [insert(size(), v)] is
    observationally equivalent to [push_back(v)]: the same outcome (up to
    the iterator returned) and the same resulting machine state, hence the
    same sequence, size, and capacity. *)
Theorem C7_insert_end_push_back st this p l rest value :
  1 ≤ sizeof_T < 2 ^ 64 →
  holds st this p l rest →
  size this st = (Ret (Z.of_nat (length l)), st) ∧
  void (insert_idx this (Z.of_nat (length l)) value st).1 = (push_back this value st).1 ∧
  (insert_idx this (Z.of_nat (length l)) value st).2 = (push_back this value st).2.
Proof. apply insert_end_push_back. Qed.

(** ** Copy construction *)

Section copy.
Hypothesis sizeof_T_pos : 1 ≤ sizeof_T.
Variables (h : gmap Z (list (option T))) (a : Z) (o : gmap Z vector) (tr : list event).
Variables (other po : Z) (l : list T) (rest : list (option T)).
Hypothesis Hother : holds (State h a o tr) other po l rest.

Let this := fresh_ptr o.
Let nd := fresh_ptr h.
Let bytes := Z.of_nat (length l) * sizeof_T.

Lemma copy_this_fresh : o !! this = None ∧ this ≠ other.
Proof.
  assert (Hf : o !! this = None) by apply fresh_ptr_fresh.
  split; [done|]. intros Heq. destruct Hother as (Hv & _). simpl in Hv.
  rewrite <- Heq in Hv. congruence.
Qed.

Lemma copy_bytes_range : 0 ≤ bytes < 2 ^ 64.
Proof.
  destruct Hother as (_ & Hcap & _). unfold PTRDIFF_MAX in Hcap. unfold bytes. nia.
Qed.

Lemma new_vector_copy_empty :
  l = [] →
  new_vector_copy other (State h a o tr)
  = (Ret this, State h a (<[this := Vector 0 0 0]> o) tr).
Proof.
  intros Hl. destruct copy_this_fresh as [Hfresh Hne].
  destruct Hother as (Hv & _). simpl in Hv. rewrite Hl in Hv. simpl in Hv.
  unfold new_vector_copy, bind, alloc_obj, try_catch, copy_ctor, bind.
  cbn [objs heap avail trace]. fold this.
  erewrite set_data_eq by (by rewrite lookup_insert_eq). cbn [sz_ data_ cap_].
  erewrite set_sz_eq by (by rewrite lookup_insert_eq). cbn [sz_ data_ cap_].
  erewrite set_cap_eq by (by rewrite lookup_insert_eq). cbn [sz_ data_ cap_].
  rewrite !insert_insert_eq.
  erewrite get_sz_eq by (rewrite lookup_insert_ne by done; exact Hv).
  done.
Qed.

Lemma new_vector_copy_bad_alloc :
  l ≠ [] → ¬ (bytes ≤ a ∧ bytes ≤ PTRDIFF_MAX) →
  new_vector_copy other (State h a o tr) = (Throw bad_alloc, State h a o tr).
Proof.
  intros Hl Hno. destruct copy_this_fresh as [Hfresh Hne].
  pose proof copy_bytes_range as Hbytes.
  destruct Hother as (Hv & _). simpl in Hv.
  unfold new_vector_copy, bind, alloc_obj, try_catch, copy_ctor, bind.
  cbn [objs heap avail trace]. fold this.
  erewrite set_data_eq by (by rewrite lookup_insert_eq). cbn [sz_ data_ cap_].
  erewrite set_sz_eq by (by rewrite lookup_insert_eq). cbn [sz_ data_ cap_].
  erewrite set_cap_eq by (by rewrite lookup_insert_eq). cbn [sz_ data_ cap_].
  rewrite !insert_insert_eq.
  erewrite get_sz_eq by (rewrite lookup_insert_ne by done; exact Hv).
  cbn [sz_ data_ cap_].
  destruct (Z.eqb_spec (Z.of_nat (length l)) 0) as [H0|_];
    [destruct l; [done|simpl in H0; lia]|].
  unfold raw_alloc. fold bytes. rewrite wrap_small by done.
  rewrite operator_new_fail by done.
  unfold dealloc_obj, throw. cbn [objs heap avail trace].
  rewrite lookup_insert_eq, delete_insert_eq, delete_id by done. done.
Qed.

Lemma new_vector_copy_throws :
  l ≠ [] → bytes ≤ a → bytes ≤ PTRDIFF_MAX → copy_prefix l ≠ l →
  new_vector_copy other (State h a o tr)
  = (Throw elem_exn,
     State h a o (tr ++ failed_grow_events nd l (Z.of_nat (length l)))).
Proof.
  intros Hl Ha Hmax Hthrow. destruct copy_this_fresh as [Hfresh Hne].
  pose proof copy_bytes_range as Hbytes.
  assert (Hfresh' : h !! nd = None) by apply fresh_ptr_fresh.
  assert (Hnd : nd ≠ 0) by (pose proof (fresh_ptr_pos h); unfold nd; lia).
  destruct Hother as (Hv & _ & Hbuf). simpl in Hv.
  destruct (decide (po = 0)) as [->|Hpo]; [by destruct Hbuf|].
  destruct Hbuf as [_ Hblk]. simpl in Hblk.
  assert (Hlen : length (copy_prefix l) ≠ length l).
  { intros Hlen. apply Hthrow. rewrite copy_prefix_prefix, Hlen. apply firstn_all. }
  unfold new_vector_copy, bind, alloc_obj, try_catch, copy_ctor, bind.
  cbn [objs heap avail trace]. fold this.
  erewrite set_data_eq by (by rewrite lookup_insert_eq). cbn [sz_ data_ cap_].
  erewrite set_sz_eq by (by rewrite lookup_insert_eq). cbn [sz_ data_ cap_].
  erewrite set_cap_eq by (by rewrite lookup_insert_eq). cbn [sz_ data_ cap_].
  rewrite !insert_insert_eq.
  erewrite get_sz_eq by (rewrite lookup_insert_ne by done; exact Hv).
  cbn [sz_ data_ cap_].
  destruct (Z.eqb_spec (Z.of_nat (length l)) 0) as [H0|_];
    [destruct l; [done|simpl in H0; lia]|].
  unfold raw_alloc. fold bytes. rewrite wrap_small by done.
  rewrite operator_new_eq by done. fold nd. unfold bytes.
  rewrite Z.div_mul, Nat2Z.id by lia.
  erewrite set_data_eq by (by rewrite lookup_insert_eq). cbn [sz_ data_ cap_].
  erewrite set_cap_eq by (by rewrite lookup_insert_eq). cbn [sz_ data_ cap_].
  rewrite !insert_insert_eq.
  erewrite get_data_eq by (rewrite lookup_insert_ne by done; exact Hv).
  cbn [sz_ data_ cap_].
  exec (copy_loop_eq po nd l 0 [] rest [] (replicate (length l) None)).
  2:{ intros ->. congruence. }
  2,3: done.
  2:{ by rewrite length_replicate. }
  2:{ rewrite lookup_insert_ne by congruence. done. }
  2:{ by rewrite lookup_insert_eq. }
  rewrite decide_False by done. simpl app.
  rewrite insert_insert_eq.
  exec (destroy_loop_eq nd (copy_prefix l) 0 []
          (drop (length (copy_prefix l)) (replicate (length l) None))).
  2: done.
  2:{ by rewrite lookup_insert_eq. }
  rewrite insert_insert_eq. unfold raw_free.
  erewrite operator_delete_eq; [|done|by rewrite lookup_insert_eq].
  erewrite set_data_eq by (by rewrite lookup_insert_eq). cbn [sz_ data_ cap_].
  erewrite set_cap_eq by (by rewrite lookup_insert_eq). cbn [sz_ data_ cap_].
  unfold dealloc_obj, throw. cbn [objs heap avail trace].
  rewrite !insert_insert_eq.
  rewrite lookup_insert_eq, !delete_insert_eq, !delete_id by done.
  f_equal. f_equal.
  - simpl. rewrite length_app, !length_replicate, length_drop, length_replicate.
    pose proof (copy_prefix_length l). lia.
  - unfold failed_grow_events. rewrite <- !app_assoc. done.
Qed.

(** The events of a successful copy construction into the buffer [d]. *)
Lemma new_vector_copy_ok :
  l ≠ [] → bytes ≤ a → bytes ≤ PTRDIFF_MAX → copy_prefix l = l →
  new_vector_copy other (State h a o tr)
  = (Ret this,
     State (<[nd := Some <$> l]> h) (a - bytes)
           (<[this := Vector nd (Z.of_nat (length l)) (Z.of_nat (length l))]> o)
           (tr ++ [EvNew nd bytes]
               ++ zip_with (EvConstruct nd) (seqZ 0 (Z.of_nat (length l))) l)).
Proof.
  intros Hl Ha Hmax Hall. destruct copy_this_fresh as [Hfresh Hne].
  pose proof copy_bytes_range as Hbytes.
  assert (Hfresh' : h !! nd = None) by apply fresh_ptr_fresh.
  destruct Hother as (Hv & _ & Hbuf). simpl in Hv.
  destruct (decide (po = 0)) as [->|Hpo]; [by destruct Hbuf|].
  destruct Hbuf as [_ Hblk]. simpl in Hblk.
  unfold new_vector_copy, bind, alloc_obj, try_catch, copy_ctor, bind.
  cbn [objs heap avail trace]. fold this.
  erewrite set_data_eq by (by rewrite lookup_insert_eq). cbn [sz_ data_ cap_].
  erewrite set_sz_eq by (by rewrite lookup_insert_eq). cbn [sz_ data_ cap_].
  erewrite set_cap_eq by (by rewrite lookup_insert_eq). cbn [sz_ data_ cap_].
  rewrite !insert_insert_eq.
  erewrite get_sz_eq by (rewrite lookup_insert_ne by done; exact Hv).
  cbn [sz_ data_ cap_].
  destruct (Z.eqb_spec (Z.of_nat (length l)) 0) as [H0|_];
    [destruct l; [done|simpl in H0; lia]|].
  unfold raw_alloc. fold bytes. rewrite wrap_small by done.
  rewrite operator_new_eq by done. fold nd. unfold bytes.
  rewrite Z.div_mul, Nat2Z.id by lia.
  erewrite set_data_eq by (by rewrite lookup_insert_eq). cbn [sz_ data_ cap_].
  erewrite set_cap_eq by (by rewrite lookup_insert_eq). cbn [sz_ data_ cap_].
  rewrite !insert_insert_eq.
  erewrite get_data_eq by (rewrite lookup_insert_ne by done; exact Hv).
  cbn [sz_ data_ cap_].
  exec (copy_loop_eq po nd l 0 [] rest [] (replicate (length l) None)).
  2:{ intros ->. congruence. }
  2,3: done.
  2:{ by rewrite length_replicate. }
  2:{ rewrite lookup_insert_ne by congruence. done. }
  2:{ by rewrite lookup_insert_eq. }
  rewrite Hall, decide_True by done. simpl app.
  rewrite insert_insert_eq, drop_replicate, Nat.sub_diag. simpl replicate.
  erewrite set_sz_eq by (by rewrite lookup_insert_eq). cbn [sz_ data_ cap_].
  unfold ret. rewrite !insert_insert_eq, app_nil_r, <- !app_assoc. done.
Qed.

End copy.

(** Both successful cases of a copy construction at once. *)
Lemma new_vector_copy_success h a o tr other po l rest :
  1 ≤ sizeof_T →
  holds (State h a o tr) other po l rest →
  l = [] ∨ (Z.of_nat (length l) * sizeof_T ≤ a ∧
            Z.of_nat (length l) * sizeof_T ≤ PTRDIFF_MAX ∧ copy_prefix l = l) →
  let st' := State (copy_heap h l) (a - Z.of_nat (length l) * sizeof_T)
               (<[fresh_ptr o := Vector (copy_data h l) (Z.of_nat (length l))
                                        (Z.of_nat (length l))]> o)
               (tr ++ copy_events h l) in
  new_vector_copy other (State h a o tr) = (Ret (fresh_ptr o), st') ∧
  holds st' (fresh_ptr o) (copy_data h l) l [].
Proof.
  intros Hsize Hother Hcase st'.
  pose proof Hother as (_ & Hcap & _).
  assert (Hnd : fresh_ptr h ≠ 0) by (pose proof (fresh_ptr_pos h); lia).
  assert (Hempty : l = [] →
            new_vector_copy other (State h a o tr) = (Ret (fresh_ptr o), st') ∧
            holds st' (fresh_ptr o) (copy_data h l) l []).
  { intros Hl. unfold st'. clear st'. subst l. split.
    - simpl. rewrite Z.sub_0_r, app_nil_r.
      by eapply new_vector_copy_empty.
    - unfold holds. simpl. rewrite lookup_insert_eq. split; [done|].
      split; [unfold PTRDIFF_MAX; lia|done]. }
  destruct Hcase as [Hl|(Ha & Hmax & Hall)]; [by apply Hempty|].
  destruct (decide (length l = 0%nat)) as [H0|H0]; [by apply Hempty, nil_length_inv|].
  assert (Hl : l ≠ []) by (by intros ->).
  assert (Hd : copy_data h l = fresh_ptr h) by (by destruct l).
  assert (Hh : copy_heap h l = <[fresh_ptr h := Some <$> l]> h) by (by destruct l).
  assert (He : copy_events h l
               = [EvNew (fresh_ptr h) (Z.of_nat (length l) * sizeof_T)]
                 ++ zip_with (EvConstruct (fresh_ptr h)) (seqZ 0 (Z.of_nat (length l))) l)
    by (by destruct l).
  unfold st'. rewrite Hd, Hh, He. split.
  - by eapply new_vector_copy_ok.
  - unfold holds. cbn [objs heap]. rewrite app_nil_r, Nat.add_0_r.
    rewrite lookup_insert_eq. split; [done|].
    split; [unfold PTRDIFF_MAX in *; nia|].
    rewrite decide_False by done. split; [lia|]. by rewrite lookup_insert_eq.
Qed.

(** ** [swap], the destructor, copy assignment *)

Lemma swap_eq h a o tr this rhs va vb :
  this ≠ rhs → o !! this = Some va → o !! rhs = Some vb →
  swap this rhs (State h a o tr)
  = (Ret tt, State h a (<[rhs := va]> (<[this := vb]> o)) tr).
Proof.
  intros Hne Ha Hb. destruct va as [da sa ca], vb as [db sb cb].
  unfold swap, bind.
  exec (get_data_eq h a o tr this _ Ha). exec (get_data_eq h a o tr rhs _ Hb).
  exec (set_data_eq h a o tr this _ Ha). cbn [sz_ data_ cap_].
  erewrite set_data_eq by (by simplify_map_eq). cbn [sz_ data_ cap_].
  erewrite get_sz_eq by (by simplify_map_eq). cbn [sz_ data_ cap_].
  erewrite get_sz_eq by (by simplify_map_eq). cbn [sz_ data_ cap_].
  erewrite set_sz_eq by (by simplify_map_eq). cbn [sz_ data_ cap_].
  erewrite set_sz_eq by (by simplify_map_eq). cbn [sz_ data_ cap_].
  erewrite get_cap_eq by (by simplify_map_eq). cbn [sz_ data_ cap_].
  erewrite get_cap_eq by (by simplify_map_eq). cbn [sz_ data_ cap_].
  erewrite set_cap_eq by (by simplify_map_eq). cbn [sz_ data_ cap_].
  erewrite set_cap_eq by (by simplify_map_eq). cbn [sz_ data_ cap_].
  do 2 f_equal. apply map_eq. intros i.
  destruct (decide (i = rhs)) as [->|]; [by simplify_map_eq|].
  destruct (decide (i = this)) as [->|]; by simplify_map_eq.
Qed.

Lemma swap_self h a o tr this va :
  o !! this = Some va →
  swap this this (State h a o tr) = (Ret tt, State h a o tr).
Proof.
  intros Ha. destruct va as [da sa ca]. unfold swap, bind.
  exec (get_data_eq h a o tr this _ Ha). exec (get_data_eq h a o tr this _ Ha).
  exec (set_data_eq h a o tr this _ Ha). cbn [sz_ data_ cap_].
  rewrite (insert_id o this _ Ha).
  exec (set_data_eq h a o tr this _ Ha). cbn [sz_ data_ cap_].
  rewrite (insert_id o this _ Ha).
  exec (get_sz_eq h a o tr this _ Ha). exec (get_sz_eq h a o tr this _ Ha).
  exec (set_sz_eq h a o tr this _ Ha). cbn [sz_ data_ cap_].
  rewrite (insert_id o this _ Ha).
  exec (set_sz_eq h a o tr this _ Ha). cbn [sz_ data_ cap_].
  rewrite (insert_id o this _ Ha).
  exec (get_cap_eq h a o tr this _ Ha). exec (get_cap_eq h a o tr this _ Ha).
  exec (set_cap_eq h a o tr this _ Ha). cbn [sz_ data_ cap_].
  rewrite (insert_id o this _ Ha).
  rewrite (set_cap_eq h a o tr this _ Ha). cbn [sz_ data_ cap_].
  by rewrite (insert_id o this _ Ha).
Qed.

(** A sequence going out of scope: the elements are destroyed in index
    order, the buffer is released, the object is gone. *)
Lemma delete_vector_eq h a o tr this p l rest :
  holds (State h a o tr) this p l rest →
  delete_vector this (State h a o tr)
  = (Ret tt,
     State (released p h) (a + Z.of_nat (length l + length rest) * sizeof_T)
           (delete this o)
           (tr ++ (EvDestroy p <$> seqZ 0 (Z.of_nat (length l))) ++ release_events p)).
Proof.
  intros (Hv & Hcap & Hbuf). simpl in Hv.
  unfold delete_vector, dtor, clear, bind.
  exec (get_sz_eq h a o tr this _ Hv). exec (get_data_eq h a o tr this _ Hv).
  cbn [sz_ data_ cap_]. unfold released, release_events.
  destruct (decide (p = 0)) as [->|Hp].
  - destruct Hbuf as [-> ->]. simpl. unfold ret.
    exec (set_sz_eq h a o tr this _ Hv). cbn [sz_ data_ cap_].
    erewrite get_data_eq by (by rewrite lookup_insert_eq). cbn [sz_ data_ cap_].
    simpl.
    erewrite set_data_eq by (by rewrite lookup_insert_eq). cbn [sz_ data_ cap_].
    erewrite set_cap_eq by (by rewrite lookup_insert_eq). cbn [sz_ data_ cap_].
    unfold dealloc_obj. cbn [objs heap avail trace].
    rewrite lookup_insert_eq, !insert_insert_eq, delete_insert_eq, app_nil_r.
    do 2 f_equal. lia.
  - destruct Hbuf as [_ Hblk]. simpl in Hblk.
    exec (destroy_loop_eq p l 0 [] rest).
    2: done. 2: exact Hblk.
    exec (set_sz_eq _ a o _ this _ Hv). cbn [sz_ data_ cap_].
    erewrite get_data_eq by (by rewrite lookup_insert_eq). cbn [sz_ data_ cap_].
    destruct (Z.eqb_spec p 0); [done|]. unfold raw_free.
    erewrite operator_delete_eq; [|done|by rewrite lookup_insert_eq].
    erewrite set_data_eq by (by rewrite lookup_insert_eq). cbn [sz_ data_ cap_].
    erewrite set_cap_eq by (by rewrite lookup_insert_eq). cbn [sz_ data_ cap_].
    unfold dealloc_obj. cbn [objs heap avail trace].
    rewrite lookup_insert_eq, !insert_insert_eq, !delete_insert_eq.
    simpl. rewrite length_app, length_replicate, <- app_assoc. done.
Qed.

(** A failed copy assignment has changed nothing but the trace. *)
Lemma assign_copy_fails h a o tr this other e tr' :
  this ≠ other →
  new_vector_copy other (State h a o tr) = (Throw e, State h a o tr') →
  assign this other (State h a o tr) = (Throw e, State h a o tr').
Proof.
  intros Hne Hcopy. unfold assign.
  destruct (Z.eqb_spec this other); [done|]. by erewrite bind_Throw.
Qed.

Lemma assign_ok h a o tr this pt lt restt other po l rest :
  1 ≤ sizeof_T → this ≠ other →
  holds (State h a o tr) this pt lt restt →
  holds (State h a o tr) other po l rest →
  l = [] ∨ (Z.of_nat (length l) * sizeof_T ≤ a ∧
            Z.of_nat (length l) * sizeof_T ≤ PTRDIFF_MAX ∧ copy_prefix l = l) →
  let st' := State (released pt (copy_heap h l))
               (a - Z.of_nat (length l) * sizeof_T
                  + Z.of_nat (length lt + length restt) * sizeof_T)
               (<[this := Vector (copy_data h l) (Z.of_nat (length l))
                                 (Z.of_nat (length l))]> o)
               ((tr ++ copy_events h l)
                   ++ (EvDestroy pt <$> seqZ 0 (Z.of_nat (length lt)))
                   ++ release_events pt) in
  assign this other (State h a o tr) = (Ret this, st') ∧
  holds st' this (copy_data h l) l [].
Proof.
  intros Hsize Hne Hthis Hother Hcase st'.
  destruct (new_vector_copy_success h a o tr other po l rest Hsize Hother Hcase)
    as [Hcopy Htmp].
  set (tmp := fresh_ptr o) in *.
  assert (Hfresh : o !! tmp = None) by apply fresh_ptr_fresh.
  pose proof Hthis as (Hv & Hcapt & Hbuft). simpl in Hv.
  assert (Htne : this ≠ tmp) by (intros ->; congruence).
  assert (Hpt : pt ≠ 0 → copy_heap h l !! pt = h !! pt).
  { intros Hp. rewrite decide_False in Hbuft by done. destruct Hbuft as [_ Hblk].
    simpl in Hblk. unfold copy_heap. destruct l; [done|].
    rewrite lookup_insert_ne; [done|]. intros Heq.
    pose proof (fresh_ptr_fresh h) as Hf. rewrite Heq in Hf. congruence. }
  split.
  - unfold assign. destruct (Z.eqb_spec this other); [done|].
    rewrite (bind_Ret _ _ _ _ _ Hcopy). fold tmp.
    erewrite bind_Ret; cycle 1.
    { apply swap_eq; [exact Htne| |by rewrite lookup_insert_eq].
      rewrite lookup_insert_ne by done. exact Hv. }
    erewrite bind_Ret; cycle 1.
    { apply (delete_vector_eq _ _ _ _ tmp pt lt restt).
      unfold holds. cbn [objs heap]. rewrite lookup_insert_eq.
      split; [done|]. split; [done|].
      destruct (decide (pt = 0)); [done|]. rewrite Hpt by done. done. }
    unfold ret, st'. do 2 f_equal.
    + rewrite delete_insert_eq. rewrite delete_insert_ne by done.
      rewrite delete_insert_eq, delete_id by done. done.
  - destruct Htmp as (_ & Hcap & Hbuf). unfold holds, st'. cbn [objs heap] in *.
    simpl length in *. rewrite Nat.add_0_r, app_nil_r in *.
    rewrite lookup_insert_eq. split; [done|].
    split; [done|]. destruct (decide (copy_data h l = 0)); [done|].
    destruct Hbuf as [Hpos Hblk]. split; [done|].
    unfold released. destruct (decide (pt = 0)); [done|].
    rewrite lookup_delete_ne; [done|]. intros Heq.
    rewrite <- Heq, Hpt in Hblk by done.
    assert (Hf : pt = fresh_ptr h) by (rewrite Heq; by destruct l).
    pose proof (fresh_ptr_fresh h) as Hfresh'. rewrite <- Hf in Hfresh'. congruence.
Qed.

(** ** Outcomes of the element operations, whatever throws *)

Lemma shape_insert_live blk (n : nat) old x :
  blk !! n = Some (Some old) → shape (<[n := Some x]> blk) = shape blk.
Proof.
  intros Hn. unfold shape. rewrite list_fmap_insert. apply list_insert_id.
  by rewrite list_lookup_fmap, Hn.
Qed.

Lemma shape_length blk blk' : shape blk' = shape blk → length blk' = length blk.
Proof. unfold shape. intros H. by rewrite <- (length_fmap live blk'), H, length_fmap. Qed.

Lemma shape_prefix (l : list T) : ∀ blk rest,
  shape blk = shape ((Some <$> l) ++ rest) →
  ∃ l' rest', blk = (Some <$> l') ++ rest' ∧ length l' = length l ∧
              shape rest' = shape rest.
Proof.
  induction l as [|x l IH]; intros blk rest Hs.
  - exists [], blk. done.
  - destruct blk as [|b blk]; [done|]. simpl in Hs. injection Hs as Hb Hs.
    destruct b as [y|]; [|done].
    destruct (IH blk rest Hs) as (l' & rest' & -> & Hlen & Hrest).
    exists (y :: l'), rest'. simpl. by rewrite Hlen.
Qed.

Lemma slot_Some blk i x : slot blk i = Some x → blk !! Z.to_nat i = Some x.
Proof. unfold slot. by destruct (0 <=? i). Qed.

Lemma load_outcome p i st o st' :
  load p i st = (o, st') → st' = st.
Proof.
  unfold load. destruct (heap st !! p) as [blk|]; [|by intros [= _ <-]].
  by destruct (slot blk i) as [[x|]|]; intros [= _ <-].
Qed.

Lemma assign_at_outcome p i x st o st' blk :
  assign_at p i x st = (o, st') → finished o = true → heap st !! p = Some blk →
  objs st' = objs st ∧
  ∃ blk', heap st' = <[p := blk']> (heap st) ∧ shape blk' = shape blk.
Proof.
  intros H Hfin Hblk. unfold assign_at in H. rewrite Hblk in H.
  destruct (slot blk i) as [[old|]|] eqn:Hslot;
    [|by injection H as <- <-..].
  destruct (assign_throws old x).
  - injection H as <- <-. split; [done|]. exists blk. by rewrite insert_id.
  - unfold store in H. rewrite Hblk in H. injection H as <- <-. simpl.
    split; [done|]. eexists. split; [done|].
    eapply shape_insert_live. by apply slot_Some.
Qed.

(** Loops of assignments [p[i] = p[f i]] keep the shape of the buffer. *)
Lemma moves_outcome p (f : Z → Z) ixs : ∀ st o st' blk,
  for_ ixs (λ i, let! x := load p (f i) in assign_at p i x) st = (o, st') →
  finished o = true → heap st !! p = Some blk →
  objs st' = objs st ∧
  ∃ blk', heap st' = <[p := blk']> (heap st) ∧ shape blk' = shape blk.
Proof.
  induction ixs as [|i ixs IH]; intros st o st' blk H Hfin Hblk.
  - injection H as <- <-. split; [done|]. exists blk. by rewrite insert_id.
  - cbn [for_] in H. apply bind_inv in H as [(u & st1 & Hbody & Hrest)|(e & Hbody & ->)];
      [| |done].
    + apply bind_inv in Hbody as [(x & st0 & Hload & Hassign)|(e & Hload & [=])];
        [|done].
      apply load_outcome in Hload as ->.
      destruct (assign_at_outcome _ _ _ _ _ _ _ Hassign eq_refl Hblk)
        as (Ho1 & blk1 & Hh1 & Hs1).
      assert (Hblk1 : heap st1 !! p = Some blk1) by (by rewrite Hh1, lookup_insert_eq).
      destruct (IH _ _ _ _ Hrest Hfin Hblk1) as (Ho2 & blk2 & Hh2 & Hs2).
      split; [congruence|]. exists blk2. rewrite Hh2, Hh1, insert_insert_eq.
      split; [done|congruence].
    + apply bind_inv in Hbody as [(x & st0 & Hload & Hassign)|(e' & Hload & _)];
        [|by apply (ot_load (λ _, False)) in Hload|done].
      apply load_outcome in Hload as ->.
      by eapply assign_at_outcome.
Qed.

Lemma holds_ext st st' this p l rest :
  holds st this p l rest →
  objs st' !! this = objs st !! this →
  (p ≠ 0 → heap st' !! p = heap st !! p) →
  holds st' this p l rest.
Proof.
  intros (Hv & Hcap & Hbuf) Ho Hh. unfold holds. rewrite Ho. split; [done|].
  split; [done|]. destruct (decide (p = 0)); [done|]. by rewrite Hh.
Qed.

Lemma modifies_same R st st' this p l rest :
  holds st this p l rest → heap st' = heap st → objs st' = objs st →
  (∀ c, R c c) → modifies R st st' this.
Proof.
  intros Hholds Hh Ho HR. pose proof Hholds as (Hv & _).
  eexists _, _, l, rest. split; [exact Hv|]. split; [|split; [|split; [|split]]].
  - by rewrite Ho, insert_id.
  - eapply holds_ext; [exact Hholds|by rewrite Ho|by rewrite Hh].
  - intros q _ _. by rewrite Hh.
  - by left.
  - apply HR.
Qed.

Lemma grows_refl c : grows c c.
Proof. by left. Qed.

(** Everything [insert] can do after [ensure_capacity] has returned. *)
Lemma insert_idx_outcome_after st this v0 ind value h1 a1 o1 tr1 p1 l r0 rest1 o st' :
  1 ≤ sizeof_T →
  objs st !! this = Some v0 → sz_ v0 = Z.of_nat (length l) →
  0 ≤ ind ≤ Z.of_nat (length l) →
  ensure_capacity this (wrap (sz_ v0 + 1)) st = (Ret tt, State h1 a1 o1 tr1) →
  holds (State h1 a1 o1 tr1) this p1 l (r0 :: rest1) →
  insert_idx this ind value st = (o, st') → finished o = true →
  ∃ l' rest',
    heap st' = <[p1 := (Some <$> l') ++ rest']> h1 ∧
    objs st' = <[this := Vector p1 (Z.of_nat (length l'))
                                (Z.of_nat (length l' + length rest'))]> o1 ∧
    (length l' + length rest' = length l + S (length rest1))%nat.
Proof.
  intros Hsize Hv0 Hsz Hind Hens Hholds.
  pose proof (holds_cap_bound _ _ _ _ _ Hsize Hholds) as Hbound.
  unfold PTRDIFF_MAX in Hbound. simpl length in Hbound.
  destruct Hholds as (Hv & Hcap & Hbuf).
  destruct (decide (p1 = 0)) as [->|Hp]; [by destruct Hbuf|].
  destruct Hbuf as [_ Hblk]. simpl in Hblk, Hv.
  assert (Hsame : ∃ l' rest',
            h1 = <[p1 := (Some <$> l') ++ rest']> h1 ∧
            o1 = <[this := Vector p1 (Z.of_nat (length l'))
                                 (Z.of_nat (length l' + length rest'))]> o1 ∧
            (length l' + length rest' = length l + S (length rest1))%nat).
  { exists l, (r0 :: rest1). by rewrite !insert_id. }
  assert (Hshape : ∀ n (l0 : list T) rest0 blk,
            length l0 = n → (n + length rest0 = length l + S (length rest1))%nat →
            shape blk = shape ((Some <$> l0) ++ rest0) →
            ∃ l' rest',
              <[p1 := blk]> h1 = <[p1 := (Some <$> l') ++ rest']> h1 ∧
              <[this := Vector p1 (Z.of_nat n)
                               (Z.of_nat (length l + S (length rest1)))]> o1
              = <[this := Vector p1 (Z.of_nat (length l'))
                                 (Z.of_nat (length l' + length rest'))]> o1 ∧
              (length l' + length rest' = length l + S (length rest1))%nat).
  { intros n l0 rest0 blk Hn Hlen Hs.
    destruct (shape_prefix l0 blk rest0 Hs) as (l' & rest' & -> & Hl' & Hr').
    apply shape_length in Hr'. exists l', rest'.
    split; [done|]. split; [do 3 f_equal; lia|lia]. }
  destruct st as [h a o0 tr]. simpl in Hv0.
  unfold insert_idx, bind. exec (get_sz_eq h a o0 tr this _ Hv0).
  destruct (Z.ltb_spec (sz_ v0) ind); [lia|].
  rewrite Hens. exec (get_sz_eq h1 a1 o1 tr1 this _ Hv).
  exec (get_data_eq h1 a1 o1 tr1 this _ Hv). cbn [sz_ data_ cap_].
  replace (wrap (Z.of_nat (length l) + 1)) with (Z.of_nat (S (length l)))
    by (rewrite wrap_small; lia).
  destruct (Z.eqb_spec ind (Z.of_nat (length l))) as [He|He].
  - destruct (copy_throws value) eqn:Ec.
    + erewrite construct_at_throw;
        [|done|rewrite length_app, length_fmap; simpl; lia|done].
      intros [= <- <-] _. exact Hsame.
    + erewrite construct_at_eq;
        [|done|rewrite length_app, length_fmap; simpl; lia|done].
      erewrite set_sz_eq by done. unfold ret. cbn [sz_ data_ cap_].
      intros [= <- <-] _. cbn [heap objs].
      rewrite insert_middle by (by rewrite length_fmap).
      exists (l ++ [value]), rest1. rewrite length_app. simpl length.
      split; [by list_simp|]. split; [do 3 f_equal; lia|lia].
  - destruct l as [|z l0 _] using rev_ind; [simpl in *; lia|].
    rewrite length_app in *. simpl length in *.
    replace (wrap (Z.of_nat (length l0 + 1) - 1)) with (Z.of_nat (length l0))
      by (rewrite wrap_small; lia).
    assert (Hz : ((Some <$> l0 ++ [z]) ++ r0 :: rest1) !! length l0 = Some (Some z)).
    { rewrite lookup_app_l by (rewrite length_fmap, length_app; simpl; lia).
      rewrite list_lookup_fmap, lookup_app_r by lia. by rewrite Nat.sub_diag. }
    exec (load_eq h1 a1 o1 tr1 p1 _ Hblk (length l0) z Hz).
    destruct (copy_throws z) eqn:Ec.
    + erewrite construct_at_throw;
        [|done|rewrite length_app, length_fmap, length_app; simpl; lia|done].
      intros [= <- <-] _. exact Hsame.
    + erewrite construct_at_eq;
        [|done|rewrite length_app, length_fmap, length_app; simpl; lia|done].
      rewrite insert_middle by (rewrite length_fmap, length_app; simpl; lia).
      match goal with
      | |- context [for_ ?ixs ?body ?st2] =>
          destruct (for_ ixs body st2) as [o3 st3] eqn:Hloop
      end.
      assert (Hst3 : finished o3 = true →
                objs st3 = o1 ∧
                ∃ blk3, heap st3 = <[p1 := blk3]> h1 ∧
                        shape blk3 = shape ((Some <$> l0 ++ [z]) ++ Some z :: rest1)).
      { intros Hfin.
        edestruct (moves_outcome p1 (λ i, wrap (i - 1))) as (Ho3 & blk3 & Hh3 & Hs3);
          [exact Hloop|exact Hfin|by cbn [heap]; rewrite lookup_insert_eq|].
        cbn [heap objs] in *. split; [done|]. exists blk3.
        by rewrite Hh3, insert_insert_eq. }
      destruct o3 as [[]|e| |].
      * destruct (Hst3 eq_refl) as (Ho3 & blk3 & Hh3 & Hs3).
        destruct st3 as [h3 a3 o3 tr3]. cbn [heap objs] in *. subst h3 o3.
        match goal with
        | |- context [assign_at ?d ?i ?x ?st4] =>
            destruct (assign_at d i x st4) as [o5 st5] eqn:Hassign
        end.
        assert (Hst5 : finished o5 = true →
                  objs st5 = o1 ∧
                  ∃ blk5, heap st5 = <[p1 := blk5]> h1 ∧
                          shape blk5 = shape ((Some <$> l0 ++ [z]) ++ Some z :: rest1)).
        { intros Hfin.
          edestruct assign_at_outcome as (Ho5 & blk5 & Hh5 & Hs5);
            [exact Hassign|exact Hfin|by cbn [heap]; rewrite lookup_insert_eq|].
          cbn [heap objs] in *. split; [done|]. exists blk5.
          rewrite Hh5, insert_insert_eq. split; [done|congruence]. }
        destruct o5 as [[]|e| |].
        -- destruct (Hst5 eq_refl) as (Ho5 & blk5 & Hh5 & Hs5).
           destruct st5 as [h5 a5 o5 tr5]. cbn [heap objs] in *. subst h5 o5.
           erewrite set_sz_eq by done. unfold ret. cbn [sz_ data_ cap_].
           intros [= <- <-] _. cbn [heap objs].
           replace ((Some <$> l0 ++ [z]) ++ Some z :: rest1)
             with ((Some <$> (l0 ++ [z]) ++ [z]) ++ rest1) in Hs5 by (by list_simp).
           replace (Z.of_nat (length l0 + 1) + 1)
             with (Z.of_nat (S (length l0 + 1))) by lia.
           eapply (Hshape _ ((l0 ++ [z]) ++ [z]) rest1 blk5);
             [rewrite !length_app; simpl; lia|lia|done].
        -- destruct (Hst5 eq_refl) as (Ho5 & blk5 & Hh5 & Hs5).
           intros [= <- <-] _. rewrite Ho5, Hh5.
           edestruct (Hshape (length l0 + 1)%nat (l0 ++ [z]) (Some z :: rest1) blk5)
             as (l' & rest' & Hh' & Ho' & Hlen');
             [by rewrite length_app|simpl; lia|done|].
           exists l', rest'. split; [done|]. split; [|done].
           rewrite <- Ho'. by rewrite insert_id.
        -- by intros [= <- <-].
        -- by intros [= <- <-].
      * destruct (Hst3 eq_refl) as (Ho3 & blk3 & Hh3 & Hs3).
        intros [= <- <-] _. rewrite Ho3, Hh3.
        edestruct (Hshape (length l0 + 1)%nat (l0 ++ [z]) (Some z :: rest1) blk3)
          as (l' & rest' & Hh' & Ho' & Hlen');
          [by rewrite length_app|simpl; lia|done|].
        exists l', rest'. split; [done|]. split; [|done].
        rewrite <- Ho'. by rewrite insert_id.
      * by intros [= <- <-].
      * by intros [= <- <-].
Qed.

Lemma insert_idx_ensure_throws st this v0 ind value e st1 :
  objs st !! this = Some v0 → ind ≤ sz_ v0 →
  ensure_capacity this (wrap (sz_ v0 + 1)) st = (Throw e, st1) →
  insert_idx this ind value st = (Throw e, st1).
Proof.
  intros Hv Hind Hens. destruct st as [h a o tr]. simpl in Hv.
  unfold insert_idx, bind. exec (get_sz_eq h a o tr this _ Hv).
  destruct (Z.ltb_spec (sz_ v0) ind); [lia|]. by rewrite Hens.
Qed.

Lemma modifies_intro R h a o tr st' this p l rest h1 o1 p1 l' rest' :
  holds (State h a o tr) this p l rest →
  heap st' = <[p1 := (Some <$> l') ++ rest']> h1 →
  objs st' = <[this := Vector p1 (Z.of_nat (length l'))
                              (Z.of_nat (length l' + length rest'))]> o1 →
  (o1 = o ∨ ∃ v1, o1 = <[this := v1]> o) →
  (∀ q, q ≠ p → q ≠ p1 → h1 !! q = h !! q) →
  p1 ≠ 0 → (0 < length l' + length rest')%nat →
  Z.of_nat (length l' + length rest') * sizeof_T ≤ PTRDIFF_MAX →
  (p1 = p ∨ h !! p1 = None) →
  R (Z.of_nat (length l + length rest)) (Z.of_nat (length l' + length rest')) →
  modifies R (State h a o tr) st' this.
Proof.
  intros Hholds Hh Ho Ho1 Hframe Hp1 Hpos Hcap Hfresh HR.
  pose proof Hholds as (Hv & _). simpl in Hv.
  eexists _, (Vector p1 _ _), l', rest'. cbn [objs heap data_ cap_].
  split; [exact Hv|]. split; [|split; [|split; [|split]]].
  - rewrite Ho. destruct Ho1 as [->|[v1 ->]]; [done|]. by rewrite insert_insert_eq.
  - unfold holds. rewrite Ho, Hh, !lookup_insert_eq. split; [done|]. split; [done|].
    by rewrite decide_False.
  - intros q Hq Hq1. rewrite Hh, lookup_insert_ne by done. by apply Hframe.
  - destruct Hfresh; auto.
  - done.
Qed.

Lemma released_frame p (h : gmap Z (list (option T))) q :
  q ≠ p → released p h !! q = h !! q.
Proof.
  intros Hq. unfold released. destruct (decide (p = 0)); [done|].
  by rewrite lookup_delete_ne.
Qed.

(** Everything [insert(ind, value)] can do to a well-formed sequence. *)
Lemma insert_idx_outcome st this p l rest ind value o st' :
  1 ≤ sizeof_T < 2 ^ 64 → holds st this p l rest → 0 ≤ ind →
  insert_idx this ind value st = (o, st') → finished o = true →
  modifies grows st st' this.
Proof.
  intros Hsize Hholds Hind Hins Hfin. pose proof Hholds as (Hv & Hcap & Hbuf).
  destruct st as [h a o0 tr]. simpl in Hv.
  destruct (decide (Z.of_nat (length l) < ind)) as [Hgt|Hle].
  { erewrite insert_idx_out_of_bound in Hins; [|exact Hv|done].
    injection Hins as <- <-. eapply modifies_same; eauto using grows_refl. }
  assert (Hthrow : ∀ e tr1,
            ensure_capacity this (wrap (Z.of_nat (length l) + 1)) (State h a o0 tr)
            = (Throw e, State h a o0 tr1) →
            modifies grows (State h a o0 tr) st' this).
  { intros e tr1 Hens.
    erewrite (insert_idx_ensure_throws (State h a o0 tr) this _ ind value)
      in Hins; [|exact Hv|simpl; lia|exact Hens].
    injection Hins as <- <-. eapply modifies_same; eauto using grows_refl. }
  destruct rest as [|r0 rest1].
  - set (ncap := double_cap (Z.of_nat (length l))).
    destruct (decide (ncap * sizeof_T ≤ a ∧ ncap * sizeof_T ≤ PTRDIFF_MAX))
      as [[Ha Hmax]|Hno].
    + destruct (decide (length (copy_prefix l) = length l)) as [Hall|Hcp].
      * assert (Hcp : copy_prefix l = l)
          by (rewrite copy_prefix_prefix, Hall; apply firstn_all).
        destruct (ensure_capacity_full_grow Hsize _ _ _ _ _ _ _ _ Hholds
                    eq_refl Ha Hmax Hcp) as [Hens Hholds1].
        edestruct insert_idx_outcome_after
          with (st := State h a o0 tr) (ind := ind) (value := value)
          as (l' & rest' & Hh' & Ho' & Hlen');
          [exact (proj1 Hsize)|exact Hv|done|simpl; lia|exact Hens|exact Hholds1
          |exact Hins|exact Hfin|].
        pose proof (fresh_ptr_pos h) as Hpos.
        destruct Hholds1 as (_ & Hcap1 & _).
        assert (Hnn : (length l + S (length (replicate (Z.to_nat ncap - length l - 1)
                                               (@None T))))%nat = Z.to_nat ncap).
        { rewrite length_replicate. unfold ncap, double_cap in *.
          destruct (decide (Z.of_nat (length l) = 0)); lia. }
        eapply (modifies_intro grows); [exact Hholds|exact Hh'|exact Ho'| | | | | | |].
        -- right. eauto.
        -- intros q Hq Hq1. rewrite released_frame by done.
           by rewrite lookup_insert_ne.
        -- lia.
        -- lia.
        -- rewrite Hlen'. exact Hcap1.
        -- right. apply fresh_ptr_fresh.
        -- right. rewrite Hlen'. unfold ncap in Hnn. rewrite Hnn.
           simpl length. rewrite Nat.add_0_r.
           unfold ncap, double_cap. destruct (decide (Z.of_nat (length l) = 0)); lia.
      * eapply Hthrow.
        eapply (ensure_capacity_full_copy_throws Hsize _ _ _ _ _ _ _ _ Hholds
                  eq_refl Ha Hmax).
        intros Heq. by rewrite Heq in Hcp.
    + eapply Hthrow.
      by eapply (ensure_capacity_full_bad_alloc Hsize _ _ _ _ _ _ _ _ Hholds eq_refl).
  - pose proof (ensure_capacity_room Hsize _ _ _ _ _ _ _ _ Hholds ltac:(done)) as Hens.
    edestruct insert_idx_outcome_after
      with (st := State h a o0 tr) (ind := ind) (value := value)
      as (l' & rest' & Hh' & Ho' & Hlen');
      [exact (proj1 Hsize)|exact Hv|done|simpl; lia|exact Hens|exact Hholds
      |exact Hins|exact Hfin|].
    destruct (decide (p = 0)) as [->|Hp]; [by destruct Hbuf|].
    eapply (modifies_intro grows); [exact Hholds|exact Hh'|exact Ho'| | | | | | |].
    + by left.
    + done.
    + done.
    + lia.
    + rewrite Hlen'. exact Hcap.
    + by left.
    + left. by rewrite Hlen'.
Qed.

Lemma push_back_outcome st this p l rest value o st' :
  1 ≤ sizeof_T < 2 ^ 64 → holds st this p l rest →
  push_back this value st = (o, st') → finished o = true →
  modifies grows st st' this.
Proof.
  intros Hsize Hholds Hpush Hfin.
  destruct (insert_end_push_back st this p l rest value Hsize Hholds) as (_ & Ho & Hst).
  rewrite Hpush in Ho, Hst. simpl in Ho, Hst.
  destruct (insert_idx this (Z.of_nat (length l)) value st) as [o1 st1] eqn:Hins.
  simpl in Ho, Hst. subst st1.
  eapply insert_idx_outcome; [done|exact Hholds| |exact Hins|]; [lia|].
  by destruct o1, o.
Qed.

Lemma insert_it_outcome st this p l rest pos value o st' :
  1 ≤ sizeof_T < 2 ^ 64 → holds st this p l rest → 0 ≤ idx pos →
  insert_it this pos value st = (o, st') → finished o = true →
  modifies grows st st' this.
Proof.
  intros Hsize Hholds Hidx Hins Hfin. unfold insert_it in Hins.
  destruct (owner pos =? this); simpl in Hins.
  - by eapply insert_idx_outcome.
  - injection Hins as <- <-. eapply modifies_same; eauto using grows_refl.
Qed.

Lemma shape_holds (l : list T) rest blk :
  shape blk = shape ((Some <$> l) ++ rest) →
  ∃ l' rest', blk = (Some <$> l') ++ rest' ∧ length l' = length l ∧
              length rest' = length rest.
Proof.
  intros Hs. destruct (shape_prefix l blk rest Hs) as (l' & rest' & -> & Hl & Hr).
  apply shape_length in Hr. eauto.
Qed.

(** Everything [erase(pos)] can do to a well-formed sequence. *)
Lemma erase_it_outcome st this p l rest pos o st' :
  1 ≤ sizeof_T → holds st this p l rest → 0 ≤ idx pos →
  erase_it this pos st = (o, st') → finished o = true →
  modifies grows st st' this.
Proof.
  intros Hsize Hholds Hidx.
  pose proof (holds_cap_bound _ _ _ _ _ Hsize Hholds) as Hbound.
  unfold PTRDIFF_MAX in Hbound.
  pose proof Hholds as (Hv & Hcap & Hbuf). destruct st as [h a o0 tr]. simpl in Hv.
  assert (Hsame : ∀ tr', modifies grows (State h a o0 tr) (State h a o0 tr') this).
  { intros tr'. eapply modifies_same; eauto using grows_refl. }
  unfold erase_it, bind.
  destruct (owner pos =? this); simpl; [|intros [= <- <-] _; apply Hsame].
  exec (get_sz_eq h a o0 tr this _ Hv). cbn [sz_ data_ cap_].
  destruct (Z.leb_spec (Z.of_nat (length l)) (idx pos)) as [|Hlt];
    [intros [= <- <-] _; apply Hsame|].
  exec (get_data_eq h a o0 tr this _ Hv). cbn [sz_ data_ cap_].
  destruct (decide (p = 0)) as [->|Hp]; [destruct Hbuf as [-> _]; simpl in Hlt; lia|].
  destruct Hbuf as [_ Hblk]. simpl in Hblk.
  destruct l as [|z l0 _] using rev_ind; [simpl in Hlt; lia|].
  rewrite length_app in *. change (length [z]) with 1%nat in *.
  replace (wrap (Z.of_nat (length l0 + 1) - 1)) with (Z.of_nat (length l0))
    by (rewrite wrap_small; lia).
  assert (Hlast : ∀ (l1 : list T) z1 rest1 a1 tr1,
            length l1 = length l0 → length rest1 = length rest →
            modifies grows (State h a o0 tr)
              (State (<[p := <[length l0 := None]> ((Some <$> l1 ++ [z1]) ++ rest1)]> h) a1
                     (<[this := Vector p (Z.of_nat (length l0))
                                       (Z.of_nat (length l0 + 1 + length rest))]> o0)
                     tr1) this).
  { intros l1 z1 rest1 a1 tr1 Hl1 Hr1.
    replace (<[length l0:=None]> ((Some <$> l1 ++ [z1]) ++ rest1))
      with ((Some <$> l1) ++ None :: rest1).
    2:{ rewrite fmap_app, <- app_assoc. simpl.
        by rewrite insert_middle by (by rewrite length_fmap). }
    eapply (modifies_intro grows _ _ _ _ _ _ _ _ _ h o0 p l1 (None :: rest1));
      [exact Hholds|done| |by left|done|done|simpl; lia| |by left|].
    - cbn [objs]. simpl length. do 3 f_equal; lia.
    - simpl length.
      replace (length l1 + S (length rest1))%nat
        with (length l0 + 1 + length rest)%nat by lia. done.
    - left. rewrite length_app. simpl length. f_equal. lia. }
  destruct (Z.eqb_spec (idx pos) (Z.of_nat (length l0))) as [He|He].
  - assert (Hz : ((Some <$> l0 ++ [z]) ++ rest) !! length l0 = Some (Some z)).
    { rewrite lookup_app_l by (rewrite length_fmap, length_app; simpl; lia).
      rewrite list_lookup_fmap, lookup_app_r by lia. by rewrite Nat.sub_diag. }
    erewrite destroy_at_eq; [|exact Hblk|exact Hz].
    erewrite set_sz_eq by done. cbn [sz_ data_ cap_].
    unfold end_, bind. erewrite get_sz_eq by (by rewrite lookup_insert_eq).
    unfold ret. intros [= <- <-] _. by apply Hlast.
  - match goal with
    | |- context [for_ ?ixs ?body ?st2] =>
        destruct (for_ ixs body st2) as [o3 st3] eqn:Hloop
    end.
    assert (Hst3 : finished o3 = true →
              objs st3 = o0 ∧
              ∃ l1 z1 rest1, heap st3 = <[p := (Some <$> l1 ++ [z1]) ++ rest1]> h ∧
                             length l1 = length l0 ∧ length rest1 = length rest).
    { intros Hfin.
      edestruct (moves_outcome p (λ i, wrap (i + 1))) as (Ho3 & blk3 & Hh3 & Hs3);
        [exact Hloop|exact Hfin|exact Hblk|].
      cbn [heap objs] in *. split; [done|].
      destruct (shape_holds _ _ _ Hs3) as (l1 & rest1 & -> & Hl1 & Hr1).
      destruct l1 as [|z1 l1 _] using rev_ind;
        [rewrite length_app in Hl1; simpl in Hl1; lia|].
      rewrite !length_app in Hl1. simpl in Hl1.
      exists l1, z1, rest1. split; [done|]. split; [lia|done]. }
    destruct o3 as [[]|e| |].
    + destruct (Hst3 eq_refl) as (Ho3 & l1 & z1 & rest1 & Hh3 & Hl1 & Hr1).
      destruct st3 as [h3 a3 o3 tr3]. cbn [heap objs] in *. subst h3 o3.
      erewrite destroy_at_eq; [|by rewrite lookup_insert_eq|].
      2:{ rewrite lookup_app_l by (rewrite length_fmap, length_app; simpl; lia).
          rewrite list_lookup_fmap, lookup_app_r by lia.
          by rewrite Hl1, Nat.sub_diag. }
      erewrite set_sz_eq by done. cbn [sz_ data_ cap_]. unfold ret.
      rewrite insert_insert_eq. intros [= <- <-] _. by apply Hlast.
    + destruct (Hst3 eq_refl) as (Ho3 & l1 & z1 & rest1 & Hh3 & Hl1 & Hr1).
      intros [= <- <-] _.
      eapply (modifies_intro grows _ _ _ _ _ _ _ _ _ h o0 p (l1 ++ [z1]) rest1);
        [exact Hholds|exact Hh3| |by left|done|done| | |by left|].
      * rewrite Ho3, length_app. simpl length. rewrite Hl1, Hr1. by rewrite insert_id.
      * rewrite length_app. simpl. lia.
      * rewrite length_app in *. simpl length in *. by rewrite Hl1, Hr1.
      * left. rewrite !length_app. simpl length. by rewrite Hl1, Hr1.
    + by intros [= <- <-].
    + by intros [= <- <-].
Qed.

Lemma erase_idx_outcome st this p l rest ind o st' :
  1 ≤ sizeof_T → holds st this p l rest → 0 ≤ ind →
  erase_idx this ind st = (o, st') → finished o = true →
  modifies grows st st' this.
Proof.
  intros Hsize Hholds Hind. pose proof Hholds as (Hv & _).
  destruct st as [h a o0 tr]. simpl in Hv.
  unfold erase_idx, bind. exec (get_sz_eq h a o0 tr this _ Hv). cbn [sz_].
  destruct (Z.leb_spec (Z.of_nat (length l)) ind).
  - intros [= <- <-] _. eapply modifies_same; eauto using grows_refl.
  - by apply (erase_it_outcome _ this p l rest (Iterator this ind)).
Qed.

Lemma pop_back_outcome st this p l rest o st' :
  1 ≤ sizeof_T → holds st this p l rest →
  pop_back this st = (o, st') → finished o = true →
  modifies grows st st' this.
Proof.
  intros Hsize Hholds.
  pose proof (holds_cap_bound _ _ _ _ _ Hsize Hholds) as Hbound.
  unfold PTRDIFF_MAX in Hbound.
  pose proof Hholds as (Hv & Hcap & Hbuf). destruct st as [h a o0 tr]. simpl in Hv.
  unfold pop_back, bind. exec (get_sz_eq h a o0 tr this _ Hv). cbn [sz_ data_ cap_].
  destruct (Z.eqb_spec (Z.of_nat (length l)) 0) as [|Hne].
  { intros [= <- <-] _. eapply modifies_same; eauto using grows_refl. }
  destruct (decide (p = 0)) as [->|Hp]; [destruct Hbuf as [-> _]; simpl in Hne; lia|].
  destruct Hbuf as [_ Hblk]. simpl in Hblk.
  destruct l as [|z l0 _] using rev_ind; [simpl in Hne; lia|].
  rewrite length_app in *. change (length [z]) with 1%nat in *.
  replace (wrap (Z.of_nat (length l0 + 1) - 1)) with (Z.of_nat (length l0))
    by (rewrite wrap_small; lia).
  exec (set_sz_eq h a o0 tr this _ Hv). cbn [sz_ data_ cap_].
  erewrite get_sz_eq by (by rewrite lookup_insert_eq).
  erewrite get_data_eq by (by rewrite lookup_insert_eq). cbn [sz_ data_ cap_].
  erewrite destroy_at_eq; [|exact Hblk|].
  2:{ rewrite lookup_app_l by (rewrite length_fmap, length_app; simpl; lia).
      rewrite list_lookup_fmap, lookup_app_r by lia. by rewrite Nat.sub_diag. }
  intros [= <- <-] _.
  replace (<[length l0:=None]> ((Some <$> l0 ++ [z]) ++ rest))
    with ((Some <$> l0) ++ None :: rest).
  2:{ rewrite fmap_app, <- app_assoc. simpl.
      by rewrite insert_middle by (by rewrite length_fmap). }
  eapply (modifies_intro grows _ _ _ _ _ _ _ _ _ h o0 p l0 (None :: rest));
    [exact Hholds|done| |by left|done|done|simpl; lia| |by left|].
  - cbn [objs]. simpl length. do 3 f_equal; lia.
  - simpl length.
    replace (length l0 + S (length rest))%nat
      with (length l0 + 1 + length rest)%nat by lia. done.
  - left. rewrite length_app. simpl length. f_equal. lia.
Qed.

Lemma clear_outcome st this p l rest o st' :
  holds st this p l rest →
  clear this st = (o, st') → finished o = true →
  modifies grows st st' this.
Proof.
  intros Hholds.
  pose proof Hholds as (Hv & Hcap & Hbuf). destruct st as [h a o0 tr]. simpl in Hv.
  unfold clear, bind. exec (get_sz_eq h a o0 tr this _ Hv).
  exec (get_data_eq h a o0 tr this _ Hv). cbn [sz_ data_ cap_].
  destruct (decide (p = 0)) as [->|Hp].
  - destruct Hbuf as [-> ->]. simpl. unfold ret.
    exec (set_sz_eq h a o0 tr this _ Hv). cbn [sz_ data_ cap_].
    intros [= <- <-] _. simpl in Hv.
    eapply modifies_same; [exact Hholds|done| |apply grows_refl].
    cbn [objs]. by rewrite insert_id.
  - destruct Hbuf as [Hpos Hblk]. simpl in Hblk.
    exec (destroy_loop_eq p l 0 [] rest).
    2: done. 2: exact Hblk.
    erewrite set_sz_eq by done. cbn [sz_ data_ cap_].
    intros [= <- <-] _. simpl app.
    eapply (modifies_intro grows _ _ _ _ _ _ _ _ _ h o0 p []
              (replicate (length l) None ++ rest));
      [exact Hholds|done| |by left|done|done| | |by left|].
    + cbn [objs]. simpl length. rewrite length_app, length_replicate. done.
    + simpl length. rewrite length_app, length_replicate. lia.
    + simpl length. rewrite length_app, length_replicate. done.
    + left. simpl length. by rewrite length_app, length_replicate.
Qed.

(** ** Preservation of consistency *)

Lemma holds_move st st' a b p l rest :
  holds st a p l rest →
  objs st' !! b = objs st !! a →
  (p ≠ 0 → heap st' !! p = heap st !! p) →
  holds st' b p l rest.
Proof.
  intros (Hv & Hcap & Hbuf) Ho Hh. unfold holds. rewrite Ho. split; [done|].
  split; [done|]. destruct (decide (p = 0)); [done|]. by rewrite Hh.
Qed.

Lemma holds_buffer st this p l rest :
  holds st this p l rest → p ≠ 0 → is_Some (heap st !! p).
Proof.
  intros (_ & _ & Hbuf) Hp. rewrite decide_False in Hbuf by done.
  destruct Hbuf as [_ Hblk]. eauto.
Qed.

Lemma holds_data st this p l rest v :
  holds st this p l rest → objs st !! this = Some v →
  data_ v = p ∧ 0 ≤ sz_ v ≤ cap_ v ∧ (p = 0 ↔ cap_ v = 0).
Proof.
  intros (Hv & _ & Hbuf) Hv'. rewrite Hv in Hv'. injection Hv' as <-. simpl.
  split; [done|]. split; [lia|].
  destruct (decide (p = 0)) as [->|Hp].
  - destruct Hbuf as [-> ->]. done.
  - split; [done|]. lia.
Qed.

Lemma consistent_modifies R st st' this :
  consistent st → modifies R st st' this → consistent st'.
Proof.
  intros [Hwf Hdis] (v & v' & l' & rest' & Hv & Ho & Hholds' & Hframe & Hfresh & _).
  assert (Hother : ∀ b vb, b ≠ this → objs st !! b = Some vb → data_ vb ≠ 0 →
                           data_ vb ≠ data_ v ∧ data_ vb ≠ data_ v').
  { intros b vb Hb Hvb Hnz. split; [by apply (Hdis b this vb v)|].
    destruct (Hwf b vb Hvb) as (lb & restb & Hhb).
    destruct (holds_buffer _ _ _ _ _ Hhb Hnz) as [blk Hblk].
    destruct Hfresh as [->|[Hf| ->]];
      [by apply (Hdis b this vb v)|congruence|done]. }
  split.
  - intros b vb Hvb. rewrite Ho in Hvb.
    destruct (decide (b = this)) as [->|Hb].
    + rewrite lookup_insert_eq in Hvb. injection Hvb as <-. eauto.
    + rewrite lookup_insert_ne in Hvb by done.
      destruct (Hwf b vb Hvb) as (lb & restb & Hhb). exists lb, restb.
      eapply holds_ext; [exact Hhb|by rewrite Ho, lookup_insert_ne|].
      intros Hnz. destruct (Hother b vb Hb Hvb Hnz). by apply Hframe.
  - intros a b va vb Hab Hva Hvb Hnz. rewrite Ho in Hva, Hvb.
    destruct (decide (a = this)) as [->|Ha], (decide (b = this)) as [->|Hb]; [done| | |].
    + rewrite lookup_insert_eq in Hva. rewrite lookup_insert_ne in Hvb by done.
      injection Hva as <-. intros Heq.
      destruct (Hother b vb Hb Hvb ltac:(congruence)). congruence.
    + rewrite lookup_insert_eq in Hvb. rewrite lookup_insert_ne in Hva by done.
      injection Hvb as <-. by destruct (Hother a va Ha Hva Hnz).
    + rewrite lookup_insert_ne in Hva, Hvb by done. by apply (Hdis a b va vb).
Qed.

(** A new sequence whose buffer, if any, is fresh. *)
Lemma consistent_new st st' this v' l' rest' :
  consistent st → objs st !! this = None →
  objs st' = <[this := v']> (objs st) →
  holds st' this (data_ v') l' rest' →
  (∀ q, q ≠ data_ v' → heap st' !! q = heap st !! q) →
  (data_ v' = 0 ∨ heap st !! data_ v' = None) →
  consistent st'.
Proof.
  intros [Hwf Hdis] Hnone Ho Hholds' Hframe Hfresh.
  assert (Hother : ∀ b vb, objs st !! b = Some vb → data_ vb ≠ 0 →
                           data_ vb ≠ data_ v').
  { intros b vb Hvb Hnz.
    destruct (Hwf b vb Hvb) as (lb & restb & Hhb).
    destruct (holds_buffer _ _ _ _ _ Hhb Hnz) as [blk Hblk].
    destruct Hfresh as [->|Hf]; [done|congruence]. }
  split.
  - intros b vb Hvb. rewrite Ho in Hvb.
    destruct (decide (b = this)) as [->|Hb].
    + rewrite lookup_insert_eq in Hvb. injection Hvb as <-. eauto.
    + rewrite lookup_insert_ne in Hvb by done.
      destruct (Hwf b vb Hvb) as (lb & restb & Hhb). exists lb, restb.
      eapply holds_ext; [exact Hhb|by rewrite Ho, lookup_insert_ne|].
      intros Hnz. apply Hframe. by apply (Hother b vb).
  - intros a b va vb Hab Hva Hvb Hnz. rewrite Ho in Hva, Hvb.
    destruct (decide (a = this)) as [->|Ha], (decide (b = this)) as [->|Hb]; [done| | |].
    + rewrite lookup_insert_eq in Hva. rewrite lookup_insert_ne in Hvb by done.
      injection Hva as <-. intros Heq.
      apply (Hother b vb Hvb); congruence.
    + rewrite lookup_insert_eq in Hvb. rewrite lookup_insert_ne in Hva by done.
      injection Hvb as <-. by apply (Hother a va).
    + rewrite lookup_insert_ne in Hva, Hvb by done. by apply (Hdis a b va vb).
Qed.

Lemma consistent_same st st' :
  consistent st → heap st' = heap st → objs st' = objs st → consistent st'.
Proof.
  intros [Hwf Hdis] Hh Ho. split.
  - intros b vb Hvb. rewrite Ho in Hvb.
    destruct (Hwf b vb Hvb) as (lb & restb & Hhb). exists lb, restb.
    eapply holds_ext; [exact Hhb|by rewrite Ho|by rewrite Hh].
  - intros a b va vb. rewrite Ho. apply Hdis.
Qed.

Lemma consistent_swap h a o tr this rhs va vb tr' :
  this ≠ rhs → o !! this = Some va → o !! rhs = Some vb →
  consistent (State h a o tr) →
  consistent (State h a (<[rhs := va]> (<[this := vb]> o)) tr').
Proof.
  intros Hne Hva Hvb [Hwf Hdis]. cbn [objs heap] in *.
  set (π := λ x : Z, if decide (x = rhs) then this
                     else if decide (x = this) then rhs else x).
  assert (Hπ : ∀ x, (<[rhs := va]> (<[this := vb]> o)) !! x = o !! π x).
  { intros x. unfold π. destruct (decide (x = rhs)) as [->|];
      [by rewrite lookup_insert_eq|].
    rewrite lookup_insert_ne by done.
    destruct (decide (x = this)) as [->|]; [by rewrite lookup_insert_eq|].
    by rewrite lookup_insert_ne. }
  assert (Hinj : ∀ x y, x ≠ y → π x ≠ π y).
  { intros x y Hxy. unfold π. repeat case_decide; congruence. }
  split.
  - intros b v Hv. cbn [objs] in Hv. rewrite Hπ in Hv.
    destruct (Hwf _ _ Hv) as (lb & restb & Hhb). exists lb, restb.
    eapply holds_move; [exact Hhb|cbn [objs]; by rewrite Hπ|done].
  - intros x y vx vy Hxy Hvx Hvy. cbn [objs] in Hvx, Hvy. rewrite Hπ in Hvx, Hvy.
    eapply Hdis; [|exact Hvx|exact Hvy]. by apply Hinj.
Qed.

Lemma new_vector_eq h a o tr :
  new_vector (State h a o tr)
  = (Ret (fresh_ptr o), State h a (<[fresh_ptr o := Vector 0 0 0]> o) tr).
Proof.
  unfold new_vector, default_ctor, bind, alloc_obj. cbn [objs heap avail trace].
  erewrite set_data_eq by (by rewrite lookup_insert_eq). cbn [sz_ data_ cap_].
  erewrite set_sz_eq by (by rewrite lookup_insert_eq). cbn [sz_ data_ cap_].
  erewrite set_cap_eq by (by rewrite lookup_insert_eq). cbn [sz_ data_ cap_].
  by rewrite !insert_insert_eq.
Qed.

Lemma holds_null st this :
  objs st !! this = Some (Vector 0 0 0) → holds st this 0 [] [].
Proof.
  intros Hv. unfold holds. simpl. split; [done|].
  split; [unfold PTRDIFF_MAX; lia|done].
Qed.

(** Everything a copy construction can do. *)
Lemma new_vector_copy_outcome st other po l rest o st' :
  1 ≤ sizeof_T → consistent st → holds st other po l rest →
  new_vector_copy other st = (o, st') → finished o = true →
  consistent st'.
Proof.
  intros Hsize Hcons Hother. destruct st as [h a o0 tr].
  set (bytes := Z.of_nat (length l) * sizeof_T).
  assert (Hok : l = [] ∨ (bytes ≤ a ∧ bytes ≤ PTRDIFF_MAX ∧ copy_prefix l = l) →
                new_vector_copy other (State h a o0 tr) = (o, st') → consistent st').
  { intros Hcase Hcopy.
    destruct (new_vector_copy_success h a o0 tr other po l rest Hsize Hother Hcase)
      as [Heq Hnew].
    rewrite Heq in Hcopy. injection Hcopy as <- <-.
    eapply (consistent_new _ _ (fresh_ptr o0)); [exact Hcons|apply fresh_ptr_fresh
                                                |done|exact Hnew| |].
    - cbn [data_ heap]. intros q Hq. unfold copy_heap, copy_data in *.
      destruct l; [done|]. by rewrite lookup_insert_ne.
    - cbn [data_ heap]. unfold copy_data. destruct l; [by left|right].
      apply fresh_ptr_fresh. }
  destruct (decide (length l = 0%nat)) as [H0|H0].
  { intros Hcopy _. apply Hok; [left; by apply nil_length_inv|done]. }
  assert (Hl : l ≠ []) by (by intros ->).
  destruct (decide (bytes ≤ a ∧ bytes ≤ PTRDIFF_MAX)) as [[Ha Hmax]|Hno].
  - destruct (decide (length (copy_prefix l) = length l)) as [Hall|Hcp].
    + assert (Hcp : copy_prefix l = l)
        by (rewrite copy_prefix_prefix, Hall; apply firstn_all).
      intros Hcopy _. apply Hok; [by right|done].
    + erewrite new_vector_copy_throws; try done.
      * intros [= <- <-] _. by eapply consistent_same.
      * intros Heq. by rewrite Heq in Hcp.
  - erewrite new_vector_copy_bad_alloc; try done.
    intros [= <- <-] _. by eapply consistent_same.
Qed.

(** Everything a copy assignment can do. *)
Lemma assign_outcome st this pt lt restt other po l rest o st' :
  1 ≤ sizeof_T → consistent st →
  holds st this pt lt restt → holds st other po l rest →
  assign this other st = (o, st') → finished o = true →
  consistent st'.
Proof.
  intros Hsize Hcons Hthis Hother. destruct st as [h a o0 tr].
  destruct (decide (this = other)) as [->|Hne].
  { rewrite assign_self. intros [= <- <-] _. done. }
  set (bytes := Z.of_nat (length l) * sizeof_T).
  assert (Hok : l = [] ∨ (bytes ≤ a ∧ bytes ≤ PTRDIFF_MAX ∧ copy_prefix l = l) →
                assign this other (State h a o0 tr) = (o, st') → consistent st').
  { intros Hcase Hassign.
    destruct (assign_ok h a o0 tr this pt lt restt other po l rest
                Hsize Hne Hthis Hother Hcase) as [Heq Hnew].
    rewrite Heq in Hassign. injection Hassign as <- <-.
    pose proof Hthis as (Hv & _). simpl in Hv.
    eapply (consistent_modifies (λ _ _, True) _ _ this); [exact Hcons|].
    eexists _, (Vector (copy_data h l) _ _), l, []. cbn [objs heap data_ cap_].
    split; [exact Hv|]. split; [done|]. split; [exact Hnew|]. split; [|split; [|done]].
    - intros q Hq Hq'. rewrite released_frame by done.
      unfold copy_heap, copy_data in *. destruct l; [done|].
      by rewrite lookup_insert_ne.
    - unfold copy_data. destruct l; [by right; right|right; left].
      apply fresh_ptr_fresh. }
  destruct (decide (length l = 0%nat)) as [H0|H0].
  { intros Hassign _. apply Hok; [left; by apply nil_length_inv|done]. }
  assert (Hl : l ≠ []) by (by intros ->).
  destruct (decide (bytes ≤ a ∧ bytes ≤ PTRDIFF_MAX)) as [[Ha Hmax]|Hno].
  - destruct (decide (length (copy_prefix l) = length l)) as [Hall|Hcp].
    + assert (Hcp : copy_prefix l = l)
        by (rewrite copy_prefix_prefix, Hall; apply firstn_all).
      intros Hassign _. apply Hok; [by right|done].
    + erewrite assign_copy_fails; [|done|eapply new_vector_copy_throws; try done].
      * intros [= <- <-] _. by eapply consistent_same.
      * intros Heq. by rewrite Heq in Hcp.
  - erewrite assign_copy_fails; [|done|eapply new_vector_copy_bad_alloc; try done].
    intros [= <- <-] _. by eapply consistent_same.
Qed.

(** ** The invariants of reachable states *)

Lemma finished_void {A} (o : outcome A) : finished (void o) = finished o.
Proof. by destruct o. Qed.

Lemma is_size_t_range x : is_size_t x = true → 0 ≤ x < 2 ^ 64.
Proof. unfold is_size_t. rewrite andb_true_iff, Z.leb_le, Z.ltb_lt. done. Qed.

Section step.
Hypothesis sizeof_T_range : 1 ≤ sizeof_T < 2 ^ 64.

Lemma perform_modifies c st r st' this p l rest :
  single c = Some this → holds st this p l rest → well_typed c = true →
  perform c st = (r, st') → finished r = true →
  modifies grows st st' this.
Proof.
  intros Hc Hholds Hty Hperf Hfin.
  destruct c; simpl in Hc; try done; injection Hc as ->; simpl in Hperf, Hty.
  - by eapply push_back_outcome.
  - eapply pop_back_outcome; [lia|done..].
  - destruct (insert_idx this ind value st) as [o1 st1] eqn:Hop.
    simpl in Hperf. injection Hperf as <- <-. rewrite finished_void in Hfin.
    apply is_size_t_range in Hty.
    eapply insert_idx_outcome; [done|exact Hholds| |exact Hop|done]. lia.
  - destruct (insert_it this pos value st) as [o1 st1] eqn:Hop.
    simpl in Hperf. injection Hperf as <- <-. rewrite finished_void in Hfin.
    apply is_size_t_range in Hty.
    eapply insert_it_outcome; [done|exact Hholds| |exact Hop|done]. lia.
  - destruct (erase_idx this ind st) as [o1 st1] eqn:Hop.
    simpl in Hperf. injection Hperf as <- <-. rewrite finished_void in Hfin.
    apply is_size_t_range in Hty.
    eapply erase_idx_outcome; [|exact Hholds| |exact Hop|done]; lia.
  - destruct (erase_it this pos st) as [o1 st1] eqn:Hop.
    simpl in Hperf. injection Hperf as <- <-. rewrite finished_void in Hfin.
    apply is_size_t_range in Hty.
    eapply erase_it_outcome; [|exact Hholds| |exact Hop|done]; lia.
  - by eapply clear_outcome.
Qed.

Lemma single_target c this : single c = Some this → targets c = [this].
Proof. destruct c; simpl; by intros [= ->]. Qed.

Lemma perform_consistent c st r st' :
  consistent st → well_typed c = true →
  Forall (λ x, is_Some (objs st !! x)) (targets c) →
  perform c st = (r, st') → finished r = true →
  consistent st'.
Proof.
  intros Hcons Hty Htargets Hperf Hfin.
  destruct (single c) as [this|] eqn:Hc.
  { rewrite (single_target _ _ Hc) in Htargets.
    apply Forall_cons in Htargets as [[v Hv] _].
    destruct (proj1 Hcons this v Hv) as (l & rest & Hholds).
    eapply consistent_modifies; [exact Hcons|].
    by eapply perform_modifies. }
  destruct c; simpl in Hc; try done; simpl in Hperf, Htargets.
  - destruct st as [h a o tr]. rewrite new_vector_eq in Hperf.
    simpl in Hperf. injection Hperf as <- <-.
    eapply (consistent_new _ _ (fresh_ptr o) (Vector 0 0 0) [] []);
      [exact Hcons|apply fresh_ptr_fresh|done| |done|by left].
    apply holds_null. cbn [objs]. by rewrite lookup_insert_eq.
  - apply Forall_cons in Htargets as [[v Hv] _].
    destruct (proj1 Hcons other v Hv) as (l & rest & Hholds).
    destruct (new_vector_copy other st) as [o1 st1] eqn:Hop.
    simpl in Hperf. injection Hperf as <- <-. rewrite finished_void in Hfin.
    eapply new_vector_copy_outcome; [|exact Hcons|exact Hholds|exact Hop|done]. lia.
  - apply Forall_cons in Htargets as [[v Hv] Htargets].
    apply Forall_cons in Htargets as [[w Hw] _].
    destruct (proj1 Hcons this v Hv) as (lt & restt & Hthis).
    destruct (proj1 Hcons other w Hw) as (l & rest & Hother).
    destruct (assign this other st) as [o1 st1] eqn:Hop.
    simpl in Hperf. injection Hperf as <- <-. rewrite finished_void in Hfin.
    eapply assign_outcome; [|exact Hcons|exact Hthis|exact Hother|exact Hop|done]. lia.
  - apply Forall_cons in Htargets as [[v Hv] Htargets].
    apply Forall_cons in Htargets as [[w Hw] _].
    destruct st as [h a o tr]. cbn [objs] in *.
    destruct (decide (this = rhs)) as [->|Hne].
    + erewrite swap_self in Hperf by done. by injection Hperf as <- <-.
    + erewrite swap_eq in Hperf by done. injection Hperf as <- <-.
      by apply (consistent_swap h a o tr this rhs v w tr).
Qed.

Lemma pow2_double c : pow2_or_zero c → pow2_or_zero (double_cap c).
Proof.
  unfold double_cap. intros [->|[k ->]]; right.
  - exists 0%nat. done.
  - exists (S k). rewrite decide_False by lia.
    rewrite Nat2Z.inj_succ, Z.pow_succ_r by lia. done.
Qed.

Lemma perform_pow2 c st r st' :
  consistent st → all_pow2 st → is_copy c = false → well_typed c = true →
  Forall (λ x, is_Some (objs st !! x)) (targets c) →
  perform c st = (r, st') → finished r = true →
  all_pow2 st'.
Proof.
  intros Hcons Hpow Hcopy Hty Htargets Hperf Hfin.
  destruct (single c) as [this|] eqn:Hc.
  { rewrite (single_target _ _ Hc) in Htargets.
    apply Forall_cons in Htargets as [[v Hv] _].
    destruct (proj1 Hcons this v Hv) as (l & rest & Hholds).
    destruct (perform_modifies c st r st' this _ l rest Hc Hholds Hty Hperf Hfin)
      as (v1 & v' & _ & _ & Hv1 & Ho & _ & _ & _ & Hgrows).
    intros b vb Hvb. rewrite Ho in Hvb.
    destruct (decide (b = this)) as [->|Hb].
    - rewrite lookup_insert_eq in Hvb. injection Hvb as <-.
      destruct Hgrows as [->| ->]; [by eapply Hpow|].
      apply pow2_double. by eapply Hpow.
    - rewrite lookup_insert_ne in Hvb by done. by eapply Hpow. }
  destruct c; simpl in Hc, Hcopy; try done; simpl in Hperf, Htargets.
  - destruct st as [h a o tr]. rewrite new_vector_eq in Hperf.
    simpl in Hperf. injection Hperf as <- <-.
    intros b vb Hvb. cbn [objs] in Hvb.
    destruct (decide (b = fresh_ptr o)) as [->|Hb].
    + rewrite lookup_insert_eq in Hvb. injection Hvb as <-. by left.
    + rewrite lookup_insert_ne in Hvb by done. by eapply Hpow.
  - apply Forall_cons in Htargets as [[v Hv] Htargets].
    apply Forall_cons in Htargets as [[w Hw] _].
    destruct st as [h a o tr]. cbn [objs] in *.
    destruct (decide (this = rhs)) as [->|Hne].
    + erewrite swap_self in Hperf by done. by injection Hperf as <- <-.
    + erewrite swap_eq in Hperf by done. injection Hperf as <- <-.
      intros b vb Hvb. cbn [objs] in Hvb.
      destruct (decide (b = rhs)) as [->|Hb].
      * rewrite lookup_insert_eq in Hvb. injection Hvb as <-. by eapply (Hpow this).
      * rewrite lookup_insert_ne in Hvb by done.
        destruct (decide (b = this)) as [->|Hb'].
        -- rewrite lookup_insert_eq in Hvb. injection Hvb as <-. by eapply (Hpow rhs).
        -- rewrite lookup_insert_ne in Hvb by done. by eapply Hpow.
Qed.

Lemma reachable_consistent allowed st : reachable allowed st → consistent st.
Proof.
  induction 1 as [a|st c r st' _ IH _ Hty Htargets Hperf Hfin].
  - split; intros ?; intros; by simplify_map_eq.
  - by eapply perform_consistent.
Qed.

Lemma reachable_pow2 st :
  reachable (λ c, negb (is_copy c)) st → all_pow2 st.
Proof.
  induction 1 as [a|st c r st' Hreach IH Hallowed Hty Htargets Hperf Hfin].
  - intros ? ? ?. by simplify_map_eq.
  - eapply perform_pow2; try done.
    + by eapply reachable_consistent.
    + by destruct (is_copy c).
Qed.

End step.

(** C4 (amended): every sequence of a state reachable from the empty machine
    by any finite sequence of the public operations (push_back, pop_back,
    insert, erase, clear, copy construction, copy assignment, swap), whether
    they return or throw, satisfies [0 <= sz <= cap] and has a null buffer
    handle if and only if [cap = 0]; when no copy construction or copy
    assignment is among the operations, [cap] is zero or a power of two. *)
Theorem C4_invariants :
  1 ≤ sizeof_T < 2 ^ 64 →
  (∀ st this v,
     reachable (λ _, true) st → objs st !! this = Some v →
     0 ≤ sz_ v ≤ cap_ v ∧ (data_ v = 0 ↔ cap_ v = 0)) ∧
  (∀ st this v,
     reachable (λ c, negb (is_copy c)) st → objs st !! this = Some v →
     pow2_or_zero (cap_ v)).
Proof.
  intros Hsize. split.
  - intros st this v Hreach Hv.
    destruct (reachable_consistent Hsize _ _ Hreach) as [Hwf _].
    destruct (Hwf this v Hv) as (l & rest & Hholds).
    destruct (holds_data _ _ _ _ _ _ Hholds Hv) as (_ & Hsz & Hnull). done.
  - intros st this v Hreach Hv. by eapply (reachable_pow2 Hsize).
Qed.

(** [operator=] on two different objects is: construct a temporary copy,
    swap with it, let it go out of scope. *)
Lemma assign_unfold this other st :
  this ≠ other →
  assign this other st
  = (let! tmp := new_vector_copy other in
     swap this tmp ;; delete_vector tmp ;; ret this) st.
Proof. intros Hne. unfold assign. by destruct (Z.eqb_spec this other). Qed.

(** C5: for every source sequence, copy construction produces a deep copy
    holding an independent buffer whose capacity equals the source's size
    (not the source's capacity); and copy assignment, implemented by
    constructing a temporary copy then swapping, leaves the target sequence
    unchanged when copying any element fails. *)
Theorem C5_copy st other po l rest :
  1 ≤ sizeof_T →
  holds st other po l rest →
  let bytes := Z.of_nat (length l) * sizeof_T in
  (l = [] ∨ (bytes ≤ avail st ∧ bytes ≤ PTRDIFF_MAX ∧ copy_prefix l = l) →
   ∃ st' d,
     new_vector_copy other st = (Ret (fresh_ptr (objs st)), st') ∧
     objs st !! fresh_ptr (objs st) = None ∧
     objs st' !! fresh_ptr (objs st)
       = Some (Vector d (Z.of_nat (length l)) (Z.of_nat (length l))) ∧
     holds st' (fresh_ptr (objs st)) d l [] ∧
     holds st' other po l rest ∧
     (l ≠ [] → d ≠ 0 ∧ d ≠ po ∧ heap st !! d = None)) ∧
  (∀ this pt lt restt,
     this ≠ other → holds st this pt lt restt →
     assign this other st
     = (let! tmp := new_vector_copy other in
        swap this tmp ;; delete_vector tmp ;; ret this) st ∧
     (l ≠ [] → bytes ≤ avail st → bytes ≤ PTRDIFF_MAX → copy_prefix l ≠ l →
      ∃ st', assign this other st = (Throw elem_exn, st') ∧
             objs st' = objs st ∧ heap st' = heap st ∧
             holds st' this pt lt restt) ∧
     (l = [] ∨ (bytes ≤ avail st ∧ bytes ≤ PTRDIFF_MAX ∧ copy_prefix l = l) →
      ∃ st' d, assign this other st = (Ret this, st') ∧
               objs st' !! this
                 = Some (Vector d (Z.of_nat (length l)) (Z.of_nat (length l))) ∧
               holds st' this d l [])).
Proof.
  intros Hsize Hother bytes. destruct st as [h a o tr]. cbn [objs heap avail].
  split.
  - intros Hcase.
    destruct (new_vector_copy_success h a o tr other po l rest Hsize Hother Hcase)
      as [Hcopy Hnew].
    pose proof (fresh_ptr_fresh o) as Hfresh.
    pose proof (fresh_ptr_fresh h) as Hfresh'.
    pose proof Hother as (Hv & Hcap & Hbuf). simpl in Hv.
    eexists _, (copy_data h l). split; [exact Hcopy|]. split; [done|].
    split; [cbn [objs]; by rewrite lookup_insert_eq|]. split; [exact Hnew|].
    assert (Hpo : po ≠ 0 → copy_heap h l !! po = h !! po).
    { intros Hp. rewrite decide_False in Hbuf by done. destruct Hbuf as [_ Hblk].
      simpl in Hblk. unfold copy_heap. destruct l; [done|].
      rewrite lookup_insert_ne; [done|]. intros Heq. rewrite Heq in Hfresh'.
      congruence. }
    split.
    + unfold holds. cbn [objs heap].
      rewrite lookup_insert_ne by (intros Heq; rewrite Heq in Hfresh; congruence).
      split; [done|]. split; [done|].
      destruct (decide (po = 0)); [done|]. by rewrite Hpo.
    + intros Hl. assert (Hd : copy_data h l = fresh_ptr h) by (by destruct l).
      rewrite Hd. pose proof (fresh_ptr_pos h). split; [lia|]. split; [|done].
      intros Heq. destruct (decide (po = 0)); [lia|].
      destruct Hbuf as [_ Hblk]. simpl in Hblk. rewrite <- Heq in Hblk. congruence.
  - intros this pt lt restt Hne Hthis. split; [by apply assign_unfold|]. split.
    + intros Hl Ha Hmax Hthrow. eexists. split.
      * apply assign_copy_fails; [done|].
        by eapply new_vector_copy_throws.
      * cbn [objs heap]. split; [done|]. split; [done|].
        destruct Hthis as (? & ? & ?). done.
    + intros Hcase.
      destruct (assign_ok h a o tr this pt lt restt other po l rest
                  Hsize Hne Hthis Hother Hcase) as [Hassign Hnew].
      eexists _, _. split; [exact Hassign|]. split; [|exact Hnew].
      cbn [objs]. by rewrite lookup_insert_eq.
Qed.

(** ** Element access *)

Lemma holds_slot st this p l rest (n : nat) x :
  holds st this p l rest → l !! n = Some x →
  ∃ blk, heap st !! p = Some blk ∧ blk !! n = Some (Some x).
Proof.
  intros (_ & _ & Hbuf) Hx.
  destruct (decide (p = 0)); [by destruct Hbuf as [-> _]|].
  destruct Hbuf as [_ Hblk]. eexists. split; [exact Hblk|].
  rewrite lookup_app_l by (rewrite length_fmap; by eapply lookup_lt_Some).
  by rewrite list_lookup_fmap, Hx.
Qed.

Lemma holds_sz st this p l rest :
  holds st this p l rest → get_sz this st = (Ret (Z.of_nat (length l)), st).
Proof.
  intros (Hv & _). destruct st as [h a o tr].
  by rewrite (get_sz_eq h a o tr this _ Hv).
Qed.

(** Reading slot [pos] of a sequence after a bounds check that throws [e]. *)
Lemma checked_load_eq (e : exn) st this p l rest pos :
  holds st this p l rest → 0 ≤ pos →
  (let! sz := get_sz this in
   if sz <=? pos then throw e else
   let! d := get_data this in load d pos) st
  = (match l !! Z.to_nat pos with Some x => Ret x | None => Throw e end, st).
Proof.
  intros Hholds Hpos. pose proof Hholds as (Hv & _).
  destruct st as [h a o tr]. simpl in Hv.
  unfold bind. exec (get_sz_eq h a o tr this _ Hv). cbn [sz_ data_ cap_].
  destruct (Z.leb_spec (Z.of_nat (length l)) pos) as [Hge|Hlt].
  - by rewrite lookup_ge_None_2 by lia.
  - destruct (lookup_lt_is_Some_2 l (Z.to_nat pos)) as [x Hx]; [lia|]. rewrite Hx.
    destruct (holds_slot _ _ _ _ _ _ _ Hholds Hx) as (blk & Hblk & Hslot).
    exec (get_data_eq h a o tr this _ Hv). cbn [sz_ data_ cap_].
    replace pos with (Z.of_nat (Z.to_nat pos)) at 1 by lia.
    by erewrite load_eq.
Qed.

(** X1: [at(pos)] and [operator[](pos)] are both bounds-checked: on a
    sequence of [sz] elements they return element [pos] when [pos < sz] and
    throw [index_out_of_bound] when [pos >= sz]; neither changes anything. *)
Theorem X1_at_subscript st this p l rest pos :
  holds st this p l rest → 0 ≤ pos →
  at_ this pos st
  = (match l !! Z.to_nat pos with
     | Some x => Ret x
     | None => Throw index_out_of_bound
     end, st) ∧
  subscript this pos st = at_ this pos st ∧
  (l !! Z.to_nat pos = None ↔ Z.of_nat (length l) ≤ pos).
Proof.
  intros Hholds Hpos. split; [exact (checked_load_eq _ _ _ _ _ _ _ Hholds Hpos)|]. split; [done|].
  rewrite lookup_ge_None. lia.
Qed.

(** X2: [front()] and [back()] throw [container_is_empty] on an empty
    sequence and otherwise return the first and the last element; neither
    changes anything. *)
Theorem X2_front_back st this p l rest :
  1 ≤ sizeof_T → holds st this p l rest →
  front this st
  = (match l with [] => Throw container_is_empty | x :: _ => Ret x end, st) ∧
  back this st
  = (match last l with None => Throw container_is_empty | Some x => Ret x end, st).
Proof.
  intros Hsize Hholds.
  pose proof (holds_cap_bound _ _ _ _ _ Hsize Hholds) as Hbound.
  unfold PTRDIFF_MAX in Hbound.
  pose proof Hholds as (Hv & _). destruct st as [h a o tr]. simpl in Hv. split.
  - unfold front, bind. exec (get_sz_eq h a o tr this _ Hv). cbn [sz_ data_ cap_].
    destruct l as [|x l0]; [done|].
    destruct (Z.eqb_spec (Z.of_nat (length (x :: l0))) 0) as [H0|_]; [simpl in H0; lia|].
    destruct (holds_slot _ _ _ _ _ 0%nat x Hholds eq_refl) as (blk & Hblk & Hslot).
    exec (get_data_eq h a o tr this _ Hv). cbn [sz_ data_ cap_].
    exact (load_eq h a o tr p blk Hblk 0%nat x Hslot).
  - unfold back, bind. exec (get_sz_eq h a o tr this _ Hv). cbn [sz_ data_ cap_].
    destruct l as [|z l0 _] using rev_ind; [done|].
    rewrite last_snoc.
    destruct (Z.eqb_spec (Z.of_nat (length (l0 ++ [z]))) 0) as [H0|_];
      [rewrite length_app in H0; simpl in H0; lia|].
    assert (Hz : (l0 ++ [z]) !! length l0 = Some z)
      by (by rewrite lookup_app_r, Nat.sub_diag by lia).
    destruct (holds_slot _ _ _ _ _ _ _ Hholds Hz) as (blk & Hblk & Hslot).
    exec (get_data_eq h a o tr this _ Hv). cbn [sz_ data_ cap_].
    rewrite length_app in *. change (length [z]) with 1%nat in *.
    replace (wrap (Z.of_nat (length l0 + 1) - 1)) with (Z.of_nat (length l0))
      by (rewrite wrap_small; lia).
    by erewrite load_eq.
Qed.

(** X3: [size()] is the number of elements, [empty()] says whether there is
    none, [begin()] is the iterator with index 0 and [end()] the one with
    index [size()]; so [begin() == end()] exactly when the sequence is empty.
    None of them changes anything. *)
Theorem X3_begin_end st this p l rest :
  holds st this p l rest →
  size this st = (Ret (Z.of_nat (length l)), st) ∧
  empty this st = (Ret (bool_decide (l = [])), st) ∧
  begin_ this st = (Ret (Iterator this 0), st) ∧
  end_ this st = (Ret (Iterator this (Z.of_nat (length l))), st) ∧
  (iterator_eqb (Iterator this 0) (Iterator this (Z.of_nat (length l))) = true ↔ l = []) ∧
  iterator_neqb (Iterator this 0) (Iterator this (Z.of_nat (length l)))
  = negb (bool_decide (l = [])).
Proof.
  intros Hholds. pose proof (holds_sz _ _ _ _ _ Hholds) as Hsz.
  assert (Hnil : (Z.of_nat (length l) =? 0) = bool_decide (l = [])).
  { destruct l as [|x l0]; [done|]. rewrite bool_decide_eq_false_2 by done.
    destruct (Z.eqb_spec (Z.of_nat (length (x :: l0))) 0) as [H0|]; [|done].
    simpl in H0. lia. }
  assert (Heq : iterator_eqb (Iterator this 0) (Iterator this (Z.of_nat (length l)))
                = bool_decide (l = [])).
  { unfold iterator_eqb. cbn [owner idx]. rewrite Z.eqb_refl. cbn [andb].
    by rewrite Z.eqb_sym. }
  split; [exact Hsz|]. split.
  { unfold empty, bind. rewrite Hsz. unfold ret. by rewrite Hnil. }
  split; [done|]. split.
  { unfold end_, bind. by rewrite Hsz. }
  split.
  - rewrite Heq. apply bool_decide_eq_true.
  - unfold iterator_neqb. by rewrite Heq.
Qed.

(** ** Iterators *)

Lemma deref_eq st this p l rest i :
  holds st this p l rest → this ≠ 0 → 0 ≤ i →
  deref (Iterator this i) st
  = (match l !! Z.to_nat i with
     | Some x => Ret x
     | None => Throw invalid_iterator
     end, st).
Proof.
  intros Hholds Hthis Hi. unfold deref. cbn [owner idx].
  destruct (Z.eqb_spec this 0); [done|].
  exact (checked_load_eq invalid_iterator _ _ _ _ _ _ Hholds Hi).
Qed.

(** X4: dereferencing an iterator of a sequence yields element [idx] when
    [idx < size()] and throws [invalid_iterator] when [idx >= size()], the
    end iterator included; an iterator without owner always throws
    [invalid_iterator].  Nothing is changed. *)
Theorem X4_deref st this p l rest i :
  holds st this p l rest → this ≠ 0 → 0 ≤ i →
  deref (Iterator this i) st
  = (match l !! Z.to_nat i with
     | Some x => Ret x
     | None => Throw invalid_iterator
     end, st) ∧
  deref (Iterator this (Z.of_nat (length l))) st = (Throw invalid_iterator, st) ∧
  ∀ j, deref (Iterator 0 j) st = (Throw invalid_iterator, st).
Proof.
  intros Hholds Hthis Hi. split; [exact (deref_eq _ _ _ _ _ _ Hholds Hthis Hi)|].
  split; [|done].
  erewrite deref_eq; [|exact Hholds|done|lia].
  by rewrite Nat2Z.id, lookup_ge_None_2.
Qed.

Lemma wrap_add_sub i n : 0 ≤ i < 2 ^ 64 → wrap (wrap (i + n) - n) = i.
Proof.
  intros Hi. unfold wrap. rewrite Zminus_mod_idemp_l.
  replace (i + n - n) with i by lia. by apply Z.mod_small.
Qed.

Lemma wrap_sub_add i n : 0 ≤ i < 2 ^ 64 → wrap (wrap (i - n) + n) = i.
Proof.
  intros Hi. unfold wrap. rewrite Zplus_mod_idemp_l.
  replace (i - n + n) with i by lia. by apply Z.mod_small.
Qed.

(** X5: iterator arithmetic is arithmetic modulo 2^64 on the index and keeps
    the owner: [(it + n) - n] and [(it - n) + n] are [it] again, also when
    the index wraps around; [++] and [--] undo each other; [+=] and [-=]
    give what [+] and [-] give; the postfix forms return the old value. *)
Theorem X5_iterator_arithmetic it n :
  is_size_t (idx it) = true →
  it_sub (it_add it n) n = it ∧
  it_add (it_sub it n) n = it ∧
  it_pre_dec (it_pre_inc it) = it ∧
  it_pre_inc (it_pre_dec it) = it ∧
  it_add_assign it n = it_add it n ∧
  it_sub_assign it n = it_sub it n ∧
  it_pre_inc it = it_add it 1 ∧
  it_post_inc it = (it, it_add it 1) ∧
  it_post_dec it = (it, it_sub it 1) ∧
  owner (it_add it n) = owner it.
Proof.
  intros Hidx. apply is_size_t_range in Hidx. destruct it as [ow i].
  unfold it_sub, it_add, it_pre_dec, it_pre_inc, it_post_inc, it_post_dec,
    it_add_assign, it_sub_assign.
  cbn [owner idx] in *.
  rewrite !wrap_add_sub, !wrap_sub_add by done. done.
Qed.

Lemma to_int_small x : 0 ≤ x < 2 ^ 31 → to_int x = x.
Proof. intros Hx. unfold to_int. rewrite Z.mod_small; lia. Qed.

Lemma to_int_mod x : (to_int x - x) `mod` 2 ^ 32 = 0.
Proof.
  unfold to_int. rewrite (Z.mod_eq (x + 2 ^ 31)) by lia.
  replace (x + 2 ^ 31 - 2 ^ 32 * ((x + 2 ^ 31) `div` 2 ^ 32) - 2 ^ 31 - x)
    with (- ((x + 2 ^ 31) `div` 2 ^ 32) * 2 ^ 32) by lia.
  apply Z.mod_mul. lia.
Qed.

(** X6: the difference of two iterators throws [invalid_iterator] exactly
    when their owners differ.  It is computed on the indices cast to [int]:
    for indices below 2^31 it is their difference, so [end() - begin()] is
    the size of such a sequence; in general a result is the difference of
    the indices only modulo 2^32. *)
Theorem X6_iterator_difference a b :
  (it_diff a b = Throw invalid_iterator ↔ owner a ≠ owner b) ∧
  (owner a = owner b → 0 ≤ idx a < 2 ^ 31 → 0 ≤ idx b < 2 ^ 31 →
   it_diff a b = Ret (idx a - idx b)) ∧
  (∀ d, it_diff a b = Ret d →
        owner a = owner b ∧ (d - (idx a - idx b)) `mod` 2 ^ 32 = 0).
Proof.
  unfold it_diff. split; [|split].
  - destruct (Z.eqb_spec (owner a) (owner b)) as [Heq|Hne]; simpl.
    + split; [|done]. by destruct (is_int _).
    + done.
  - intros Heq Ha Hb. rewrite Heq, Z.eqb_refl. simpl.
    rewrite !to_int_small by done.
    assert (is_int (idx a - idx b) = true) as ->; [|done].
    unfold is_int. apply andb_true_iff.
    split; [apply Z.leb_le|apply Z.ltb_lt]; lia.
  - intros d. destruct (Z.eqb_spec (owner a) (owner b)) as [Heq|Hne]; simpl; [|done].
    destruct (is_int _); [|done]. intros [= <-]. split; [done|].
    pose proof (to_int_mod (idx a)) as Ha. pose proof (to_int_mod (idx b)) as Hb.
    replace (to_int (idx a) - to_int (idx b) - (idx a - idx b))
      with ((to_int (idx a) - idx a) - (to_int (idx b) - idx b)) by lia.
    rewrite Zminus_mod, Ha, Hb. done.
Qed.

(** X7: for every [int] [n], dereferencing [begin() + n] yields element [n]
    when [0 <= n < size()] and throws [invalid_iterator] otherwise: stepping
    back from [begin()] wraps the index around to one that no sequence
    reaches. *)
Theorem X7_begin_plus st this p l rest n :
  1 ≤ sizeof_T → holds st this p l rest → this ≠ 0 → is_int n = true →
  (0 ≤ n < Z.of_nat (length l) →
   ∃ x, l !! Z.to_nat n = Some x ∧
        deref (it_add (Iterator this 0) n) st = (Ret x, st)) ∧
  (¬ 0 ≤ n < Z.of_nat (length l) →
   deref (it_add (Iterator this 0) n) st = (Throw invalid_iterator, st)).
Proof.
  intros Hsize Hholds Hthis Hn.
  pose proof (holds_cap_bound _ _ _ _ _ Hsize Hholds) as Hbound.
  unfold PTRDIFF_MAX in Hbound.
  unfold is_int in Hn. apply andb_true_iff in Hn as [Hlo Hhi].
  apply Z.leb_le in Hlo. apply Z.ltb_lt in Hhi.
  unfold it_add. cbn [owner idx]. rewrite Z.add_0_l.
  pose proof (wrap_range n) as Hw.
  erewrite deref_eq; [|exact Hholds|done|lia].
  split; intros Hr.
  - rewrite wrap_small by lia.
    destruct (lookup_lt_is_Some_2 l (Z.to_nat n)) as [x Hx]; [lia|].
    exists x. by rewrite Hx.
  - rewrite lookup_ge_None_2; [done|].
    destruct (decide (0 ≤ n)).
    + rewrite wrap_small by lia. lia.
    + assert (wrap n = n + 2 ^ 64); [|lia].
      unfold wrap. symmetry. apply (Z.mod_unique_pos _ _ (-1)); lia.
Qed.

(** ** [push_back] and [pop_back] *)

(** What [push_back] does after [ensure_capacity] has returned. *)
Lemma push_back_after st this v0 value h1 a1 o1 tr1 p1 l r0 rest1 :
  1 ≤ sizeof_T →
  objs st !! this = Some v0 → sz_ v0 = Z.of_nat (length l) →
  ensure_capacity this (wrap (sz_ v0 + 1)) st = (Ret tt, State h1 a1 o1 tr1) →
  holds (State h1 a1 o1 tr1) this p1 l (r0 :: rest1) →
  push_back this value st
  = if copy_throws value then (Throw elem_exn, State h1 a1 o1 tr1)
    else (Ret tt,
          State (<[p1 := (Some <$> l ++ [value]) ++ rest1]> h1) a1
                (<[this := Vector p1 (Z.of_nat (S (length l)))
                                  (Z.of_nat (length l + S (length rest1)))]> o1)
                (tr1 ++ [EvConstruct p1 (Z.of_nat (length l)) value])).
Proof.
  intros Hsize Hv0 Hsz Hens Hholds.
  pose proof (holds_cap_bound _ _ _ _ _ Hsize Hholds) as Hbound.
  unfold PTRDIFF_MAX in Hbound. simpl length in Hbound.
  destruct Hholds as (Hv & Hcap & Hbuf).
  destruct (decide (p1 = 0)) as [->|Hp]; [by destruct Hbuf|].
  destruct Hbuf as [_ Hblk]. simpl in Hblk, Hv.
  destruct st as [h a o tr]. simpl in Hv0.
  unfold push_back, bind. exec (get_sz_eq h a o tr this _ Hv0).
  rewrite Hens. exec (get_sz_eq h1 a1 o1 tr1 this _ Hv).
  exec (get_data_eq h1 a1 o1 tr1 this _ Hv). cbn [sz_ data_ cap_].
  destruct (copy_throws value) eqn:Hcopy.
  - erewrite construct_at_throw;
      [done|done|rewrite length_app, length_fmap; simpl; lia|done].
  - erewrite construct_at_eq; [|done|rewrite length_app, length_fmap; simpl; lia|done].
    replace (wrap (Z.of_nat (length l) + 1)) with (Z.of_nat (S (length l)))
      by (rewrite wrap_small; lia).
    erewrite set_sz_eq by done. cbn [sz_ data_ cap_].
    rewrite insert_middle by (by rewrite length_fmap).
    by list_simp.
Qed.

Lemma push_back_ensure_throws st this v0 value e st1 :
  objs st !! this = Some v0 →
  ensure_capacity this (wrap (sz_ v0 + 1)) st = (Throw e, st1) →
  push_back this value st = (Throw e, st1).
Proof.
  intros Hv Hens. destruct st as [h a o tr]. simpl in Hv.
  unfold push_back, bind. exec (get_sz_eq h a o tr this _ Hv). by rewrite Hens.
Qed.

Lemma holds_pushed h1 a1 o1 tr1 this p1 l r0 rest1 value tr2 :
  holds (State h1 a1 o1 tr1) this p1 l (r0 :: rest1) →
  holds (State (<[p1 := (Some <$> l ++ [value]) ++ rest1]> h1) a1
               (<[this := Vector p1 (Z.of_nat (S (length l)))
                                 (Z.of_nat (length l + S (length rest1)))]> o1) tr2)
        this p1 (l ++ [value]) rest1.
Proof.
  intros Hholds.
  pose proof (holds_inserted _ _ _ _ _ _ _ _ _ (length l) value tr2 Hholds (le_n _)) as H.
  by rewrite firstn_all, drop_all in H.
Qed.

Lemma grown_length (l : list T) :
  (length l + S (length (replicate (Z.to_nat (double_cap (Z.of_nat (length l)))
                                    - length l - 1) (@None T))))%nat
  = Z.to_nat (double_cap (Z.of_nat (length l))).
Proof.
  rewrite length_replicate. unfold double_cap.
  destruct (decide (Z.of_nat (length l) = 0)); lia.
Qed.

Lemma grown_capacity (l : list T) :
  Z.of_nat (length l
            + length (None :: replicate (Z.to_nat (double_cap (Z.of_nat (length l)))
                                         - length l - 1) (@None T)))
  = double_cap (Z.of_nat (length l)).
Proof.
  simpl length. rewrite grown_length. unfold double_cap.
  destruct (decide (Z.of_nat (length l) = 0)); lia.
Qed.

Section push_back.
Hypothesis sizeof_T_range : 1 ≤ sizeof_T < 2 ^ 64.
Variables (h : gmap Z (list (option T))) (a : Z) (o : gmap Z vector) (tr : list event).
Variables (this p : Z) (l : list T) (value : T).

(** With room left nothing is allocated. *)
Lemma push_back_room r0 rest1 :
  holds (State h a o tr) this p l (r0 :: rest1) →
  push_back this value (State h a o tr)
  = if copy_throws value then (Throw elem_exn, State h a o tr)
    else (Ret tt,
          State (<[p := (Some <$> l ++ [value]) ++ rest1]> h) a
                (<[this := Vector p (Z.of_nat (S (length l)))
                                  (Z.of_nat (length l + S (length rest1)))]> o)
                (tr ++ [EvConstruct p (Z.of_nat (length l)) value])).
Proof.
  intros Hholds. pose proof Hholds as (Hv & _). simpl in Hv.
  eapply push_back_after; [lia|exact Hv|done| |exact Hholds].
  exact (ensure_capacity_room sizeof_T_range _ _ _ _ _ _ _ _ Hholds ltac:(done)).
Qed.

Let ncap := double_cap (Z.of_nat (length l)).
Let nd := fresh_ptr h.
Let rest1 := replicate (Z.to_nat ncap - length l - 1) (@None T).
Let h1 := released p (<[nd := (Some <$> l) ++ replicate (Z.to_nat ncap - length l) None]> h).
Let a1 := a - ncap * sizeof_T + Z.of_nat (length l) * sizeof_T.
Let o1 := <[this := Vector nd (Z.of_nat (length l)) ncap]> o.
Let tr1 := tr ++ grow_events p nd l ncap.

(** A full sequence is moved to a buffer of twice the capacity first. *)
Lemma push_back_full :
  holds (State h a o tr) this p l [] →
  ncap * sizeof_T ≤ a → ncap * sizeof_T ≤ PTRDIFF_MAX → copy_prefix l = l →
  holds (State h1 a1 o1 tr1) this nd l (None :: rest1) ∧
  push_back this value (State h a o tr)
  = if copy_throws value then (Throw elem_exn, State h1 a1 o1 tr1)
    else (Ret tt,
          State (<[nd := (Some <$> l ++ [value]) ++ rest1]> h1) a1
                (<[this := Vector nd (Z.of_nat (S (length l)))
                                  (Z.of_nat (length l + S (length rest1)))]> o1)
                (tr1 ++ [EvConstruct nd (Z.of_nat (length l)) value])).
Proof.
  intros Hholds Ha Hmax Hcp. pose proof Hholds as (Hv & _). simpl in Hv.
  destruct (ensure_capacity_full_grow sizeof_T_range _ _ _ _ _ _ _ _ Hholds
              eq_refl Ha Hmax Hcp) as [Hens Hholds1].
  split; [exact Hholds1|].
  eapply push_back_after; [lia|exact Hv|done|exact Hens|exact Hholds1].
Qed.

End push_back.



(** X9: when [push_back] throws, it throws [bad_alloc] or the exception of a
    copy, and the sequence has the elements and the size it had.  Either
    nothing at all has changed (the allocation or the copy of an old element
    failed, or there was room and the copy of the new element failed), or
    the sequence was full, has been moved to a buffer of twice the capacity,
    and the copy of the new element failed. *)
Theorem X9_push_back_throws st this p l rest value e st' :
  1 ≤ sizeof_T < 2 ^ 64 → holds st this p l rest →
  push_back this value st = (Throw e, st') →
  (e = bad_alloc ∨ e = elem_exn) ∧
  ((heap st' = heap st ∧ avail st' = avail st ∧ objs st' = objs st ∧
    holds st' this p l rest) ∨
   (rest = [] ∧ e = elem_exn ∧ copy_throws value = true ∧
    ∃ rest', holds st' this (fresh_ptr (heap st)) l rest' ∧
             Z.of_nat (length l + length rest') = double_cap (Z.of_nat (length l)))).
Proof.
  intros Hsize Hholds Hpush. pose proof Hholds as (Hv & _).
  destruct st as [h a o tr]. simpl in Hv.
  destruct rest as [|r0 rest1].
  - set (ncap := double_cap (Z.of_nat (length l))).
    destruct (decide (ncap * sizeof_T ≤ a ∧ ncap * sizeof_T ≤ PTRDIFF_MAX))
      as [[Ha Hmax]|Hno].
    + destruct (decide (length (copy_prefix l) = length l)) as [Hall|Hthrow].
      * assert (Hcp : copy_prefix l = l)
          by (rewrite copy_prefix_prefix, Hall; apply firstn_all).
        destruct (push_back_full Hsize h a o tr this p l value Hholds Ha Hmax Hcp)
          as [Hholds1 Hpush1].
        rewrite Hpush1 in Hpush. destruct (copy_throws value) eqn:Hcopy; [|done].
        injection Hpush as <- <-. split; [by right|]. right.
        split; [done|]. split; [done|]. split; [done|].
        eexists. split; [exact Hholds1|]. apply grown_capacity.
      * assert (Hcp : copy_prefix l ≠ l) by (intros Hcp; by rewrite Hcp in Hthrow).
        pose proof (ensure_capacity_full_copy_throws Hsize _ _ _ _ _ _ _ _ Hholds
                      eq_refl Ha Hmax Hcp) as Hens.
        erewrite (push_back_ensure_throws (State h a o tr)) in Hpush;
          [|exact Hv|exact Hens].
        injection Hpush as <- <-. split; [by right|]. left.
        split; [done|]. split; [done|]. split; [done|].
        by eapply holds_ext.
    + pose proof (ensure_capacity_full_bad_alloc Hsize _ _ _ _ _ _ _ _ Hholds
                    eq_refl Hno) as Hens.
      erewrite (push_back_ensure_throws (State h a o tr)) in Hpush;
        [|exact Hv|exact Hens].
      injection Hpush as <- <-. split; [by left|]. by left.
  - rewrite (push_back_room Hsize h a o tr this p l value r0 rest1 Hholds) in Hpush.
    destruct (copy_throws value); [|done].
    injection Hpush as <- <-. split; [by right|]. by left.
Qed.

Lemma pop_back_eq h a o tr this p l z rest :
  1 ≤ sizeof_T →
  holds (State h a o tr) this p (l ++ [z]) rest →
  let st' := State (<[p := (Some <$> l) ++ None :: rest]> h) a
               (<[this := Vector p (Z.of_nat (length l))
                                 (Z.of_nat (length l + S (length rest)))]> o)
               (tr ++ [EvDestroy p (Z.of_nat (length l))]) in
  pop_back this (State h a o tr) = (Ret tt, st') ∧
  holds st' this p l (None :: rest).
Proof.
  intros Hsize Hholds.
  pose proof (holds_cap_bound _ _ _ _ _ Hsize Hholds) as Hbound.
  unfold PTRDIFF_MAX in Hbound.
  pose proof Hholds as (Hv & Hcap & Hbuf). simpl in Hv.
  rewrite length_app in *. change (length [z]) with 1%nat in *.
  destruct (decide (p = 0)) as [->|Hp].
  { destruct Hbuf as [Hnil _]. by destruct l. }
  destruct Hbuf as [_ Hblk]. simpl in Hblk. split.
  - unfold pop_back, bind. exec (get_sz_eq h a o tr this _ Hv). cbn [sz_ data_ cap_].
    destruct (Z.eqb_spec (Z.of_nat (length l + 1)) 0) as [|Hne]; [lia|].
    replace (wrap (Z.of_nat (length l + 1) - 1)) with (Z.of_nat (length l))
      by (rewrite wrap_small; lia).
    exec (set_sz_eq h a o tr this _ Hv). cbn [sz_ data_ cap_].
    erewrite get_sz_eq by (by rewrite lookup_insert_eq).
    erewrite get_data_eq by (by rewrite lookup_insert_eq). cbn [sz_ data_ cap_].
    erewrite destroy_at_eq; [|exact Hblk|].
    2:{ rewrite lookup_app_l by (rewrite length_fmap, length_app; simpl; lia).
        rewrite list_lookup_fmap, lookup_app_r by lia. by rewrite Nat.sub_diag. }
    rewrite fmap_app, <- app_assoc. simpl.
    rewrite insert_middle by (by rewrite length_fmap).
    do 3 f_equal. do 2 f_equal. lia.
  - unfold holds. cbn [objs heap]. rewrite !lookup_insert_eq.
    simpl length. split; [done|]. split.
    + replace (length l + S (length rest))%nat
        with (length l + 1 + length rest)%nat by lia. done.
    + rewrite decide_False by done. split; [lia|done].
Qed.

Lemma pop_back_empty st this p rest :
  holds st this p [] rest → pop_back this st = (Throw container_is_empty, st).
Proof.
  intros (Hv & _). destruct st as [h a o tr]. simpl in Hv.
  unfold pop_back, bind. by exec (get_sz_eq h a o tr this _ Hv).
Qed.

(** X10: [pop_back()] throws [container_is_empty] on an empty sequence and
    changes nothing; otherwise it removes the last element, destroying that
    one slot, and keeps the buffer and the capacity. *)
Theorem X10_pop_back st this p l rest :
  1 ≤ sizeof_T → holds st this p l rest →
  (l = [] → pop_back this st = (Throw container_is_empty, st)) ∧
  (∀ l0 z, l = l0 ++ [z] →
     ∃ st', pop_back this st = (Ret tt, st') ∧
            holds st' this p l0 (None :: rest) ∧
            trace st' = trace st ++ [EvDestroy p (Z.of_nat (length l0))]).
Proof.
  intros Hsize Hholds. split.
  - intros ->. by eapply pop_back_empty.
  - intros l0 z ->. destruct st as [h a o tr].
    destruct (pop_back_eq h a o tr this p l0 z rest Hsize Hholds) as [Hpop Hholds'].
    eexists. split; [exact Hpop|]. split; [exact Hholds'|done].
Qed.


(** ** [insert] followed by [erase] *)





(** ** [clear] and the destructor *)

Lemma clear_eq h a o tr this p l rest :
  holds (State h a o tr) this p l rest →
  let st' := State (if decide (p = 0) then h
                    else <[p := replicate (length l) None ++ rest]> h) a
               (<[this := Vector p 0 (Z.of_nat (length l + length rest))]> o)
               (tr ++ (EvDestroy p <$> seqZ 0 (Z.of_nat (length l)))) in
  clear this (State h a o tr) = (Ret tt, st') ∧
  holds st' this p [] (replicate (length l) None ++ rest).
Proof.
  intros Hholds. pose proof Hholds as (Hv & Hcap & Hbuf). simpl in Hv. split.
  - unfold clear, bind. exec (get_sz_eq h a o tr this _ Hv).
    exec (get_data_eq h a o tr this _ Hv). cbn [sz_ data_ cap_].
    destruct (decide (p = 0)) as [->|Hp].
    + destruct Hbuf as [-> ->]. simpl. unfold ret.
      exec (set_sz_eq h a o tr this _ Hv). cbn [sz_ data_ cap_].
      by rewrite app_nil_r.
    + destruct Hbuf as [Hpos Hblk]. simpl in Hblk.
      exec (destroy_loop_eq p l 0 [] rest).
      2: done. 2: exact Hblk.
      erewrite set_sz_eq by done. cbn [sz_ data_ cap_]. done.
  - unfold holds. cbn [objs heap]. rewrite lookup_insert_eq.
    simpl length. rewrite length_app, length_replicate.
    split; [done|]. split; [done|].
    destruct (decide (p = 0)) as [->|Hp].
    + destruct Hbuf as [-> ->]. done.
    + destruct Hbuf as [Hpos _]. rewrite lookup_insert_eq. done.
Qed.

(** X13: [clear()] destroys the elements in index order and sets the size to
    0; it keeps the buffer and the capacity, gives no storage back, and
    never throws. *)
Theorem X13_clear st this p l rest :
  holds st this p l rest →
  ∃ st',
    clear this st = (Ret tt, st') ∧
    holds st' this p [] (replicate (length l) None ++ rest) ∧
    length (replicate (length l) (@None T) ++ rest) = (length l + length rest)%nat ∧
    avail st' = avail st ∧
    trace st' = trace st ++ (EvDestroy p <$> seqZ 0 (Z.of_nat (length l))).
Proof.
  intros Hholds. destruct st as [h a o tr].
  destruct (clear_eq h a o tr this p l rest Hholds) as [Hclear Hholds'].
  eexists. split; [exact Hclear|]. split; [exact Hholds'|].
  split; [by rewrite length_app, length_replicate|done].
Qed.

(** X14: the destructor destroys the elements in index order, releases the
    buffer, which gives back the storage of [cap] elements, and the sequence
    is gone; the other sequences and buffers are not touched. *)
Theorem X14_destructor st this p l rest :
  holds st this p l rest →
  ∃ st',
    delete_vector this st = (Ret tt, st') ∧
    objs st' = delete this (objs st) ∧
    heap st' = released p (heap st) ∧
    (p ≠ 0 → heap st' !! p = None) ∧
    avail st' = avail st + Z.of_nat (length l + length rest) * sizeof_T ∧
    trace st' = trace st ++ (EvDestroy p <$> seqZ 0 (Z.of_nat (length l)))
                  ++ release_events p.
Proof.
  intros Hholds. destruct st as [h a o tr].
  rewrite (delete_vector_eq h a o tr this p l rest Hholds).
  eexists. split; [done|]. cbn [objs heap avail trace].
  split; [done|]. split; [done|]. split; [|done].
  intros Hp. unfold released. rewrite decide_False by done. apply lookup_delete_eq.
Qed.

(** ** [swap] and copy assignment *)

(** X15: [swap] exchanges the three members of two sequences, so each ends
    up with the other's buffer, elements and capacity; no element is copied
    or destroyed and no storage allocated; swapping twice, or a sequence
    with itself, changes nothing. *)
Theorem X15_swap st a b pa la ra pb lb rb :
  holds st a pa la ra → holds st b pb lb rb → a ≠ b →
  ∃ st',
    swap a b st = (Ret tt, st') ∧
    holds st' a pb lb rb ∧ holds st' b pa la ra ∧
    heap st' = heap st ∧ avail st' = avail st ∧ trace st' = trace st ∧
    swap a b st' = (Ret tt, st) ∧
    swap a a st = (Ret tt, st).
Proof.
  intros Ha Hb Hne. pose proof Ha as (Hva & _). pose proof Hb as (Hvb & _).
  destruct st as [h av o tr]. simpl in Hva, Hvb.
  rewrite (swap_eq h av o tr a b _ _ Hne Hva Hvb).
  eexists. split; [done|]. cbn [heap avail trace].
  split; [|split; [|split; [done|split; [done|split; [done|split]]]]].
  - eapply holds_move; [exact Hb| |done]. cbn [objs]. by simplify_map_eq.
  - eapply holds_move; [exact Ha| |done]. cbn [objs]. by simplify_map_eq.
  - erewrite swap_eq; [|done|by simplify_map_eq|by simplify_map_eq].
    do 2 f_equal. apply map_eq. intros i.
    destruct (decide (i = b)) as [->|]; [by simplify_map_eq|].
    destruct (decide (i = a)) as [->|]; by simplify_map_eq.
  - by eapply swap_self.
Qed.

(** X16: a copy assignment [a = b] between two sequences, when no copy
    throws and the storage suffices, makes [a] a copy of [b] in a fresh
    buffer of exactly [b.size()] slots (no buffer for an empty [b]), destroys
    the old elements of [a] in index order and releases its old buffer;
    [b] is not changed. *)
Theorem X16_assign st this pt lt restt other po l rest :
  1 ≤ sizeof_T → this ≠ other →
  holds st this pt lt restt → holds st other po l rest →
  (pt = 0 ∨ pt ≠ po) →
  (l ≠ [] → Z.of_nat (length l) * sizeof_T ≤ Z.min (avail st) PTRDIFF_MAX ∧
            copy_prefix l = l) →
  ∃ st',
    assign this other st = (Ret this, st') ∧
    holds st' this (copy_data (heap st) l) l [] ∧
    holds st' other po l rest ∧
    (l ≠ [] → copy_data (heap st) l ≠ 0 ∧ heap st !! copy_data (heap st) l = None) ∧
    (pt ≠ 0 → heap st' !! pt = None) ∧
    trace st' = trace st ++ copy_events (heap st) l
                  ++ (EvDestroy pt <$> seqZ 0 (Z.of_nat (length lt)))
                  ++ release_events pt.
Proof.
  intros Hsize Hne Hthis Hother Hbuf Hmem. destruct st as [h a o tr].
  assert (Hok : l = [] ∨ (Z.of_nat (length l) * sizeof_T ≤ a ∧
                          Z.of_nat (length l) * sizeof_T ≤ PTRDIFF_MAX ∧
                          copy_prefix l = l)).
  { destruct l as [|x l0]; [by left|]. right.
    destruct (Hmem ltac:(done)) as [Hbytes Hcp]. cbn [avail] in Hbytes.
    split; [lia|]. split; [lia|done]. }
  destruct (assign_ok h a o tr this pt lt restt other po l rest
              Hsize Hne Hthis Hother Hok) as [Hassign Hholds].
  eexists. split; [exact Hassign|]. split; [exact Hholds|]. cbn [heap trace].
  assert (Hfresh : l ≠ [] → copy_data h l = fresh_ptr h)
    by (by destruct l).
  split; [|split; [|split]].
  - eapply holds_move; [exact Hother| |].
    + cbn [objs]. by rewrite lookup_insert_ne.
    + intros Hpo. cbn [heap].
      pose proof (holds_buffer _ _ _ _ _ Hother Hpo) as [blk Hblk]. simpl in Hblk.
      rewrite released_frame by (destruct Hbuf; congruence).
      unfold copy_heap. destruct l as [|x l0]; [done|].
      rewrite lookup_insert_ne; [done|].
      intros Heq. rewrite <- Heq, fresh_ptr_fresh in Hblk. done.
  - intros Hl. rewrite (Hfresh Hl). pose proof (fresh_ptr_pos h).
    split; [lia|apply fresh_ptr_fresh].
  - intros Hpt. unfold released. rewrite decide_False by done. apply lookup_delete_eq.
  - by rewrite <- app_assoc.
Qed.

(** ** The exceptions of every operation *)

Section exceptions.
Variable P : exn → Prop.

Lemma ot_try_catch {A} (m : M A) (handler : exn → M A) :
  only_throws P m → (∀ e, P e → only_throws P (handler e)) →
  only_throws P (try_catch m handler).
Proof.
  intros Hm Hh st e st'. unfold try_catch.
  destruct (m st) as [[x|e1| |] st1] eqn:E; try by intros [=].
  apply Hh. by eapply Hm.
Qed.

Lemma ot_alloc_obj : only_throws P alloc_obj.
Proof. by intros st e st' [=]. Qed.

Lemma ot_dealloc_obj this : only_throws P (dealloc_obj this).
Proof. intros st e st'. unfold dealloc_obj. by destruct (objs st !! this). Qed.

Ltac ot_step :=
  first
    [ apply ot_ret | apply ot_diverge | apply ot_get_vec | apply ot_put_vec
    | apply ot_get_data | apply ot_get_sz | apply ot_get_cap
    | apply ot_set_data | apply ot_set_sz | apply ot_set_cap
    | apply ot_load | apply ot_destroy_at | apply ot_operator_delete
    | apply ot_alloc_obj | apply ot_dealloc_obj
    | apply ot_throw; assumption
    | apply ot_construct_at; assumption
    | apply ot_assign_at; assumption
    | apply ot_operator_new; assumption
    | apply ot_ensure_capacity; assumption
    | apply ot_for; intros ?
    | apply ot_bind; [|intros ?]
    | match goal with
      | |- only_throws _ (if ?b then _ else _) => destruct b
      end ].

Lemma ot_clear this : only_throws P (clear this).
Proof. unfold clear. repeat ot_step. Qed.

Lemma ot_dtor this : only_throws P (dtor this).
Proof. unfold dtor, raw_free. repeat first [apply ot_clear|ot_step]. Qed.

Lemma ot_delete_vector this : only_throws P (delete_vector this).
Proof. unfold delete_vector. repeat first [apply ot_dtor|ot_step]. Qed.

Lemma ot_swap this rhs : only_throws P (swap this rhs).
Proof. unfold swap. repeat ot_step. Qed.

Lemma ot_new_vector : only_throws P new_vector.
Proof. unfold new_vector, default_ctor. repeat ot_step. Qed.

Lemma ot_end this : only_throws P (end_ this).
Proof. unfold end_. repeat ot_step. Qed.

Lemma ot_observers this :
  only_throws P (begin_ this) ∧ only_throws P (end_ this) ∧
  only_throws P (empty this) ∧ only_throws P (size this).
Proof. unfold begin_, end_, empty, size. repeat split; repeat ot_step. Qed.

Lemma ot_pop_back this : P container_is_empty → only_throws P (pop_back this).
Proof. intros HP. unfold pop_back. repeat ot_step. Qed.

Lemma ot_front this : P container_is_empty → only_throws P (front this).
Proof. intros HP. unfold front. repeat ot_step. Qed.

Lemma ot_back this : P container_is_empty → only_throws P (back this).
Proof. intros HP. unfold back. repeat ot_step. Qed.

Lemma ot_at this pos : P index_out_of_bound → only_throws P (at_ this pos).
Proof. intros HP. unfold at_. repeat ot_step. Qed.

Lemma ot_subscript this pos : P index_out_of_bound → only_throws P (subscript this pos).
Proof. intros HP. unfold subscript. repeat ot_step. Qed.

Lemma ot_deref it : P invalid_iterator → only_throws P (deref it).
Proof. intros HP. unfold deref. repeat ot_step. Qed.

(** [erase(iterator)] once its checks have passed. *)
Lemma ot_erase_checked this ind sz :
  P elem_exn →
  only_throws P
    (let! d := get_data this in
     if ind =? wrap (sz - 1) then
       destroy_at d (wrap (sz - 1)) ;;
       set_sz this (wrap (sz - 1)) ;;
       end_ this
     else
       for_ (seqZ ind (sz - 1 - ind)) (λ i,
         let! x := load d (wrap (i + 1)) in assign_at d i x) ;;
       destroy_at d (wrap (sz - 1)) ;;
       set_sz this (wrap (sz - 1)) ;;
       ret (Iterator this ind)).
Proof. intros HP. repeat first [apply ot_end|ot_step]. Qed.

Lemma ot_erase_it this pos :
  P invalid_iterator → P elem_exn → only_throws P (erase_it this pos).
Proof.
  intros HP1 HP2. unfold erase_it.
  destruct (negb _); [by apply ot_throw|].
  apply ot_bind; [apply ot_get_sz|intros sz].
  destruct (sz <=? idx pos); [by apply ot_throw|]. by apply ot_erase_checked.
Qed.

Hypothesis P_bad_alloc : P bad_alloc.
Hypothesis P_elem_exn : P elem_exn.

Lemma ot_push_back this value : only_throws P (push_back this value).
Proof. unfold push_back. repeat ot_step. Qed.

Lemma ot_copy_ctor this other : only_throws P (copy_ctor this other).
Proof.
  unfold copy_ctor, raw_alloc, raw_free.
  do 3 (apply ot_bind; [ot_step|intros _]).
  apply ot_bind; [ot_step|intros osz].
  destruct (osz =? 0); [ot_step|].
  apply ot_bind; [ot_step|intros d].
  do 2 (apply ot_bind; [ot_step|intros _]).
  apply ot_bind; [ot_step|intros od].
  assert (Hbody : ∀ i, only_throws P (let! x := load od i in construct_at d i x))
    by (intros i; repeat ot_step).
  apply (ot_bind_post _ (λ r, match r with Some (_, e) => P e | None => True end)).
  - apply ot_try_for.
  - intros st [[i e]|] st' Hr; [|done].
    eapply try_for_caught; [exact Hbody|exact Hr].
  - intros [[i e]|] Hr; repeat ot_step.
Qed.

Lemma ot_new_vector_copy other : only_throws P (new_vector_copy other).
Proof.
  unfold new_vector_copy. apply ot_bind; [ot_step|intros this].
  apply ot_try_catch.
  - apply ot_bind; [apply ot_copy_ctor|intros _; ot_step].
  - intros e He. repeat ot_step.
Qed.

Lemma ot_assign this other : only_throws P (assign this other).
Proof.
  unfold assign. destruct (this =? other); [ot_step|].
  repeat first [apply ot_new_vector_copy|apply ot_swap|apply ot_delete_vector|ot_step].
Qed.

Lemma ot_insert_it this pos value :
  P invalid_iterator → P index_out_of_bound →
  only_throws P (insert_it this pos value).
Proof.
  intros HP1 HP2. unfold insert_it.
  destruct (negb _); [by apply ot_throw|]. by apply ot_insert_idx.
Qed.

End exceptions.

Lemma get_sz_inv this st o st' : get_sz this st = (o, st') → st' = st.
Proof.
  unfold get_sz, get_vec, bind, ret.
  destruct (objs st !! this); by intros [= _ <-].
Qed.

(** [erase(ind)] passes the checks of [erase(iterator)]: it never throws
    [invalid_iterator]. *)
Lemma erase_idx_throws this ind st e st' :
  erase_idx this ind st = (Throw e, st') → e = index_out_of_bound ∨ e = elem_exn.
Proof.
  unfold erase_idx, bind.
  destruct (get_sz this st) as [[sz|e1| |] st1] eqn:Hsz; try done.
  - pose proof (get_sz_inv _ _ _ _ Hsz) as ->.
    destruct (sz <=? ind) eqn:Hle; [intros [= <- _]; by left|].
    unfold erase_it. cbn [owner idx negb]. rewrite Z.eqb_refl. cbn [negb].
    unfold bind at 1. rewrite Hsz, Hle. intros H. right.
    by apply (ot_erase_checked (λ e, e = elem_exn)) in H.
  - intros [= <- _]. by apply (ot_get_sz (λ _, False)) in Hsz.
Qed.

(** X17: [clear], [swap], the destructor, the default constructor, [begin],
    [end], [empty] and [size] throw nothing, whatever state they are called
    in. *)
Theorem X17_no_throw this rhs :
  only_throws (λ _, False) (clear this) ∧
  only_throws (λ _, False) (swap this rhs) ∧
  only_throws (λ _, False) (delete_vector this) ∧
  only_throws (λ _, False) new_vector ∧
  only_throws (λ _, False) (begin_ this) ∧
  only_throws (λ _, False) (end_ this) ∧
  only_throws (λ _, False) (empty this) ∧
  only_throws (λ _, False) (size this).
Proof.
  split; [apply ot_clear|]. split; [apply ot_swap|].
  split; [apply ot_delete_vector|]. split; [apply ot_new_vector|].
  apply ot_observers.
Qed.

(** X18: the exceptions that each operation can throw, whatever state it is
    called in: [pop_back], [front] and [back] only [container_is_empty];
    [at] and [operator[]] only [index_out_of_bound]; the dereference of an
    iterator only [invalid_iterator]; [push_back], copy construction and
    copy assignment only [bad_alloc] or the exception of a copy of [T];
    [insert] by index those or [index_out_of_bound], and through an iterator
    also [invalid_iterator]; [erase] through an iterator only
    [invalid_iterator] or the exception of an assignment of [T], and [erase]
    by index only [index_out_of_bound] or that exception. *)
Theorem X18_exception_kinds this other pos ind value it :
  only_throws (λ e, e = container_is_empty) (pop_back this) ∧
  only_throws (λ e, e = container_is_empty) (front this) ∧
  only_throws (λ e, e = container_is_empty) (back this) ∧
  only_throws (λ e, e = index_out_of_bound) (at_ this ind) ∧
  only_throws (λ e, e = index_out_of_bound) (subscript this ind) ∧
  only_throws (λ e, e = invalid_iterator) (deref it) ∧
  only_throws (λ e, e = bad_alloc ∨ e = elem_exn) (push_back this value) ∧
  only_throws (λ e, e = bad_alloc ∨ e = elem_exn) (new_vector_copy other) ∧
  only_throws (λ e, e = bad_alloc ∨ e = elem_exn) (assign this other) ∧
  only_throws (λ e, e = index_out_of_bound ∨ e = bad_alloc ∨ e = elem_exn)
              (insert_idx this ind value) ∧
  only_throws (λ e, e = invalid_iterator ∨ e = index_out_of_bound ∨
                    e = bad_alloc ∨ e = elem_exn)
              (insert_it this pos value) ∧
  only_throws (λ e, e = invalid_iterator ∨ e = elem_exn) (erase_it this pos) ∧
  only_throws (λ e, e = index_out_of_bound ∨ e = elem_exn) (erase_idx this ind).
Proof.
  split; [by apply ot_pop_back|]. split; [by apply ot_front|].
  split; [by apply ot_back|]. split; [by apply ot_at|].
  split; [by apply ot_subscript|]. split; [by apply ot_deref|].
  split; [apply ot_push_back; auto|]. split; [apply ot_new_vector_copy; auto|].
  split; [apply ot_assign; auto|]. split; [apply ot_insert_idx; auto|].
  split; [apply ot_insert_it; auto|]. split; [apply ot_erase_it; auto|].
  intros st e st'. apply erase_idx_throws.
Qed.

(** ** Filling a sequence by [push_back] *)

Lemma grown_heap (h : gmap Z (list (option T))) p nd blk blk' :
  h !! nd = None → nd ≠ p →
  delete nd (<[nd := blk']> (released p (<[nd := blk]> h))) = released p h.
Proof.
  intros Hfresh Hne. apply map_eq. intros q. unfold released.
  destruct (decide (q = nd)) as [->|Hq].
  - rewrite lookup_delete_eq.
    destruct (decide (p = 0)); [done|]. by rewrite lookup_delete_ne.
  - rewrite lookup_delete_ne, lookup_insert_ne by done.
    destruct (decide (p = 0)); [by rewrite lookup_insert_ne|].
    destruct (decide (q = p)) as [->|Hqp]; [by rewrite !lookup_delete_eq|].
    by rewrite !lookup_delete_ne, lookup_insert_ne.
Qed.

(** One [push_back] that succeeds: the capacity, the storage in use, and the
    rest of the free store. *)
Lemma push_back_step st this p l rest value :
  1 ≤ sizeof_T < 2 ^ 64 → holds st this p l rest → copy_throws value = false →
  (rest = [] →
   double_cap (Z.of_nat (length l)) * sizeof_T ≤ Z.min (avail st) PTRDIFF_MAX ∧
   copy_prefix l = l) →
  ∃ st' p' rest' v',
    push_back this value st = (Ret tt, st') ∧
    holds st' this p' (l ++ [value]) rest' ∧
    Z.of_nat (length (l ++ [value]) + length rest')
    = (if decide (rest = []) then double_cap (Z.of_nat (length l))
       else Z.of_nat (length l + length rest)) ∧
    p' ≠ 0 ∧
    delete p' (heap st') = released p (heap st) ∧
    avail st' + Z.of_nat (length (l ++ [value]) + length rest') * sizeof_T
    = avail st + Z.of_nat (length l + length rest) * sizeof_T ∧
    objs st' = <[this := v']> (objs st).
Proof.
  intros Hsize Hholds Hcopy Hmem. destruct st as [h a o tr].
  destruct rest as [|r0 rest1].
  - destruct (Hmem eq_refl) as [Hbytes Hcp]. simpl in Hbytes.
    destruct (push_back_full Hsize h a o tr this p l value Hholds) as [Hholds1 Hpush];
      [lia|lia|done|].
    rewrite Hcopy in Hpush. eexists _, (fresh_ptr h), _, _.
    split; [exact Hpush|]. split; [by eapply holds_pushed|].
    pose proof (grown_capacity l) as Hlen. pose proof (fresh_ptr_pos h) as Hpos.
    pose proof (fresh_ptr_fresh h) as Hfresh.
    assert (Hlen' : Z.of_nat (length (l ++ [value])
                      + length (replicate (Z.to_nat (double_cap (Z.of_nat (length l)))
                                           - length l - 1) (@None T)))
                    = double_cap (Z.of_nat (length l))).
    { rewrite length_app. simpl length in *. lia. }
    split; [by rewrite decide_True|]. split; [lia|].
    cbn [heap avail objs]. split; [|split].
    + apply grown_heap; [done|]. intros Heq.
      destruct (decide (p = 0)) as [Hp|Hp]; [lia|].
      destruct (holds_buffer _ _ _ _ _ Hholds Hp) as [blk Hblk]. simpl in Hblk.
      rewrite <- Heq, Hfresh in Hblk. done.
    + rewrite Hlen'. simpl length. rewrite Nat.add_0_r. lia.
    + by rewrite insert_insert_eq.
  - rewrite (push_back_room Hsize h a o tr this p l value r0 rest1 Hholds), Hcopy.
    pose proof Hholds as (_ & _ & Hbuf).
    destruct (decide (p = 0)) as [->|Hp]; [by destruct Hbuf|].
    eexists _, p, rest1, _. split; [done|]. split; [by eapply holds_pushed|].
    rewrite length_app. simpl length. split.
    { rewrite decide_False by done. f_equal. lia. }
    split; [done|]. cbn [heap avail objs]. split; [|split; [|done]].
    + unfold released. rewrite decide_False by done. by rewrite delete_insert_eq.
    + f_equal. f_equal. lia.
Qed.

Lemma tight_push n cap :
  0 ≤ n ≤ cap → tight n cap →
  tight (n + 1) (if decide (n = cap) then double_cap n else cap).
Proof.
  intros Hn [[-> ->]|(k & -> & Hk)].
  - rewrite decide_True by done. right. exists 0%nat. unfold double_cap. simpl. lia.
  - right. case_decide as Hfull.
    + exists (S k). unfold double_cap. rewrite decide_False by lia.
      rewrite Nat2Z.inj_succ, Z.pow_succ_r by lia. lia.
    + exists k. lia.
Qed.

Lemma push_all_ok this xs : ∀ st p l rest,
  1 ≤ sizeof_T < 2 ^ 64 → (∀ x, copy_throws x = false) →
  holds st this p l rest →
  tight (Z.of_nat (length l)) (Z.of_nat (length l + length rest)) →
  3 * Z.of_nat (length l + length xs) * sizeof_T
  ≤ Z.min (avail st + Z.of_nat (length l + length rest) * sizeof_T) PTRDIFF_MAX →
  ∃ st' p' rest' v',
    push_all this xs st = (Ret tt, st') ∧
    holds st' this p' (l ++ xs) rest' ∧
    tight (Z.of_nat (length (l ++ xs))) (Z.of_nat (length (l ++ xs) + length rest')) ∧
    released p' (heap st') = released p (heap st) ∧
    avail st' + Z.of_nat (length (l ++ xs) + length rest') * sizeof_T
    = avail st + Z.of_nat (length l + length rest) * sizeof_T ∧
    objs st' = <[this := v']> (objs st).
Proof.
  induction xs as [|x xs IH]; intros st p l rest Hsize Hcopy Hholds Htight Hmem.
  - exists st, p, rest. pose proof Hholds as (Hv & _). eexists.
    rewrite app_nil_r. split; [done|]. split; [done|]. split; [done|].
    split; [done|]. split; [done|]. by rewrite insert_id.
  - destruct (push_back_step st this p l rest x Hsize Hholds (Hcopy x))
      as (st1 & p1 & rest1 & v1 & Hpush & Hholds1 & Hcap1 & Hp1 & Hheap1 & Havail1 & Hobjs1).
    { intros ->. split; [|apply (copy_prefix_nothrow Hcopy)].
      simpl length in *. rewrite Nat.add_0_r in Hmem. unfold double_cap.
      destruct (decide (Z.of_nat (length l) = 0)); nia. }
    assert (Htight1 : tight (Z.of_nat (length (l ++ [x])))
                            (Z.of_nat (length (l ++ [x]) + length rest1))).
    { rewrite Hcap1. rewrite length_app. simpl length.
      replace (Z.of_nat (length l + 1)) with (Z.of_nat (length l) + 1) by lia.
      eapply eq_ind; [apply (tight_push _ (Z.of_nat (length l + length rest)));
                       [lia|done]|].
      destruct rest; simpl length.
      - rewrite decide_True by lia. by rewrite decide_True.
      - rewrite decide_False by lia. by rewrite decide_False. }
    destruct (IH st1 p1 (l ++ [x]) rest1 Hsize Hcopy Hholds1 Htight1)
      as (st' & p' & rest' & v' & Hall & Hholds' & Htight' & Hheap' & Havail' & Hobjs').
    { rewrite Havail1. rewrite length_app. simpl length in *.
      replace (length l + 1 + length xs)%nat with (length l + S (length xs))%nat by lia.
      done. }
    rewrite <- app_assoc in *. simpl app in *.
    exists st', p', rest', v'. split.
    { simpl. unfold bind. by rewrite Hpush. }
    split; [done|]. split; [done|]. split.
    { rewrite Hheap'. unfold released at 1. by rewrite decide_False. }
    split; [lia|]. by rewrite Hobjs', Hobjs1, insert_insert_eq.
Qed.

(** X19: filling an empty sequence by [push_back], one element after the
    other, ends with exactly these elements in a buffer whose capacity is
    the least power of two not below their number (when no copy throws and
    the storage suffices for the old and the new buffer together). *)
Theorem X19_push_all_capacity st this xs :
  1 ≤ sizeof_T < 2 ^ 64 → (∀ x, copy_throws x = false) →
  holds st this 0 [] [] →
  3 * Z.of_nat (length xs) * sizeof_T ≤ Z.min (avail st) PTRDIFF_MAX →
  ∃ st' p' rest',
    push_all this xs st = (Ret tt, st') ∧
    holds st' this p' xs rest' ∧
    tight (Z.of_nat (length xs)) (Z.of_nat (length xs + length rest')).
Proof.
  intros Hsize Hcopy Hholds Hmem.
  destruct (push_all_ok this xs st 0 [] [] Hsize Hcopy Hholds)
    as (st' & p' & rest' & v' & Hall & Hholds' & Htight' & _).
  { by left. }
  { simpl length. lia. }
  by exists st', p', rest'.
Qed.

(** X20: a sequence that is declared, filled by [push_back] and destroyed
    leaves the machine as it found it: no buffer and no object stay behind
    and all storage is given back. *)
Theorem X20_lifecycle st xs :
  1 ≤ sizeof_T < 2 ^ 64 → (∀ x, copy_throws x = false) →
  3 * Z.of_nat (length xs) * sizeof_T ≤ Z.min (avail st) PTRDIFF_MAX →
  ∃ st',
    (let! v := new_vector in push_all v xs ;; delete_vector v) st = (Ret tt, st') ∧
    heap st' = heap st ∧ avail st' = avail st ∧ objs st' = objs st.
Proof.
  intros Hsize Hcopy Hmem. destruct st as [h a o tr].
  unfold bind. rewrite new_vector_eq.
  set (this := fresh_ptr o).
  assert (Hholds : holds (State h a (<[this := Vector 0 0 0]> o) tr) this 0 [] []).
  { apply holds_null. cbn [objs]. by rewrite lookup_insert_eq. }
  destruct (push_all_ok this xs _ 0 [] [] Hsize Hcopy Hholds)
    as (st1 & p1 & rest1 & v1 & Hall & Hholds1 & _ & Hheap1 & Havail1 & Hobjs1).
  { by left. }
  { simpl length. cbn [avail] in *. lia. }
  rewrite Hall. destruct st1 as [h1 a1 o1 tr1].
  rewrite (delete_vector_eq h1 a1 o1 tr1 this p1 _ rest1 Hholds1).
  eexists. split; [done|]. cbn [heap avail objs] in *.
  split; [by rewrite Hheap1|]. split; [simpl length in *; lia|].
  rewrite Hobjs1, insert_insert_eq, delete_insert_eq.
  apply delete_id, fresh_ptr_fresh.
Qed.

(** ** Other sequences *)

(** X21: an operation called on one sequence ([push_back], [pop_back],
    [insert], [erase], [clear]), whether it returns or throws, leaves every
    other sequence as it was: its members, its buffer and its elements. *)
Theorem X21_isolation c st r st' this x vx :
  1 ≤ sizeof_T < 2 ^ 64 → reachable (λ _, true) st →
  single c = Some this → well_typed c = true → is_Some (objs st !! this) →
  perform c st = (r, st') → finished r = true →
  x ≠ this → objs st !! x = Some vx →
  objs st' !! x = Some vx ∧
  (data_ vx ≠ 0 → heap st' !! data_ vx = heap st !! data_ vx) ∧
  contents st' x = contents st x.
Proof.
  intros Hsize Hreach Hc Hty [v Hv] Hperf Hfin Hx Hvx.
  destruct (reachable_consistent Hsize _ _ Hreach) as [Hwf Hdis].
  destruct (Hwf this v Hv) as (l & rest & Hholds).
  destruct (Hwf x vx Hvx) as (lx & restx & Hholdsx).
  destruct (perform_modifies Hsize c st r st' this _ l rest Hc Hholds Hty Hperf Hfin)
    as (v0 & v' & l' & rest' & Hv0 & Ho & Hholds' & Hframe & Hfresh & _).
  rewrite Hv in Hv0. injection Hv0 as <-.
  assert (Hobj : objs st' !! x = Some vx) by (by rewrite Ho, lookup_insert_ne).
  assert (Hheap : data_ vx ≠ 0 → heap st' !! data_ vx = heap st !! data_ vx).
  { intros Hnz. pose proof (holds_buffer _ _ _ _ _ Hholdsx Hnz) as Hsome.
    assert (Hne : data_ vx ≠ data_ v) by (by apply (Hdis x this vx v)).
    apply Hframe; [done|].
    destruct Hfresh as [Heq|[Hnone|Hz]]; [congruence| |congruence].
    intros Heq. rewrite Heq, Hnone in Hsome. by destruct Hsome. }
  split; [done|]. split; [done|].
  unfold contents. rewrite Hobj, Hvx. simpl.
  destruct (decide (data_ vx = 0)); [done|]. by rewrite Hheap.
Qed.

(** ** What a failed [insert] or [erase] leaves behind *)

Section stores_only.

Lemma so_ret {A} (a : A) : stores_only (ret a).
Proof. by intros st o st' [= <- <-]. Qed.

Lemma so_throw {A} e : stores_only (@throw A e).
Proof. by intros st o st' [= <- <-]. Qed.

Lemma so_bind {A B} (m : M A) (k : A → M B) :
  stores_only m → (∀ a, stores_only (k a)) → stores_only (bind m k).
Proof.
  intros Hm Hk st o st'. unfold bind.
  destruct (m st) as [[a|e| |] st1] eqn:E; intros H.
  - destruct (Hm _ _ _ E) as [Ho Hh]. destruct (Hk _ _ _ _ H) as [Ho' Hh'].
    split; [congruence|]. intros q. by rewrite Hh', Hh.
  - injection H as <- <-. by eapply Hm.
  - injection H as <- <-. by eapply Hm.
  - injection H as <- <-. by eapply Hm.
Qed.

Lemma so_for ixs body : (∀ i, stores_only (body i)) → stores_only (for_ ixs body).
Proof.
  intros Hb. induction ixs as [|i ixs IH]; simpl; [apply so_ret|].
  apply so_bind; auto.
Qed.

Lemma so_get_vec this : stores_only (get_vec this).
Proof.
  intros st o st'. unfold get_vec. by destruct (objs st !! this); intros [= <- <-].
Qed.

Lemma so_get_data this : stores_only (get_data this).
Proof. apply so_bind; [apply so_get_vec|intros; apply so_ret]. Qed.
Lemma so_get_sz this : stores_only (get_sz this).
Proof. apply so_bind; [apply so_get_vec|intros; apply so_ret]. Qed.

Lemma so_store p i x ev : stores_only (store p i x ev).
Proof.
  intros st o st'. unfold store.
  destruct (heap st !! p) as [blk|] eqn:Hp; intros [= <- <-]; [|done].
  split; [done|]. intros q. cbn [heap].
  destruct (decide (q = p)) as [->|Hq].
  - rewrite lookup_insert_eq, Hp. split; eauto.
  - by rewrite lookup_insert_ne.
Qed.

Lemma so_load p i : stores_only (load p i).
Proof.
  intros st o st'. unfold load.
  destruct (heap st !! p) as [blk|]; [|by intros [= <- <-]].
  by destruct (slot blk i) as [[|]|]; intros [= <- <-].
Qed.

Lemma so_destroy_at p i : stores_only (destroy_at p i).
Proof.
  intros st o st'. unfold destroy_at.
  destruct (heap st !! p) as [blk|]; [|by intros [= <- <-]].
  destruct (slot blk i) as [[|]|]; try by intros [= <- <-]. apply so_store.
Qed.

Lemma so_construct_at p i x : stores_only (construct_at p i x).
Proof.
  intros st o st'. unfold construct_at.
  destruct (heap st !! p) as [blk|]; [|by intros [= <- <-]].
  destruct (slot blk i) as [|]; [|by intros [= <- <-]].
  destruct (copy_throws x); [by intros [= <- <-]|apply so_store].
Qed.

Lemma so_assign_at p i x : stores_only (assign_at p i x).
Proof.
  intros st o st'. unfold assign_at.
  destruct (heap st !! p) as [blk|]; [|by intros [= <- <-]].
  destruct (slot blk i) as [[old|]|]; try by intros [= <- <-].
  destruct (assign_throws old x); [by intros [= <- <-]|apply so_store].
Qed.

(** An exception out of [m ;; k] with [m] storing only. *)
Lemma so_bind_throw {A B} (m : M A) (k : A → M B) st e st' :
  stores_only m →
  (∀ a st1, k a st1 = (Throw e, st') → objs st' = objs st1) →
  bind m k st = (Throw e, st') → objs st' = objs st.
Proof.
  intros Hm Hk. unfold bind.
  destruct (m st) as [[a|e1| |] st1] eqn:E; intros H; try done.
  - destruct (Hm _ _ _ E) as [Ho _]. rewrite <- Ho. by eapply Hk.
  - injection H as <- <-. by eapply Hm.
Qed.

End stores_only.

(** The size is set last: [set_sz] and the [return] after it do not throw. *)
Lemma set_sz_ret_throw {A} this n (a : A) st e st' :
  (set_sz this n ;; ret a) st ≠ (Throw e, st').
Proof.
  intros H. apply (ot_bind (λ _, False)) in H; [done|apply ot_set_sz|].
  intros _. apply ot_ret.
Qed.

(** [insert] after [ensure_capacity]: an exception leaves the objects alone. *)
Lemma insert_tail_throw this ind value sz d st e st' :
  (if ind =? sz then
     construct_at d sz value ;;
     set_sz this (wrap (sz + 1)) ;;
     ret (Iterator this ind)
   else
     (let! x := load d (wrap (sz - 1)) in construct_at d sz x) ;;
     for_ (reverse (seqZ (ind + 1) (wrap (sz - 1) - ind))) (λ i,
       let! x := load d (wrap (i - 1)) in assign_at d i x) ;;
     assign_at d ind value ;;
     set_sz this (wrap (sz + 1)) ;;
     ret (Iterator this ind)) st = (Throw e, st') →
  objs st' = objs st.
Proof.
  destruct (ind =? sz).
  - apply so_bind_throw; [apply so_construct_at|].
    intros _ st1 H. by apply set_sz_ret_throw in H.
  - apply so_bind_throw.
    { apply so_bind; [apply so_load|intros; apply so_construct_at]. }
    intros _ st1. apply so_bind_throw.
    { apply so_for. intros i. apply so_bind; [apply so_load|intros; apply so_assign_at]. }
    intros _ st2. apply so_bind_throw; [apply so_assign_at|].
    intros _ st3 H. by apply set_sz_ret_throw in H.
Qed.

Lemma insert_idx_throw_after st this v0 ind value st1 v1 e st' :
  objs st !! this = Some v0 → ind ≤ sz_ v0 →
  ensure_capacity this (wrap (sz_ v0 + 1)) st = (Ret tt, st1) →
  objs st1 !! this = Some v1 →
  insert_idx this ind value st = (Throw e, st') → objs st' = objs st1.
Proof.
  intros Hv0 Hind Hens Hv1. destruct st as [h a o tr], st1 as [h1 a1 o1 tr1].
  simpl in Hv0, Hv1. unfold insert_idx, bind.
  exec (get_sz_eq h a o tr this _ Hv0).
  destruct (Z.ltb_spec (sz_ v0) ind); [lia|].
  rewrite Hens. exec (get_sz_eq h1 a1 o1 tr1 this _ Hv1).
  exec (get_data_eq h1 a1 o1 tr1 this _ Hv1).
  intros Htail.
  by apply (insert_tail_throw this ind value (sz_ v1) (data_ v1)) in Htail.
Qed.

Lemma insert_idx_throw_sz st this p l rest ind value e st' :
  1 ≤ sizeof_T < 2 ^ 64 → holds st this p l rest → 0 ≤ ind →
  insert_idx this ind value st = (Throw e, st') →
  ∃ v', objs st' !! this = Some v' ∧ sz_ v' = Z.of_nat (length l).
Proof.
  intros Hsize Hholds Hind Hins. pose proof Hholds as (Hv & Hcap & Hbuf).
  destruct st as [h a o0 tr]. simpl in Hv.
  destruct (decide (Z.of_nat (length l) < ind)) as [Hgt|Hle].
  { erewrite insert_idx_out_of_bound in Hins; [|exact Hv|done].
    injection Hins as <- <-. eauto. }
  assert (Hthrow : ∀ e1 tr1,
            ensure_capacity this (wrap (Z.of_nat (length l) + 1)) (State h a o0 tr)
            = (Throw e1, State h a o0 tr1) →
            ∃ v', objs st' !! this = Some v' ∧ sz_ v' = Z.of_nat (length l)).
  { intros e1 tr1 Hens.
    erewrite (insert_idx_ensure_throws (State h a o0 tr) this _ ind value)
      in Hins; [|exact Hv|simpl; lia|exact Hens].
    injection Hins as <- <-. eauto. }
  destruct rest as [|r0 rest1].
  - set (ncap := double_cap (Z.of_nat (length l))).
    destruct (decide (ncap * sizeof_T ≤ a ∧ ncap * sizeof_T ≤ PTRDIFF_MAX))
      as [[Ha Hmax]|Hno].
    + destruct (decide (length (copy_prefix l) = length l)) as [Hall|Hcp].
      * assert (Hcp : copy_prefix l = l)
          by (rewrite copy_prefix_prefix, Hall; apply firstn_all).
        destruct (ensure_capacity_full_grow Hsize _ _ _ _ _ _ _ _ Hholds
                    eq_refl Ha Hmax Hcp) as [Hens (Hv1 & _)].
        assert (Hind' : ind ≤ Z.of_nat (length l)) by lia.
        rewrite (insert_idx_throw_after (State h a o0 tr) this _ ind value _ _ e st'
                   Hv Hind' Hens Hv1 Hins).
        rewrite Hv1. eauto.
      * eapply Hthrow.
        eapply (ensure_capacity_full_copy_throws Hsize _ _ _ _ _ _ _ _ Hholds
                  eq_refl Ha Hmax).
        intros Heq. by rewrite Heq in Hcp.
    + eapply Hthrow.
      by eapply (ensure_capacity_full_bad_alloc Hsize _ _ _ _ _ _ _ _ Hholds eq_refl).
  - pose proof (ensure_capacity_room Hsize _ _ _ _ _ _ _ _ Hholds ltac:(done)) as Hens.
    assert (Hind' : ind ≤ Z.of_nat (length l)) by lia.
    rewrite (insert_idx_throw_after (State h a o0 tr) this _ ind value _ _ e st'
               Hv Hind' Hens Hv Hins).
    cbn [objs]. rewrite Hv. eauto.
Qed.

(** X22: when [insert(ind, v)] throws, whatever the cause (the index, the
    allocation, a copy or an assignment of [T] in the middle of the shift),
    the sequence is well formed and has the size it had; its capacity is the
    old one or twice that. *)
Theorem X22_failed_insert st this p l rest ind value e st' :
  1 ≤ sizeof_T < 2 ^ 64 → holds st this p l rest → 0 ≤ ind →
  insert_idx this ind value st = (Throw e, st') →
  ∃ p' l' rest',
    holds st' this p' l' rest' ∧ length l' = length l ∧
    grows (Z.of_nat (length l + length rest)) (Z.of_nat (length l' + length rest')).
Proof.
  intros Hsize Hholds Hind Hins.
  destruct (insert_idx_throw_sz _ _ _ _ _ _ _ _ _ Hsize Hholds Hind Hins)
    as (v1 & Hv1 & Hsz).
  destruct (insert_idx_outcome _ _ _ _ _ _ _ _ _ Hsize Hholds Hind Hins eq_refl)
    as (v & v' & l' & rest' & Hv & Ho & Hholds' & _ & _ & Hgrows).
  pose proof Hholds as (Hv0 & _). rewrite Hv0 in Hv. injection Hv as <-.
  pose proof Hholds' as (Hv' & _). rewrite Hv1 in Hv'. injection Hv' as Heq.
  subst v1. cbn [sz_] in Hsz.
  assert (Hcap' : cap_ v' = Z.of_nat (length l' + length rest')).
  { rewrite Ho, lookup_insert_eq in Hv1. by injection Hv1 as ->. }
  exists (data_ v'), l', rest'. split; [done|]. split; [lia|].
  cbn [cap_] in Hgrows. by rewrite <- Hcap'.
Qed.

(** [erase(iterator)]: an exception leaves the objects alone. *)
Lemma erase_it_throw this pos st e st' :
  erase_it this pos st = (Throw e, st') → objs st' = objs st.
Proof.
  unfold erase_it. destruct (negb _); [by intros [= _ <-]|].
  apply so_bind_throw; [apply so_get_sz|]. intros sz st1.
  destruct (sz <=? idx pos); [by intros [= _ <-]|].
  apply so_bind_throw; [apply so_get_data|]. intros d st2.
  destruct (idx pos =? wrap (sz - 1)).
  - apply so_bind_throw; [apply so_destroy_at|]. intros _ st3 H.
    apply (ot_bind (λ _, False)) in H; [done|apply ot_set_sz|].
    intros _. apply ot_end.
  - apply so_bind_throw.
    { apply so_for. intros i. apply so_bind; [apply so_load|intros; apply so_assign_at]. }
    intros _ st3. apply so_bind_throw; [apply so_destroy_at|].
    intros _ st4 H. by apply set_sz_ret_throw in H.
Qed.

(** X23: when [erase] through an iterator throws, because of the iterator or
    of an assignment of [T] in the middle of the shift, no member of any
    sequence has changed: the sequence is well formed in the same buffer,
    with the size and the capacity it had. *)
Theorem X23_failed_erase st this p l rest pos e st' :
  1 ≤ sizeof_T → holds st this p l rest → 0 ≤ idx pos →
  erase_it this pos st = (Throw e, st') →
  objs st' = objs st ∧
  ∃ l' rest', holds st' this p l' rest' ∧
              length l' = length l ∧ length rest' = length rest.
Proof.
  intros Hsize Hholds Hidx Her.
  pose proof (erase_it_throw _ _ _ _ _ Her) as Hobjs. split; [done|].
  destruct (erase_it_outcome _ _ _ _ _ _ _ _ Hsize Hholds Hidx Her eq_refl)
    as (v & v' & l' & rest' & Hv & Ho & Hholds' & _).
  pose proof Hholds as (Hv0 & _). pose proof Hholds' as (Hv' & _).
  rewrite Hobjs, Hv0 in Hv'. injection Hv' as Hd Hs Hc.
  exists l', rest'. rewrite Hd. split; [done|]. lia.
Qed.

(** ** No block without a sequence *)

Lemma same_bufs_refl st : same_bufs st st.
Proof. by split. Qed.

Lemma same_bufs_trans st1 st2 st3 :
  same_bufs st1 st2 → same_bufs st2 st3 → same_bufs st1 st3.
Proof.
  intros [Hh Hb] [Hh' Hb']. split.
  - intros q. by rewrite Hh', Hh.
  - intros x. by rewrite Hb', Hb.
Qed.

Lemma kb_of_so {A} (m : M A) : stores_only m → keeps_bufs m.
Proof.
  intros Hm st o st' H. destruct (Hm _ _ _ H) as [Ho Hh].
  split; [done|]. intros x. unfold buffer_of. by rewrite Ho.
Qed.

Lemma kb_bind {A B} (m : M A) (k : A → M B) :
  keeps_bufs m → (∀ a, keeps_bufs (k a)) → keeps_bufs (bind m k).
Proof.
  intros Hm Hk st o st'. unfold bind.
  destruct (m st) as [[a|e| |] st1] eqn:E; intros H.
  - eapply same_bufs_trans; [by eapply Hm|by eapply Hk].
  - injection H as <- <-. by eapply Hm.
  - injection H as <- <-. by eapply Hm.
  - injection H as <- <-. by eapply Hm.
Qed.

Lemma kb_for ixs body : (∀ i, keeps_bufs (body i)) → keeps_bufs (for_ ixs body).
Proof.
  intros Hb. induction ixs as [|i ixs IH]; simpl.
  - apply kb_of_so, so_ret.
  - apply kb_bind; auto.
Qed.

(** Setting a member other than [data_]. *)
Lemma kb_put (f : vector → vector) this :
  (∀ v, data_ (f v) = data_ v) →
  keeps_bufs (let! v := get_vec this in put_vec this (f v)).
Proof.
  intros Hf st o st'. unfold bind, get_vec, put_vec.
  destruct (objs st !! this) as [v|] eqn:Hv; [|by intros [= <- <-]].
  cbn [objs]. rewrite Hv. intros [= <- <-]. split; [done|].
  intros x. unfold buffer_of. cbn [objs].
  destruct (decide (x = this)) as [->|Hx].
  - by rewrite lookup_insert_eq, Hv; simpl; rewrite Hf.
  - by rewrite lookup_insert_ne.
Qed.

Lemma kb_set_sz this n : keeps_bufs (set_sz this n).
Proof. by apply (kb_put (λ v, Vector (data_ v) n (cap_ v))). Qed.

Lemma kb_set_cap this n : keeps_bufs (set_cap this n).
Proof. by apply (kb_put (λ v, Vector (data_ v) (sz_ v) n)). Qed.

Lemma so_end this : stores_only (end_ this).
Proof. apply so_bind; [apply so_get_sz|intros; apply so_ret]. Qed.

Ltac so_step :=
  first
    [ apply so_ret | apply so_throw | apply so_get_vec | apply so_get_data
    | apply so_get_sz | apply so_end | apply so_load | apply so_destroy_at
    | apply so_construct_at | apply so_assign_at
    | apply so_for; intros ?
    | apply so_bind; [|intros ?]
    | match goal with
      | |- stores_only (if ?b then _ else _) => destruct b
      end ].

Ltac kb_step :=
  first
    [ apply kb_set_sz | apply kb_set_cap
    | apply kb_of_so; solve [repeat so_step]
    | apply kb_bind; [|intros ?]
    | apply kb_for; intros ?
    | match goal with
      | |- keeps_bufs (if ?b then _ else _) => destruct b
      end ].

Lemma kb_erase_it this pos : keeps_bufs (erase_it this pos).
Proof. unfold erase_it. repeat kb_step. Qed.

Lemma kb_erase_idx this ind : keeps_bufs (erase_idx this ind).
Proof. unfold erase_idx. repeat first [apply kb_erase_it|kb_step]. Qed.

Lemma kb_pop_back this : keeps_bufs (pop_back this).
Proof. unfold pop_back. repeat kb_step. Qed.

Lemma kb_clear this : keeps_bufs (clear this).
Proof. unfold clear. repeat kb_step. Qed.

(** [insert] is a bounds check, [ensure_capacity], and a part that keeps
    the buffers. *)
Lemma insert_idx_run st this v ind value o st' :
  objs st !! this = Some v →
  insert_idx this ind value st = (o, st') → finished o = true →
  same_bufs st st' ∨
  ∃ o1 st1, ensure_capacity this (wrap (sz_ v + 1)) st = (o1, st1) ∧
            finished o1 = true ∧ same_bufs st1 st'.
Proof.
  intros Hv. destruct st as [h a o0 tr]. simpl in Hv.
  unfold insert_idx. rewrite (bind_Ret _ _ _ _ _ (get_sz_eq h a o0 tr this _ Hv)).
  destruct (sz_ v <? ind).
  { intros [= <- <-] _. left. apply same_bufs_refl. }
  intros Hrun Hfin. right.
  apply bind_inv in Hrun as [(x & st1 & Hens & Htail)|(e & Hens & ->)]; [| |done].
  - exists (Ret x), st1. split; [done|]. split; [done|].
    revert Htail. generalize st1 o st'.
    change (keeps_bufs
      (let! sz := get_sz this in
       let! d := get_data this in
       if ind =? sz then
         construct_at d sz value ;;
         set_sz this (wrap (sz + 1)) ;;
         ret (Iterator this ind)
       else
         (let! x := load d (wrap (sz - 1)) in construct_at d sz x) ;;
         for_ (reverse (seqZ (ind + 1) (wrap (sz - 1) - ind))) (λ i,
           let! x := load d (wrap (i - 1)) in assign_at d i x) ;;
         assign_at d ind value ;;
         set_sz this (wrap (sz + 1)) ;;
         ret (Iterator this ind))).
    repeat kb_step.
  - exists (Throw e), st'. split; [done|]. split; [done|apply same_bufs_refl].
Qed.

Lemma footprint_same this st st' : same_bufs st st' → footprint this st st'.
Proof.
  intros [Hh Hb]. split; [intros x _; apply Hb|].
  intros q Hq. right. split; [by apply Hh|]. intros Hq' _. by rewrite Hb.
Qed.

Lemma footprint_then this st st1 st' :
  footprint this st st1 → same_bufs st1 st' → footprint this st st'.
Proof.
  intros [Hothers Hblocks] [Hh Hb]. split.
  - intros x Hx. rewrite Hb. by apply Hothers.
  - intros q Hq. rewrite Hb. apply Hblocks. by apply Hh.
Qed.

(** [ensure_capacity(sz_ + 1)]: a buffer that is left is released. *)
Lemma ensure_capacity_footprint st this p l rest o1 st1 :
  1 ≤ sizeof_T < 2 ^ 64 → holds st this p l rest →
  ensure_capacity this (wrap (Z.of_nat (length l) + 1)) st = (o1, st1) →
  footprint this st st1.
Proof.
  intros Hsize Hholds. pose proof Hholds as (Hv & _ & Hbuf).
  destruct st as [h a o tr]. simpl in Hv.
  assert (Hsame : ∀ tr1, footprint this (State h a o tr) (State h a o tr1))
    by (intros tr1; apply footprint_same; by split).
  destruct rest as [|r0 rest1].
  - set (ncap := double_cap (Z.of_nat (length l))).
    destruct (decide (ncap * sizeof_T ≤ a ∧ ncap * sizeof_T ≤ PTRDIFF_MAX))
      as [[Ha Hmax]|Hno].
    + destruct (decide (length (copy_prefix l) = length l)) as [Hall|Hthrow].
      * assert (Hcp : copy_prefix l = l)
          by (rewrite copy_prefix_prefix, Hall; apply firstn_all).
        destruct (ensure_capacity_full_grow Hsize _ _ _ _ _ _ _ _ Hholds
                    eq_refl Ha Hmax Hcp) as [Hens _].
        rewrite Hens. intros [= <- <-].
        pose proof (fresh_ptr_pos h) as Hpos.
        split; unfold buffer_of; cbn [objs heap].
        { intros x Hx. by rewrite lookup_insert_ne. }
        intros q Hq. rewrite lookup_insert_eq, Hv. cbn [fmap option_fmap option_map data_].
        destruct (decide (q = fresh_ptr h)) as [->|Hne]; [left; split; [done|lia]|].
        right. unfold released in Hq. destruct (decide (p = 0)) as [->|Hp].
        -- rewrite lookup_insert_ne in Hq by done. split; [done|].
           intros [= <-] Hnz. done.
        -- destruct (decide (q = p)) as [->|Hqp].
           ++ rewrite lookup_delete_eq in Hq. by destruct Hq.
           ++ rewrite lookup_delete_ne, lookup_insert_ne in Hq by done.
              split; [done|]. intros [= <-]. done.
      * assert (Hcp : copy_prefix l ≠ l) by (intros Hcp; by rewrite Hcp in Hthrow).
        rewrite (ensure_capacity_full_copy_throws Hsize _ _ _ _ _ _ _ _ Hholds
                   eq_refl Ha Hmax Hcp).
        intros [= <- <-]. apply Hsame.
    + rewrite (ensure_capacity_full_bad_alloc Hsize _ _ _ _ _ _ _ _ Hholds eq_refl Hno).
      intros [= <- <-]. apply Hsame.
  - rewrite (ensure_capacity_room Hsize _ _ _ _ _ _ _ _ Hholds ltac:(done)).
    intros [= <- <-]. apply Hsame.
Qed.

Lemma insert_idx_footprint st this p l rest ind value o st' :
  1 ≤ sizeof_T < 2 ^ 64 → holds st this p l rest →
  insert_idx this ind value st = (o, st') → finished o = true →
  footprint this st st'.
Proof.
  intros Hsize Hholds Hins Hfin. pose proof Hholds as (Hv & _).
  destruct (insert_idx_run _ _ _ _ _ _ _ Hv Hins Hfin)
    as [Hsame|(o1 & st1 & Hens & _ & Hsame)].
  - by apply footprint_same.
  - eapply footprint_then; [|exact Hsame].
    eapply ensure_capacity_footprint; [done|exact Hholds|exact Hens].
Qed.

Lemma push_back_footprint st this p l rest value o st' :
  1 ≤ sizeof_T < 2 ^ 64 → holds st this p l rest →
  push_back this value st = (o, st') → finished o = true →
  footprint this st st'.
Proof.
  intros Hsize Hholds Hpush Hfin.
  destruct (insert_end_push_back st this p l rest value Hsize Hholds) as (_ & Ho & Hst).
  rewrite Hpush in Ho, Hst. simpl in Ho, Hst.
  destruct (insert_idx this (Z.of_nat (length l)) value st) as [o1 st1] eqn:Hins.
  simpl in Ho, Hst. subst st1.
  eapply insert_idx_footprint; [done|exact Hholds|exact Hins|].
  by destruct o1, o.
Qed.

Lemma perform_footprint c st r st' this p l rest :
  1 ≤ sizeof_T < 2 ^ 64 →
  single c = Some this → holds st this p l rest →
  perform c st = (r, st') → finished r = true →
  footprint this st st'.
Proof.
  intros Hsize Hc Hholds Hperf Hfin.
  destruct c; simpl in Hc; try done; injection Hc as ->; simpl in Hperf.
  - by eapply push_back_footprint.
  - apply footprint_same. by eapply kb_pop_back.
  - destruct (insert_idx this ind value st) as [o1 st1] eqn:Hop.
    simpl in Hperf. injection Hperf as <- <-. rewrite finished_void in Hfin.
    by eapply insert_idx_footprint.
  - destruct (insert_it this pos value st) as [o1 st1] eqn:Hop.
    simpl in Hperf. injection Hperf as <- <-. rewrite finished_void in Hfin.
    unfold insert_it in Hop. destruct (negb _).
    + injection Hop as <- <-. apply footprint_same, same_bufs_refl.
    + by eapply insert_idx_footprint.
  - destruct (erase_idx this ind st) as [o1 st1] eqn:Hop.
    simpl in Hperf. injection Hperf as <- <-.
    apply footprint_same. by eapply kb_erase_idx.
  - destruct (erase_it this pos st) as [o1 st1] eqn:Hop.
    simpl in Hperf. injection Hperf as <- <-.
    apply footprint_same. by eapply kb_erase_it.
  - apply footprint_same. by eapply kb_clear.
Qed.

Lemma owned_footprint this st st' : owned st → footprint this st st' → owned st'.
Proof.
  intros Hown [Hothers Hblocks] q Hq.
  destruct (Hblocks q Hq) as [[Hthis Hnz]|[Hq0 Hkeep]]; [eauto|].
  destruct (Hown q Hq0) as [Hnz [x Hx]]. split; [done|].
  destruct (decide (x = this)) as [->|Hne]; [eauto|].
  exists x. by rewrite Hothers.
Qed.

Lemma owned_same st st' :
  owned st → heap st' = heap st → objs st' = objs st → owned st'.
Proof.
  intros Hown Hh Ho q. unfold buffer_of. rewrite Hh, Ho. apply Hown.
Qed.

(** The states a copy construction can end in. *)
Lemma new_vector_copy_cases h a o tr other po l rest r st' :
  1 ≤ sizeof_T → holds (State h a o tr) other po l rest →
  new_vector_copy other (State h a o tr) = (r, st') →
  (heap st' = h ∧ objs st' = o) ∨
  (heap st' = copy_heap h l ∧
   objs st' = <[fresh_ptr o := Vector (copy_data h l) (Z.of_nat (length l))
                                      (Z.of_nat (length l))]> o).
Proof.
  intros Hsize Hother. set (bytes := Z.of_nat (length l) * sizeof_T).
  assert (Hok : l = [] ∨ (bytes ≤ a ∧ bytes ≤ PTRDIFF_MAX ∧ copy_prefix l = l) →
                new_vector_copy other (State h a o tr) = (r, st') →
                heap st' = copy_heap h l ∧
                objs st' = <[fresh_ptr o := Vector (copy_data h l) (Z.of_nat (length l))
                                                   (Z.of_nat (length l))]> o).
  { intros Hcase Hcopy.
    destruct (new_vector_copy_success h a o tr other po l rest Hsize Hother Hcase)
      as [Heq _].
    rewrite Heq in Hcopy. by injection Hcopy as <- <-. }
  destruct (decide (length l = 0%nat)) as [H0|H0].
  { intros Hcopy. right. apply Hok; [left; by apply nil_length_inv|done]. }
  assert (Hl : l ≠ []) by (by intros ->).
  destruct (decide (bytes ≤ a ∧ bytes ≤ PTRDIFF_MAX)) as [[Ha Hmax]|Hno].
  - destruct (decide (length (copy_prefix l) = length l)) as [Hall|Hcp].
    + assert (Hcp : copy_prefix l = l)
        by (rewrite copy_prefix_prefix, Hall; apply firstn_all).
      intros Hcopy. right. apply Hok; [by right|done].
    + erewrite new_vector_copy_throws; try done.
      * intros [= <- <-]. by left.
      * intros Heq. by rewrite Heq in Hcp.
  - erewrite new_vector_copy_bad_alloc; try done.
    intros [= <- <-]. by left.
Qed.

(** The states a copy assignment can end in. *)
Lemma assign_cases h a o tr this pt lt restt other po l rest r st' :
  1 ≤ sizeof_T →
  holds (State h a o tr) this pt lt restt → holds (State h a o tr) other po l rest →
  assign this other (State h a o tr) = (r, st') →
  (heap st' = h ∧ objs st' = o) ∨
  (heap st' = released pt (copy_heap h l) ∧
   objs st' = <[this := Vector (copy_data h l) (Z.of_nat (length l))
                                (Z.of_nat (length l))]> o).
Proof.
  intros Hsize Hthis Hother.
  destruct (decide (this = other)) as [->|Hne].
  { rewrite assign_self. intros [= <- <-]. by left. }
  set (bytes := Z.of_nat (length l) * sizeof_T).
  assert (Hok : l = [] ∨ (bytes ≤ a ∧ bytes ≤ PTRDIFF_MAX ∧ copy_prefix l = l) →
                assign this other (State h a o tr) = (r, st') →
                heap st' = released pt (copy_heap h l) ∧
                objs st' = <[this := Vector (copy_data h l) (Z.of_nat (length l))
                                            (Z.of_nat (length l))]> o).
  { intros Hcase Hassign.
    destruct (assign_ok h a o tr this pt lt restt other po l rest
                Hsize Hne Hthis Hother Hcase) as [Heq _].
    rewrite Heq in Hassign. by injection Hassign as <- <-. }
  destruct (decide (length l = 0%nat)) as [H0|H0].
  { intros Hassign. right. apply Hok; [left; by apply nil_length_inv|done]. }
  assert (Hl : l ≠ []) by (by intros ->).
  destruct (decide (bytes ≤ a ∧ bytes ≤ PTRDIFF_MAX)) as [[Ha Hmax]|Hno].
  - destruct (decide (length (copy_prefix l) = length l)) as [Hall|Hcp].
    + assert (Hcp : copy_prefix l = l)
        by (rewrite copy_prefix_prefix, Hall; apply firstn_all).
      intros Hassign. right. apply Hok; [by right|done].
    + erewrite assign_copy_fails; [|done|eapply new_vector_copy_throws; try done].
      * intros [= <- <-]. by left.
      * intros Heq. by rewrite Heq in Hcp.
  - erewrite assign_copy_fails; [|done|eapply new_vector_copy_bad_alloc; try done].
    intros [= <- <-]. by left.
Qed.

Lemma copy_heap_blocks (h : gmap Z (list (option T))) l q :
  is_Some (copy_heap h l !! q) →
  (q = copy_data h l ∧ q ≠ 0 ∧ h !! q = None) ∨ is_Some (h !! q).
Proof.
  unfold copy_heap, copy_data. destruct l as [|x l0]; [by right|].
  destruct (decide (q = fresh_ptr h)) as [->|Hq].
  - intros _. left. pose proof (fresh_ptr_pos h). split; [done|].
    split; [lia|apply fresh_ptr_fresh].
  - rewrite lookup_insert_ne by done. by right.
Qed.

Section leak.
Hypothesis sizeof_T_range : 1 ≤ sizeof_T < 2 ^ 64.

Lemma perform_owned c st r st' :
  consistent st → owned st → well_typed c = true →
  Forall (λ x, is_Some (objs st !! x)) (targets c) →
  perform c st = (r, st') → finished r = true →
  owned st'.
Proof.
  intros Hcons Hown Hty Htargets Hperf Hfin.
  destruct (single c) as [this|] eqn:Hc.
  { rewrite (single_target _ _ Hc) in Htargets.
    apply Forall_cons in Htargets as [[v Hv] _].
    destruct (proj1 Hcons this v Hv) as (l & rest & Hholds).
    eapply owned_footprint; [exact Hown|].
    by eapply perform_footprint. }
  destruct c; simpl in Hc; try done; simpl in Hperf, Htargets.
  - destruct st as [h a o tr]. rewrite new_vector_eq in Hperf.
    simpl in Hperf. injection Hperf as <- <-. intros q Hq.
    destruct (Hown q Hq) as [Hnz [x Hx]]. split; [done|]. exists x.
    unfold buffer_of in *. cbn [objs] in *.
    rewrite lookup_insert_ne; [done|]. intros <-.
    by rewrite fresh_ptr_fresh in Hx.
  - apply Forall_cons in Htargets as [[v Hv] _].
    destruct (proj1 Hcons other v Hv) as (l & rest & Hholds).
    destruct (new_vector_copy other st) as [o1 st1] eqn:Hop.
    simpl in Hperf. injection Hperf as <- <-. destruct st as [h a o tr].
    destruct (new_vector_copy_cases _ _ _ _ _ _ _ _ _ _ ltac:(lia) Hholds Hop)
      as [[Hh Ho]|[Hh Ho]]; [by eapply owned_same|].
    intros q Hq. rewrite Hh in Hq. unfold buffer_of. rewrite Ho.
    destruct (copy_heap_blocks _ _ _ Hq) as [(-> & Hnz & _)|Hq0].
    + split; [done|]. exists (fresh_ptr o). by rewrite lookup_insert_eq.
    + destruct (Hown q Hq0) as [Hnz [x Hx]]. split; [done|]. exists x.
      unfold buffer_of in Hx. cbn [objs] in Hx.
      rewrite lookup_insert_ne; [done|]. intros <-.
      by rewrite fresh_ptr_fresh in Hx.
  - apply Forall_cons in Htargets as [[v Hv] Htargets].
    apply Forall_cons in Htargets as [[w Hw] _].
    destruct (proj1 Hcons this v Hv) as (lt & restt & Hthis).
    destruct (proj1 Hcons other w Hw) as (l & rest & Hother).
    destruct (assign this other st) as [o1 st1] eqn:Hop.
    simpl in Hperf. injection Hperf as <- <-. destruct st as [h a o tr].
    destruct (assign_cases _ _ _ _ _ _ _ _ _ _ _ _ _ _ ltac:(lia) Hthis Hother Hop)
      as [[Hh Ho]|[Hh Ho]]; [by eapply owned_same|].
    intros q Hq. rewrite Hh in Hq. unfold buffer_of. rewrite Ho.
    assert (Hq1 : is_Some (copy_heap h l !! q) ∧ (data_ v ≠ 0 → q ≠ data_ v)).
    { unfold released in Hq.
      destruct (decide (data_ v = 0)) as [Hz|Hnz]; [done|]. split.
      - destruct (decide (q = data_ v)) as [->|Hne].
        + rewrite lookup_delete_eq in Hq. by destruct Hq.
        + by rewrite lookup_delete_ne in Hq.
      - intros _ ->. rewrite lookup_delete_eq in Hq. by destruct Hq. }
    destruct Hq1 as [Hq1 Hq2].
    destruct (copy_heap_blocks _ _ _ Hq1) as [(-> & Hnz & _)|Hq0].
    + split; [done|]. exists this. by rewrite lookup_insert_eq.
    + destruct (Hown q Hq0) as [Hnz [x Hx]]. split; [done|]. exists x.
      unfold buffer_of in Hx. cbn [objs] in Hx.
      rewrite lookup_insert_ne; [done|]. intros <-.
      cbn [objs] in Hv. rewrite Hv in Hx. simpl in Hx. injection Hx as Hx.
      apply Hq2; congruence.
  - apply Forall_cons in Htargets as [[v Hv] Htargets].
    apply Forall_cons in Htargets as [[w Hw] _].
    destruct st as [h a o tr]. cbn [objs] in *.
    destruct (decide (this = rhs)) as [->|Hne].
    + erewrite swap_self in Hperf by done. by injection Hperf as <- <-.
    + erewrite swap_eq in Hperf by done. injection Hperf as <- <-.
      intros q Hq. destruct (Hown q Hq) as [Hnz [x Hx]]. split; [done|].
      unfold buffer_of in *. cbn [objs heap] in *.
      destruct (decide (x = this)) as [->|Hxt].
      * exists rhs. rewrite lookup_insert_eq. by rewrite Hv in Hx.
      * destruct (decide (x = rhs)) as [->|Hxr].
        -- exists this. rewrite lookup_insert_ne, lookup_insert_eq by done.
           by rewrite Hw in Hx.
        -- exists x. by rewrite !lookup_insert_ne.
Qed.

Lemma reachable_owned st : reachable (λ _, true) st → owned st.
Proof.
  induction 1 as [a|st c r st' Hreach IH _ Hty Htargets Hperf Hfin].
  - intros q [blk Hq]. cbn [heap] in Hq. by rewrite lookup_empty in Hq.
  - eapply perform_owned; try done.
    by eapply (reachable_consistent sizeof_T_range).
Qed.

End leak.

(** X24: in every state reachable by the public operations, whether they
    returned or threw, every block of the free store is the buffer of exactly
    one sequence and has as many slots as that sequence has capacity: no
    operation leaks a buffer, not on any of its exceptions either. *)
Theorem X24_no_leak st q blk :
  1 ≤ sizeof_T < 2 ^ 64 → reachable (λ _, true) st →
  heap st !! q = Some blk →
  q ≠ 0 ∧
  ∃ x v, objs st !! x = Some v ∧ data_ v = q ∧
         Z.of_nat (length blk) = cap_ v ∧
         ∀ y w, objs st !! y = Some w → data_ w = q → y = x.
Proof.
  intros Hsize Hreach Hq.
  destruct (reachable_owned Hsize _ Hreach q) as [Hnz [x Hx]]; [by eexists|].
  destruct (reachable_consistent Hsize _ _ Hreach) as [Hwf Hdis].
  split; [done|]. unfold buffer_of in Hx.
  destruct (objs st !! x) as [v|] eqn:Hv; [|done]. simpl in Hx. injection Hx as Hx.
  exists x, v. split; [done|]. split; [done|].
  destruct (Hwf x v Hv) as (l & rest & (Hv' & _ & Hbuf)).
  rewrite Hv in Hv'. injection Hv' as ->. cbn [data_ cap_] in *. subst q.
  rewrite decide_False in Hbuf by done. destruct Hbuf as [_ Hblk].
  rewrite Hq in Hblk. injection Hblk as ->. split.
  - rewrite length_app, length_fmap. done.
  - intros y w Hw Hdw. destruct (decide (y = x)) as [|Hne]; [done|].
    exfalso. eapply (Hdis y x w); [done|exact Hw|exact Hv|by rewrite Hdw|done].
Qed.

(** ** Iterators are positions *)


(** X26: after [swap], an iterator still belongs to the sequence it was
    made for, which now has the other one's elements: it dereferences to the
    element that the other sequence had at its index. *)
Theorem X26_iterator_after_swap st a b pa la ra pb lb rb (i : nat) x :
  holds st a pa la ra → holds st b pb lb rb → a ≠ b → a ≠ 0 →
  lb !! i = Some x →
  ∃ st',
    swap a b st = (Ret tt, st') ∧
    deref (Iterator a (Z.of_nat i)) st' = (Ret x, st').
Proof.
  intros Ha Hb Hne Hnz Hx. pose proof Ha as (Hva & _). pose proof Hb as (Hvb & _).
  destruct st as [h av o tr]. simpl in Hva, Hvb.
  rewrite (swap_eq h av o tr a b _ _ Hne Hva Hvb).
  eexists. split; [done|].
  erewrite (deref_eq _ a pb lb rb (Z.of_nat i)); [by rewrite Nat2Z.id, Hx| |done|lia].
  eapply holds_move; [exact Hb| |done]. cbn [objs]. by simplify_map_eq.
Qed.

(** ** [insert] and then [at] *)



(** ** Declaring a sequence *)

(** X28: a sequence that is declared without arguments is empty and has no
    buffer: nothing is allocated before the first element arrives. *)
Theorem X28_default_constructor st :
  ∃ this st',
    new_vector st = (Ret this, st') ∧
    objs st !! this = None ∧
    holds st' this 0 [] [] ∧
    contents st' this = Some [] ∧
    heap st' = heap st ∧ avail st' = avail st ∧ trace st' = trace st ∧
    ∀ x, x ≠ this → objs st' !! x = objs st !! x.
Proof.
  destruct st as [h a o tr]. rewrite new_vector_eq.
  assert (Hholds : holds (State h a (<[fresh_ptr o := Vector 0 0 0]> o) tr)
                         (fresh_ptr o) 0 [] []).
  { apply holds_null. cbn [objs]. by rewrite lookup_insert_eq. }
  eexists _, _. split; [done|]. split; [apply fresh_ptr_fresh|].
  split; [exact Hholds|]. split; [by eapply holds_contents|].
  cbn [heap avail trace objs]. split; [done|]. split; [done|]. split; [done|].
  intros x Hx. by rewrite lookup_insert_ne.
Qed.

(** ** The element that a failed [insert] leaves in slot [sz] *)

Section keeps_slot.
Variables (p : Z) (n : nat).

Lemma ks_ret {A} (a : A) : keeps_slot p n (ret a).
Proof. by intros st o st' y [= <- <-]. Qed.

Lemma ks_bind {A B} (m : M A) (k : A → M B) :
  keeps_slot p n m → (∀ a, keeps_slot p n (k a)) → keeps_slot p n (bind m k).
Proof.
  intros Hm Hk st o st' y. unfold bind.
  destruct (m st) as [[a|e| |] st1] eqn:E; intros H Hslot.
  - eapply Hk; [exact H|]. by eapply Hm.
  - injection H as <- <-. by eapply Hm.
  - injection H as <- <-. by eapply Hm.
  - injection H as <- <-. by eapply Hm.
Qed.

Lemma ks_for ixs body :
  (∀ i, i ∈ ixs → keeps_slot p n (body i)) → keeps_slot p n (for_ ixs body).
Proof.
  induction ixs as [|i ixs IH]; intros Hb; simpl; [apply ks_ret|].
  apply ks_bind; [apply Hb; by left|]. intros _. apply IH.
  intros j Hj. apply Hb. by right.
Qed.

Lemma ks_load q i : keeps_slot p n (load q i).
Proof.
  intros st o st' y. unfold load.
  destruct (heap st !! q) as [blk|]; [|by intros [= <- <-]].
  by destruct (slot blk i) as [[|]|]; intros [= <- <-].
Qed.

Lemma ks_store q i x ev : Z.to_nat i ≠ n → keeps_slot p n (store q i x ev).
Proof.
  intros Hi st o st' y. unfold store.
  destruct (heap st !! q) as [blk|] eqn:Hq; intros [= <- <-]; [|done].
  intros (blk0 & Hblk0 & Hy). cbn [heap].
  destruct (decide (p = q)) as [->|Hne].
  - rewrite lookup_insert_eq. eexists. split; [done|].
    rewrite Hq in Hblk0. injection Hblk0 as <-.
    by rewrite list_lookup_insert_ne.
  - rewrite lookup_insert_ne by done. eauto.
Qed.

Lemma ks_assign_at q i x : Z.to_nat i ≠ n → keeps_slot p n (assign_at q i x).
Proof.
  intros Hi st o st' y. unfold assign_at.
  destruct (heap st !! q) as [blk|]; [|by intros [= <- <-]].
  destruct (slot blk i) as [[old|]|]; try by intros [= <- <-].
  destruct (assign_throws old x); [by intros [= <- <-]|by apply ks_store].
Qed.

End keeps_slot.

Lemma bind_throw_inv {A B} (m : M A) (k : A → M B) st e st' :
  bind m k st = (Throw e, st') →
  m st = (Throw e, st') ∨ ∃ a st1, m st = (Ret a, st1) ∧ k a st1 = (Throw e, st').
Proof.
  unfold bind. destruct (m st) as [[a|e1| |] st1]; intros H; try done.
  - right. eauto.
  - left. by injection H as <- <-.
Qed.

(** The shift of [insert] does not touch slot [sz]. *)
Lemma insert_shift_keeps d (sz : nat) ind :
  0 ≤ ind < Z.of_nat sz → Z.of_nat sz < 2 ^ 64 →
  keeps_slot d sz
    (for_ (reverse (seqZ (ind + 1) (wrap (Z.of_nat sz - 1) - ind))) (λ i,
       let! x := load d (wrap (i - 1)) in assign_at d i x)).
Proof.
  intros Hind Hsz. rewrite wrap_small by lia.
  apply ks_for. intros i Hi. apply elem_of_reverse, elem_of_seqZ in Hi.
  apply ks_bind; [apply ks_load|intros x; apply ks_assign_at; lia].
Qed.

(** [insert] before the end, after [ensure_capacity]: an exception leaves
    the copy of the last element in slot [sz]. *)
Lemma insert_idx_throw_slot st this v0 ind value h1 a1 o1 tr1 p1 l x r0 rest1 e st' :
  1 ≤ sizeof_T → copy_throws x = false →
  objs st !! this = Some v0 → sz_ v0 = Z.of_nat (length (l ++ [x])) →
  0 ≤ ind < Z.of_nat (length (l ++ [x])) →
  ensure_capacity this (wrap (sz_ v0 + 1)) st = (Ret tt, State h1 a1 o1 tr1) →
  holds (State h1 a1 o1 tr1) this p1 (l ++ [x]) (r0 :: rest1) →
  insert_idx this ind value st = (Throw e, st') →
  ∃ blk, heap st' !! p1 = Some blk ∧ blk !! length (l ++ [x]) = Some (Some x).
Proof.
  intros Hsize Hcopy Hv0 Hsz Hind Hens Hholds.
  pose proof (holds_cap_bound _ _ _ _ _ Hsize Hholds) as Hbound.
  unfold PTRDIFF_MAX in Hbound. simpl length in Hbound.
  destruct Hholds as (Hv & Hcap & Hbuf).
  destruct (decide (p1 = 0)) as [->|Hp]; [by destruct Hbuf|].
  destruct Hbuf as [_ Hblk]. simpl in Hblk, Hv.
  destruct st as [h a o tr]. simpl in Hv0.
  set (n := length (l ++ [x])) in *.
  assert (Hn : n = S (length l)) by (unfold n; rewrite length_app; simpl; lia).
  unfold insert_idx, bind. exec (get_sz_eq h a o tr this _ Hv0).
  destruct (Z.ltb_spec (sz_ v0) ind); [lia|].
  rewrite Hens. exec (get_sz_eq h1 a1 o1 tr1 this _ Hv).
  exec (get_data_eq h1 a1 o1 tr1 this _ Hv). cbn [sz_ data_ cap_].
  destruct (Z.eqb_spec ind (Z.of_nat n)); [lia|].
  replace (wrap (Z.of_nat n - 1)) with (Z.of_nat (length l)) at 1
    by (rewrite wrap_small; lia).
  erewrite load_eq; [|exact Hblk|].
  2:{ rewrite lookup_app_l by (rewrite length_fmap; lia).
      rewrite list_lookup_fmap, lookup_app_r by lia. by rewrite Nat.sub_diag. }
  erewrite construct_at_eq; [|exact Hblk|rewrite length_app, length_fmap; simpl; lia|done].
  intros Hrest.
  assert (Hslot : ∃ blk, heap (State (<[p1 := <[n := Some x]>
                                            ((Some <$> l ++ [x]) ++ r0 :: rest1)]> h1)
                                     a1 o1 (tr1 ++ [EvConstruct p1 (Z.of_nat n) x]))
                         !! p1 = Some blk ∧ blk !! n = Some (Some x)).
  { cbn [heap]. rewrite lookup_insert_eq. eexists. split; [done|].
    apply list_lookup_insert_eq. rewrite length_app, length_fmap. simpl. lia. }
  pose proof (insert_shift_keeps p1 n ind ltac:(lia) ltac:(lia)) as Hkeep.
  change (bind
            (for_ (reverse (seqZ (ind + 1) (wrap (Z.of_nat n - 1) - ind))) (λ i,
               let! x := load p1 (wrap (i - 1)) in assign_at p1 i x))
            (λ _, assign_at p1 ind value ;;
                  set_sz this (wrap (Z.of_nat n + 1)) ;;
                  ret (Iterator this ind))
            (State (<[p1 := <[n := Some x]> ((Some <$> l ++ [x]) ++ r0 :: rest1)]> h1)
                   a1 o1 (tr1 ++ [EvConstruct p1 (Z.of_nat n) x]))
          = (Throw e, st')) in Hrest.
  apply bind_throw_inv in Hrest as [Hthrow|(u & st2 & Hloop & Hrest)].
  { by eapply Hkeep. }
  pose proof (Hkeep _ _ _ _ Hloop Hslot) as Hslot2.
  apply bind_throw_inv in Hrest as [Hthrow|(u2 & st3 & _ & Hlast)].
  - eapply (ks_assign_at p1 n p1 ind value); [lia|exact Hthrow|exact Hslot2].
  - by apply set_sz_ret_throw in Hlast.
Qed.

(** X29: when an assignment of [T] throws in the middle of the shift of
    [insert(ind, v)] before the end, the copy of the last element that
    [insert] has constructed in slot [sz] is not destroyed: the size is
    still [sz], and slot [sz] of the buffer, which is outside the sequence,
    holds that element. *)
Theorem X29_failed_insert_slot st this p l x rest ind value st' :
  1 ≤ sizeof_T < 2 ^ 64 → (∀ y, copy_throws y = false) →
  holds st this p (l ++ [x]) rest → 0 ≤ ind < Z.of_nat (length (l ++ [x])) →
  insert_idx this ind value st = (Throw elem_exn, st') →
  ∃ v' blk,
    objs st' !! this = Some v' ∧ sz_ v' = Z.of_nat (length (l ++ [x])) ∧
    heap st' !! data_ v' = Some blk ∧
    blk !! length (l ++ [x]) = Some (Some x).
Proof.
  intros Hsize Hcopy Hholds Hind Hins. pose proof Hholds as (Hv & Hcap & Hbuf).
  destruct st as [h a o0 tr]. simpl in Hv.
  assert (Hind' : ind ≤ Z.of_nat (length (l ++ [x]))) by lia.
  assert (Hafter : ∀ h1 a1 o1 tr1 p1 r0 rest1,
            ensure_capacity this (wrap (Z.of_nat (length (l ++ [x])) + 1))
                            (State h a o0 tr)
            = (Ret tt, State h1 a1 o1 tr1) →
            holds (State h1 a1 o1 tr1) this p1 (l ++ [x]) (r0 :: rest1) →
            ∃ v' blk,
              objs st' !! this = Some v' ∧ sz_ v' = Z.of_nat (length (l ++ [x])) ∧
              heap st' !! data_ v' = Some blk ∧
              blk !! length (l ++ [x]) = Some (Some x)).
  { intros h1 a1 o1 tr1 p1 r0 rest1 Hens Hholds1.
    pose proof Hholds1 as (Hv1 & _). simpl in Hv1.
    pose proof (insert_idx_throw_after (State h a o0 tr) this _ ind value _ _
                  elem_exn st' Hv Hind' Hens Hv1 Hins) as Hobjs.
    destruct (insert_idx_throw_slot (State h a o0 tr) this _ ind value
                h1 a1 o1 tr1 p1 l x r0 rest1 elem_exn st'
                (proj1 Hsize) (Hcopy x) Hv eq_refl Hind Hens Hholds1 Hins)
      as (blk & Hblk & Hslot).
    eexists _, blk. rewrite Hobjs. split; [exact Hv1|]. cbn [sz_ data_]. done. }
  destruct rest as [|r0 rest1].
  - set (ncap := double_cap (Z.of_nat (length (l ++ [x])))).
    destruct (decide (ncap * sizeof_T ≤ a ∧ ncap * sizeof_T ≤ PTRDIFF_MAX))
      as [[Ha Hmax]|Hno].
    + destruct (ensure_capacity_full_grow Hsize _ _ _ _ _ _ _ _ Hholds
                  eq_refl Ha Hmax (copy_prefix_nothrow Hcopy _)) as [Hens Hholds1].
      eapply Hafter; [exact Hens|exact Hholds1].
    + pose proof (ensure_capacity_full_bad_alloc Hsize _ _ _ _ _ _ _ _ Hholds
                    eq_refl Hno) as Hens.
      erewrite (insert_idx_ensure_throws (State h a o0 tr) this _ ind value)
        in Hins; [|exact Hv|simpl; lia|exact Hens].
      done.
  - eapply Hafter; [|exact Hholds].
    exact (ensure_capacity_room Hsize _ _ _ _ _ _ _ _ Hholds ltac:(done)).
Qed.

End Vector.

(** * Concrete runs, with [int] elements *)

(** Copies of an [int] never throw. *)
Definition nothrow1 : Z → bool := λ _, false.
Definition nothrow2 : Z → Z → bool := λ _ _, false.

(** A fresh machine with 1000 bytes of free store. *)
Definition machine0 : @state Z := State ∅ 1000 ∅ [].

Definition exec {A} (m : M A) (st : @state Z) : @state Z := (m st).2.

(** [vector<int> a; a.push_back(1); a.push_back(2); a.push_back(3);] *)
Definition machine_new : @state Z := exec new_vector machine0.
Definition machine1 : @state Z := exec (push_back 4 nothrow1 1 1) machine_new.
Definition machine12 : @state Z := exec (push_back 4 nothrow1 1 2) machine1.
Definition machine123 : @state Z := exec (push_back 4 nothrow1 1 3) machine12.

Lemma holds_machine123 : holds 4 machine123 1 3 [1; 2; 3] [None].
Proof. vm_compute. repeat split; try done. lia. Qed.

(** The capacity went 0, 1, 2, 4, each time into a fresh buffer. *)
Example run_push_back :
  contents machine123 1 = Some [1; 2; 3] ∧
  objs machine123 !! 1 = Some (Vector 3 3 4) ∧
  trace machine123
  = [EvNew 1 4; EvConstruct 1 0 1;
     EvNew 2 8; EvConstruct 2 0 1; EvDestroy 1 0; EvDelete 1; EvConstruct 2 1 2;
     EvNew 3 16; EvConstruct 3 0 1; EvConstruct 3 1 2; EvDestroy 2 0; EvDestroy 2 1;
     EvDelete 2; EvConstruct 3 2 3].
Proof. repeat split. Qed.

Example run_insert :
  contents (exec (insert_idx 4 nothrow1 nothrow2 1 1 9) machine123) 1 = Some [1; 9; 2; 3] ∧
  contents (exec (insert_idx 4 nothrow1 nothrow2 1 3 9) machine123) 1 = Some [1; 2; 3; 9] ∧
  contents (exec (insert_idx 4 nothrow1 nothrow2 1 0 9) machine123) 1 = Some [9; 1; 2; 3].
Proof. repeat split. Qed.

Example run_erase :
  contents (exec (erase_idx nothrow2 1 0) machine123) 1 = Some [2; 3] ∧
  contents (exec (erase_idx nothrow2 1 2) machine123) 1 = Some [1; 2] ∧
  (erase_idx nothrow2 1 2 machine123).1 = Ret (Iterator 1 2) ∧
  (end_ 1 (exec (erase_idx nothrow2 1 2) machine123)).1 = Ret (Iterator 1 2).
Proof. repeat split. Qed.

Example run_checks :
  (pop_back 1 machine_new).1 = Throw container_is_empty ∧
  (front 1 machine_new).1 = Throw container_is_empty ∧
  (at_ 1 3 machine123).1 = Throw index_out_of_bound ∧
  (at_ 1 2 machine123).1 = Ret 3 ∧
  (deref (Iterator 1 3) machine123).1 = Throw invalid_iterator ∧
  (deref (Iterator 1 0) machine123).1 = Ret 1.
Proof. repeat split. Qed.




(** An element type whose copy constructor throws on the value 13. *)
Definition throws13 : Z → bool := λ x, x =? 13.

(** A full sequence [[1, 13, 3, 4]] in a buffer of capacity 4. *)
Definition machine_13 : @state Z :=
  State {[ 1 := [Some 1; Some 13; Some 3; Some 4] ]} 1000 {[ 1 := Vector 1 4 4 ]} [].

Lemma C3_ensure_capacity_witness :
  new_capacity 4 5 = Some 8 ∧
  ensure_capacity 4 throws13 1 5 machine_13
  = (Throw elem_exn,
     State (heap machine_13) (avail machine_13) (objs machine_13)
           [EvNew 2 32; EvConstruct 2 0 1; EvDestroy 2 0; EvDelete 2]).
Proof.
  destruct (C3_ensure_capacity 4 throws13 machine_13 1 1 [1; 13; 3; 4] [] 5)
    as (k & ncap & Hncap & _ & _ & _ & H).
  - lia.
  - vm_compute. repeat split; try done. lia.
  - simpl. lia.
  - simpl in Hncap. split; [reflexivity|].
    assert (ncap = 8) as -> by (vm_compute in Hncap; congruence).
    destruct H as [_ H]; [vm_compute; discriminate|].
    destruct (H 1%nat 13) as [H1 _].
    + reflexivity.
    + reflexivity.
    + intros y Hy. apply list_elem_of_singleton in Hy as ->. reflexivity.
    + exact H1.
Defined.


Lemma C7_insert_end_push_back_witness :
  (insert_idx 4 nothrow1 nothrow2 1 3 9 machine123).2
  = (push_back 4 nothrow1 1 9 machine123).2.
Proof.
  apply (C7_insert_end_push_back 4 nothrow1 nothrow2 machine123 1 3 [1; 2; 3] [None] 9).
  - lia.
  - vm_compute. repeat split; try done. lia.
Defined.



Lemma C9_insert_it_past_end_witness :
  insert_it 4 nothrow1 nothrow2 1 (Iterator 1 4) 9 machine123
  = (Throw index_out_of_bound, machine123).
Proof.
  apply (C9_insert_it_past_end 4 nothrow1 nothrow2 machine123 1 (Vector 3 3 4)
           (Iterator 1 4) 9).
  - reflexivity.
  - reflexivity.
  - simpl. lia.
Defined.

Lemma C5_copy_witness :
  (∃ st' d,
     new_vector_copy 4 nothrow1 1 machine123 = (Ret 2, st') ∧
     holds 4 st' 2 d [1; 2; 3] [] ∧ holds 4 st' 1 3 [1; 2; 3] [None] ∧ d ≠ 3) ∧
  (∃ tr', assign 4 throws13 2 1 (State {[ 1 := [Some 1; Some 13; Some 3; Some 4];
                                          5 := [Some 7; None] ]}
                                       1000
                                       {[ 1 := Vector 1 4 4; 2 := Vector 5 1 2 ]} [])
          = (Throw elem_exn,
             State {[ 1 := [Some 1; Some 13; Some 3; Some 4]; 5 := [Some 7; None] ]}
                   1000 {[ 1 := Vector 1 4 4; 2 := Vector 5 1 2 ]} tr')).
Proof.
  split.
  - destruct (C5_copy 4 nothrow1 machine123 1 3 [1; 2; 3] [None]) as [H _].
    + lia.
    + vm_compute. repeat split; try done. lia.
    + destruct H as (st' & d & H1 & _ & _ & H2 & H3 & H4).
      * right. vm_compute. repeat split; discriminate.
      * exists st', d. split; [exact H1|]. split; [exact H2|]. split; [exact H3|].
        by apply H4.
  - set (st := State {[ 1 := [Some 1; Some 13; Some 3; Some 4]; 5 := [Some 7; None] ]}
                     1000 {[ 1 := Vector 1 4 4; 2 := Vector 5 1 2 ]} []).
    destruct (C5_copy 4 throws13 st 1 1 [1; 13; 3; 4] []) as [_ H].
    + lia.
    + vm_compute. repeat split; try done. lia.
    + destruct (H 2 5 [7] [None]) as (_ & H1 & _).
      * lia.
      * vm_compute. repeat split; try done. lia.
      * destruct H1 as (st' & H1 & Ho & Hh & _).
        -- done.
        -- vm_compute. discriminate.
        -- vm_compute. discriminate.
        -- vm_compute. discriminate.
        -- destruct st' as [h' a' o' tr']. simpl in Ho, Hh. subst h' o'.
           exists tr'. rewrite H1. f_equal. f_equal.
           vm_compute in H1. by inversion H1.
Defined.

Lemma reachable_machine123 allowed :
  (∀ c, is_copy c = false → allowed c = true) →
  reachable 4 nothrow1 nothrow2 allowed machine123.
Proof.
  intros Hallowed.
  assert (H0 : reachable 4 nothrow1 nothrow2 allowed machine_new).
  { eapply reachable_step with (st := machine0) (c := OpNew) (r := Ret tt);
      [apply reachable_init|by apply Hallowed|done|by constructor
      |reflexivity|reflexivity]. }
  assert (H1 : reachable 4 nothrow1 nothrow2 allowed machine1).
  { eapply reachable_step with (st := machine_new) (c := OpPushBack 1 1) (r := Ret tt);
      [exact H0|by apply Hallowed|done| |reflexivity|reflexivity].
    constructor; [|by constructor]. by eexists. }
  assert (H2 : reachable 4 nothrow1 nothrow2 allowed machine12).
  { eapply reachable_step with (st := machine1) (c := OpPushBack 1 2) (r := Ret tt);
      [exact H1|by apply Hallowed|done| |reflexivity|reflexivity].
    constructor; [|by constructor]. by eexists. }
  eapply reachable_step with (st := machine12) (c := OpPushBack 1 3) (r := Ret tt);
    [exact H2|by apply Hallowed|done| |reflexivity|reflexivity].
  constructor; [|by constructor]. by eexists.
Qed.

Lemma C4_invariants_witness :
  (0 ≤ 3 ≤ 4 ∧ (3 = 0 ↔ 4 = 0)) ∧ pow2_or_zero 4.
Proof.
  destruct (C4_invariants 4 nothrow1 nothrow2) as [H1 H2]; [lia|].
  split.
  - apply (H1 machine123 1 (Vector 3 3 4)); [|reflexivity].
    by apply reachable_machine123.
  - apply (H2 machine123 1 (Vector 3 3 4)); [|reflexivity].
    apply reachable_machine123. by intros c ->.
Defined.

(** [vector<int> b(a);] after the three calls of [push_back] on [a]. *)
Definition machine_copy : @state Z := exec (new_vector_copy 4 nothrow1 1) machine123.

(** C4, counterexample: a copy of [[1,2,3]] has capacity 3, which is neither
    zero nor a power of two. *)
Lemma C4_counterexample :
  reachable 4 nothrow1 nothrow2 (λ _, true) machine_copy ∧
  objs machine123 !! 1 = Some (Vector 3 3 4) ∧
  objs machine_copy !! 2 = Some (Vector 4 3 3) ∧
  ¬ pow2_or_zero 3.
Proof.
  split; [|split; [reflexivity|split; [reflexivity|]]].
  - eapply reachable_step with (st := machine123) (c := OpCopy 1) (r := Ret tt);
      [by apply reachable_machine123|done|done| |reflexivity|reflexivity].
    constructor; [|by constructor]. by eexists.
  - intros [H|[k H]]; [lia|].
    destruct k as [|[|k]]; [simpl in H; lia|simpl in H; lia|].
    rewrite !Nat2Z.inj_succ, !Z.pow_succ_r in H by lia.
    assert (0 < 2 ^ Z.of_nat k) by (apply Z.pow_pos_nonneg; lia). lia.
Qed.

(** * Concrete runs of the other operations *)

Lemma holds_machine_new : holds 4 machine_new 1 0 [] [].
Proof. vm_compute. repeat split; try done. Qed.

Lemma holds_machine_copy :
  holds 4 machine_copy 1 3 [1; 2; 3] [None] ∧ holds 4 machine_copy 2 4 [1; 2; 3] [].
Proof. split; vm_compute; repeat split; try done; lia. Qed.

Lemma reachable_machine_copy : reachable 4 nothrow1 nothrow2 (λ _, true) machine_copy.
Proof.
  eapply reachable_step with (st := machine123) (c := OpCopy 1) (r := Ret tt);
    [by apply reachable_machine123|done|done| |reflexivity|reflexivity].
  constructor; [|by constructor]. by eexists.
Qed.

(** An element type whose copy assignment throws when the source is 2. *)
Definition assign_throws2 : Z → Z → bool := λ _ src, src =? 2.

Lemma X1_at_subscript_witness :
  at_ 1 2 machine123 = (Ret 3, machine123) ∧
  subscript 1 5 machine123 = (Throw index_out_of_bound, machine123).
Proof.
  destruct (X1_at_subscript 4 machine123 1 3 [1; 2; 3] [None] 2) as (H1 & _ & _);
    [exact holds_machine123|lia|].
  destruct (X1_at_subscript 4 machine123 1 3 [1; 2; 3] [None] 5) as (H2 & H3 & _);
    [exact holds_machine123|lia|].
  split; [exact H1|]. rewrite H3. exact H2.
Defined.

Lemma X2_front_back_witness :
  front 1 machine123 = (Ret 1, machine123) ∧
  back 1 machine123 = (Ret 3, machine123) ∧
  front 1 machine_new = (Throw container_is_empty, machine_new).
Proof.
  destruct (X2_front_back 4 machine123 1 3 [1; 2; 3] [None]) as [H1 H2];
    [lia|exact holds_machine123|].
  destruct (X2_front_back 4 machine_new 1 0 [] []) as [H3 _];
    [lia|exact holds_machine_new|].
  split; [exact H1|]. split; [exact H2|exact H3].
Defined.

Lemma X3_begin_end_witness :
  size 1 machine123 = (Ret 3, machine123) ∧
  end_ 1 machine123 = (Ret (Iterator 1 3), machine123) ∧
  empty 1 machine_new = (Ret true, machine_new).
Proof.
  destruct (X3_begin_end 4 machine123 1 3 [1; 2; 3] [None]) as (H1 & _ & _ & H2 & _);
    [exact holds_machine123|].
  destruct (X3_begin_end 4 machine_new 1 0 [] []) as (_ & H3 & _);
    [exact holds_machine_new|].
  split; [exact H1|]. split; [exact H2|exact H3].
Defined.

Lemma X4_deref_witness :
  deref (Iterator 1 1) machine123 = (Ret 2, machine123) ∧
  deref (Iterator 1 3) machine123 = (Throw invalid_iterator, machine123).
Proof.
  destruct (X4_deref 4 machine123 1 3 [1; 2; 3] [None] 1) as (H1 & H2 & _);
    [exact holds_machine123|lia|lia|].
  split; [exact H1|exact H2].
Defined.

Lemma X5_iterator_arithmetic_witness :
  it_sub (it_add (Iterator 1 0) (-1)) (-1) = Iterator 1 0 ∧
  it_pre_inc (it_pre_dec (Iterator 1 0)) = Iterator 1 0 ∧
  idx (it_pre_dec (Iterator 1 0)) = 2 ^ 64 - 1.
Proof.
  destruct (X5_iterator_arithmetic (Iterator 1 0) (-1)) as (H1 & _ & _ & H2 & _);
    [reflexivity|].
  split; [exact H1|]. split; [exact H2|reflexivity].
Defined.

Lemma X6_iterator_difference_witness :
  it_diff (Iterator 1 3) (Iterator 1 0) = Ret 3 ∧
  it_diff (Iterator 1 0) (Iterator 2 0) = Throw invalid_iterator.
Proof.
  destruct (X6_iterator_difference (Iterator 1 3) (Iterator 1 0)) as (_ & H1 & _).
  destruct (X6_iterator_difference (Iterator 1 0) (Iterator 2 0)) as (H2 & _).
  split.
  - apply H1; [reflexivity|simpl; lia|simpl; lia].
  - apply H2. simpl. lia.
Defined.

Lemma X7_begin_plus_witness :
  deref (it_add (Iterator 1 0) 2) machine123 = (Ret 3, machine123) ∧
  deref (it_add (Iterator 1 0) (-1)) machine123 = (Throw invalid_iterator, machine123).
Proof.
  destruct (X7_begin_plus 4 machine123 1 3 [1; 2; 3] [None] 2) as [H1 _];
    [lia|exact holds_machine123|lia|reflexivity|].
  destruct (X7_begin_plus 4 machine123 1 3 [1; 2; 3] [None] (-1)) as [_ H2];
    [lia|exact holds_machine123|lia|reflexivity|].
  split.
  - destruct H1 as (x & Hx & H1); [simpl; lia|].
    simpl in Hx. injection Hx as <-. exact H1.
  - apply H2. simpl. lia.
Defined.


Lemma X9_push_back_throws_witness :
  holds 4 (push_back 4 throws13 1 5 machine_13).2 1 1 [1; 13; 3; 4] [].
Proof.
  destruct (X9_push_back_throws 4 throws13 machine_13 1 1 [1; 13; 3; 4] [] 5 elem_exn
              (push_back 4 throws13 1 5 machine_13).2) as [_ [H|H]].
  - lia.
  - vm_compute. repeat split; try done. lia.
  - reflexivity.
  - destruct H as (_ & _ & _ & H). exact H.
  - destruct H as (_ & _ & H & _). discriminate H.
Defined.

Lemma X10_pop_back_witness :
  pop_back 1 machine_new = (Throw container_is_empty, machine_new) ∧
  ∃ st', pop_back 1 machine123 = (Ret tt, st') ∧ holds 4 st' 1 3 [1; 2] [None; None].
Proof.
  destruct (X10_pop_back 4 machine_new 1 0 [] []) as [H1 _];
    [lia|exact holds_machine_new|].
  destruct (X10_pop_back 4 machine123 1 3 [1; 2; 3] [None]) as [_ H2];
    [lia|exact holds_machine123|].
  split; [by apply H1|].
  destruct (H2 [1; 2] 3 eq_refl) as (st' & H3 & H4 & _).
  exists st'. split; [exact H3|exact H4].
Defined.



Lemma X13_clear_witness :
  ∃ st', clear 1 machine123 = (Ret tt, st') ∧
         holds 4 st' 1 3 [] [None; None; None; None] ∧
         trace st' = trace machine123 ++ [EvDestroy 3 0; EvDestroy 3 1; EvDestroy 3 2].
Proof.
  destruct (X13_clear 4 machine123 1 3 [1; 2; 3] [None]) as (st' & H1 & H2 & _ & _ & H3);
    [exact holds_machine123|].
  exists st'. split; [exact H1|]. split; [exact H2|exact H3].
Defined.

Lemma X14_destructor_witness :
  ∃ st', delete_vector 4 1 machine123 = (Ret tt, st') ∧
         heap st' !! 3 = None ∧ objs st' !! 1 = None ∧
         avail st' = avail machine123 + 16.
Proof.
  destruct (X14_destructor 4 machine123 1 3 [1; 2; 3] [None])
    as (st' & H1 & H2 & _ & H3 & H4 & _); [exact holds_machine123|].
  exists st'. split; [exact H1|]. split; [apply H3; lia|].
  split; [rewrite H2; apply lookup_delete_eq|exact H4].
Defined.

Lemma X15_swap_witness :
  ∃ st', swap 1 2 machine_copy = (Ret tt, st') ∧
         holds 4 st' 1 4 [1; 2; 3] [] ∧ holds 4 st' 2 3 [1; 2; 3] [None] ∧
         swap 1 2 st' = (Ret tt, machine_copy).
Proof.
  destruct holds_machine_copy as [Ha Hb].
  destruct (X15_swap 4 machine_copy 1 2 3 [1; 2; 3] [None] 4 [1; 2; 3] [] Ha Hb)
    as (st' & H1 & H2 & H3 & _ & _ & _ & H4 & _); [lia|].
  exists st'. split; [exact H1|]. split; [exact H2|]. split; [exact H3|exact H4].
Defined.

Lemma X16_assign_witness :
  ∃ st' d, assign 4 nothrow1 1 2 machine_copy = (Ret 1, st') ∧
           holds 4 st' 1 d [1; 2; 3] [] ∧ holds 4 st' 2 4 [1; 2; 3] [] ∧
           heap st' !! 3 = None.
Proof.
  destruct holds_machine_copy as [Ha Hb].
  destruct (X16_assign 4 nothrow1 machine_copy 1 3 [1; 2; 3] [None] 2 4 [1; 2; 3] [])
    as (st' & H1 & H2 & H3 & _ & H4 & _).
  - lia.
  - lia.
  - exact Ha.
  - exact Hb.
  - right. lia.
  - intros _. split; [vm_compute; discriminate|reflexivity].
  - exists st', (copy_data (heap machine_copy) [1; 2; 3]).
    split; [exact H1|]. split; [exact H2|]. split; [exact H3|apply H4; lia].
Defined.

Lemma X17_no_throw_witness :
  clear 1 machine123 ≠ (Throw bad_alloc, machine123) ∧
  swap 1 2 machine_copy ≠ (Throw bad_alloc, machine_copy).
Proof.
  destruct (X17_no_throw (T := Z) 4 1 2) as (H1 & H2 & _).
  split; intros H; [by apply H1 in H|by apply H2 in H].
Defined.

Lemma X18_exception_kinds_witness :
  pop_back 1 machine_new ≠ (Throw invalid_iterator, machine_new) ∧
  erase_idx nothrow2 1 7 machine123 ≠ (Throw invalid_iterator, machine123).
Proof.
  destruct (X18_exception_kinds 4 nothrow1 nothrow2 1 1 (Iterator 1 0) 7 9 (Iterator 1 0))
    as (H1 & _ & _ & _ & _ & _ & _ & _ & _ & _ & _ & _ & H2).
  split; intros H.
  - apply H1 in H. discriminate H.
  - apply H2 in H. destruct H as [H|H]; discriminate H.
Defined.

Lemma X19_push_all_capacity_witness :
  ∃ st' p' rest',
    push_all 4 nothrow1 1 [1; 2; 3] machine_new = (Ret tt, st') ∧
    holds 4 st' 1 p' [1; 2; 3] rest' ∧
    tight 3 (Z.of_nat (3 + length rest')).
Proof.
  apply (X19_push_all_capacity 4 nothrow1 machine_new 1 [1; 2; 3]).
  - lia.
  - reflexivity.
  - exact holds_machine_new.
  - vm_compute. discriminate.
Defined.

Lemma X20_lifecycle_witness :
  ∃ st',
    bind new_vector
         (λ v, bind (push_all 4 nothrow1 v [1; 2; 3]) (λ _, delete_vector 4 v)) machine0
    = (Ret tt, st') ∧
    heap st' = heap machine0 ∧ avail st' = avail machine0 ∧ objs st' = objs machine0.
Proof.
  apply (X20_lifecycle 4 nothrow1 machine0 [1; 2; 3]).
  - lia.
  - reflexivity.
  - vm_compute. discriminate.
Defined.

Lemma X21_isolation_witness :
  objs (perform 4 nothrow1 nothrow2 (OpPushBack 2 9) machine_copy).2 !! 1
  = Some (Vector 3 3 4) ∧
  contents (perform 4 nothrow1 nothrow2 (OpPushBack 2 9) machine_copy).2 1
  = contents machine_copy 1.
Proof.
  destruct (X21_isolation 4 nothrow1 nothrow2 (OpPushBack 2 9) machine_copy
              (perform 4 nothrow1 nothrow2 (OpPushBack 2 9) machine_copy).1
              (perform 4 nothrow1 nothrow2 (OpPushBack 2 9) machine_copy).2
              2 1 (Vector 3 3 4)) as (H1 & _ & H2).
  - lia.
  - exact reachable_machine_copy.
  - reflexivity.
  - reflexivity.
  - eexists. vm_compute. reflexivity.
  - vm_compute. reflexivity.
  - vm_compute. reflexivity.
  - lia.
  - vm_compute. reflexivity.
  - split; [exact H1|exact H2].
Defined.

Lemma X22_failed_insert_witness :
  (insert_idx 4 nothrow1 assign_throws2 1 0 9 machine123).1 = Throw elem_exn ∧
  ∃ p' l' rest',
    holds 4 (insert_idx 4 nothrow1 assign_throws2 1 0 9 machine123).2 1 p' l' rest' ∧
    length l' = 3%nat.
Proof.
  split; [reflexivity|].
  destruct (X22_failed_insert 4 nothrow1 assign_throws2 machine123 1 3 [1; 2; 3] [None]
              0 9 elem_exn (insert_idx 4 nothrow1 assign_throws2 1 0 9 machine123).2)
    as (p' & l' & rest' & H1 & H2 & _).
  - lia.
  - exact holds_machine123.
  - lia.
  - reflexivity.
  - exists p', l', rest'. split; [exact H1|exact H2].
Defined.

Lemma X23_failed_erase_witness :
  (erase_it assign_throws2 1 (Iterator 1 0) machine123).1 = Throw elem_exn ∧
  objs (erase_it assign_throws2 1 (Iterator 1 0) machine123).2 = objs machine123.
Proof.
  split; [reflexivity|].
  destruct (X23_failed_erase 4 assign_throws2 machine123 1 3 [1; 2; 3] [None]
              (Iterator 1 0) elem_exn
              (erase_it assign_throws2 1 (Iterator 1 0) machine123).2) as [H _].
  - lia.
  - exact holds_machine123.
  - simpl. lia.
  - reflexivity.
  - exact H.
Defined.

Lemma X24_no_leak_witness :
  ∃ x v, objs machine_copy !! x = Some v ∧ data_ v = 4 ∧ 3 = cap_ v.
Proof.
  destruct (X24_no_leak 4 nothrow1 nothrow2 machine_copy 4 [Some 1; Some 2; Some 3])
    as (_ & x & v & H1 & H2 & H3 & _).
  - lia.
  - exact reachable_machine_copy.
  - reflexivity.
  - exists x, v. split; [exact H1|]. split; [exact H2|exact H3].
Defined.


Lemma X26_iterator_after_swap_witness :
  ∃ st', swap 1 2 machine_copy = (Ret tt, st') ∧
         deref (Iterator 1 2) st' = (Ret 3, st').
Proof.
  destruct holds_machine_copy as [Ha Hb].
  apply (X26_iterator_after_swap 4 machine_copy 1 2 3 [1; 2; 3] [None] 4 [1; 2; 3] []
           2%nat 3 Ha Hb).
  - lia.
  - lia.
  - reflexivity.
Defined.


Lemma X28_default_constructor_witness :
  ∃ this st', new_vector machine0 = (Ret this, st') ∧ holds 4 st' this 0 [] [].
Proof.
  destruct (X28_default_constructor 4 machine0) as (this & st' & H1 & _ & H2 & _).
  exists this, st'. split; [exact H1|exact H2].
Defined.


Lemma X29_failed_insert_slot_witness :
  (insert_idx 4 nothrow1 assign_throws2 1 0 9 machine123).1 = Throw elem_exn ∧
  ∃ v' blk,
    objs (insert_idx 4 nothrow1 assign_throws2 1 0 9 machine123).2 !! 1 = Some v' ∧
    sz_ v' = 3 ∧
    heap (insert_idx 4 nothrow1 assign_throws2 1 0 9 machine123).2 !! data_ v' = Some blk ∧
    blk !! 3%nat = Some (Some 3).
Proof.
  split; [vm_compute; reflexivity|].
  apply (X29_failed_insert_slot 4 nothrow1 assign_throws2 machine123 1 3 [1; 2] 3 [None]
           0 9).
  - lia.
  - reflexivity.
  - exact holds_machine123.
  - simpl. lia.
  - vm_compute. reflexivity.
Defined.

End sjtu.
